(** * DoFTools and MatrixFree: a shallow embedding of the sparsity, constraint
    and loop-worker code of deal.II, and proofs about it.

    Conventions.
    - Global DoF indices are [N] (C++ [unsigned int]); local loop counters are [nat].
    - [Assert] is modelled with its debug-build meaning: a failed assertion
      aborts the operation with the given exception ([Err]).
    - A [SparsityPattern] records the calls made to [add], in order; the set of
      entries of the pattern is the set of added pairs.
    - A [ConstraintMatrix] records the calls made to [add_line] and [add_entry]. *)

From Stdlib Require Import String ZArith QArith NArith Arith List Bool Lia.
Import ListNotations.

Open Scope nat_scope.

(** ** Exceptions and the result monad *)

Inductive exc : Type :=
| ExcInternalError
| ExcDimensionMismatch (a b : N)
| ExcInvalidBoundaryIndicator
| ExcNotImplemented
| ExcIndexRange (index lower upper : N)
| ExcMessage (msg : string)
| ExcWrongSize (a b : N)
| ExcInvalidComponent (a b : N).

Inductive result (A : Type) : Type :=
| Ok (a : A)
| Err (e : exc).
Arguments Ok {A} a.
Arguments Err {A} e.

Definition bind {A B : Type} (r : result A) (k : A -> result B) : result B :=
  match r with
  | Ok a => k a
  | Err e => Err e
  end.

Notation "x <- r ;; k" := (bind r (fun x => k))
  (at level 61, r at next level, right associativity).

(** [Assert (cond, exc) ;; k] : continue with [k] when [cond] holds. *)
Notation "'Assert' ( b , e ) ;; k" := (if b then k else Err e)
  (at level 61, b at level 200, e at level 200, right associativity).

(** Iteration [for (i = 0; i < n; ++i)] over a state. *)
Definition for_range {S : Type} (n : nat) (body : nat -> S -> S) (s : S) : S :=
  fold_left (fun acc i => body i acc) (seq 0 n) s.

(** The same loop for a body that may fail. *)
Definition for_range_r {S : Type} (n : nat) (body : nat -> S -> result S) (s : S)
  : result S :=
  fold_left (fun acc i => bind acc (body i)) (seq 0 n) (Ok s).

(** ** Sparsity patterns *)

Record SparsityPattern : Type := {
  n_rows : N;
  n_cols : N;
  entries : list (N * N)  (** the [add] calls, most recent first *)
}.

Definition add (i j : N) (sp : SparsityPattern) : SparsityPattern :=
  {| n_rows := n_rows sp; n_cols := n_cols sp; entries := (i, j) :: entries sp |}.

(** ** The finite element and the DoF handler, as seen by DoFTools *)

Record FiniteElement : Type := {
  dofs_per_cell : nat;
  dofs_per_face : nat;
  n_components : nat;
  (** [system_to_component_index(i).first] *)
  system_to_component : nat -> nat
}.

(** A DoF handler: its active cells, in iteration order, and the global
    index of each local DoF of a cell ([cell->get_dof_indices]). *)
Record DoFHandler : Type := {
  n_dofs : N;
  fe : FiniteElement;
  active_cells : list nat;
  cell_dof : nat -> nat -> N
}.

(** [cell->get_dof_indices (dofs_on_this_cell)] then the i-th entry. *)
Definition dof_on (dof : DoFHandler) (cell i : nat) : N := cell_dof dof cell i.

(** [f] only calls [add], on pairs satisfying [P], and every such pair once at least. *)
Definition adds_only (f : SparsityPattern -> SparsityPattern) (P : N * N -> Prop) : Prop :=
  forall sp, n_rows (f sp) = n_rows sp /\ n_cols (f sp) = n_cols sp /\
    exists added, entries (f sp) = added ++ entries sp /\
      (forall p, In p added <-> P p).

Module Sparsity.

(** [DoFTools::make_sparsity_pattern (dof, sparsity)] *)
Definition cell_block (dof : DoFHandler) (cell : nat) (sp : SparsityPattern)
  : SparsityPattern :=
  let dpc := dofs_per_cell (fe dof) in
  for_range dpc (fun i sp1 =>
    for_range dpc (fun j sp2 => add (dof_on dof cell i) (dof_on dof cell j) sp2) sp1) sp.

Definition make_sparsity_pattern (dof : DoFHandler) (sparsity : SparsityPattern)
  : result SparsityPattern :=
  let n := n_dofs dof in
  Assert (N.eqb (n_rows sparsity) n, ExcDimensionMismatch (n_rows sparsity) n) ;;
  Assert (N.eqb (n_cols sparsity) n, ExcDimensionMismatch (n_cols sparsity) n) ;;
  Ok (fold_left (fun sp cell => cell_block dof cell sp) (active_cells dof) sparsity).

(** [vector<vector<bool> >] indexed as [mask[a][b]]. *)
Definition mask_at (mask : list (list bool)) (a b : nat) : bool :=
  nth b (nth a mask []) false.

(** The per-DoF mask [dof_mask[i][j]], built once before the cell loop. *)
Definition dof_mask (f : FiniteElement) (mask : list (list bool)) : list (list bool) :=
  map (fun i => map (fun j => mask_at mask (system_to_component f i)
                                           (system_to_component f j))
                    (seq 0 (dofs_per_cell f)))
      (seq 0 (dofs_per_cell f)).

Definition masked_cell_block (dof : DoFHandler) (dm : list (list bool)) (cell : nat)
  (sp : SparsityPattern) : SparsityPattern :=
  let dpc := dofs_per_cell (fe dof) in
  for_range dpc (fun i sp1 =>
    for_range dpc (fun j sp2 =>
      if mask_at dm i j then add (dof_on dof cell i) (dof_on dof cell j) sp2 else sp2)
      sp1) sp.

(** [for (i...) Assert (mask[i].size() == n_components, ...)] *)
Fixpoint check_mask_rows (mask : list (list bool)) (nc : nat) : result unit :=
  match mask with
  | [] => Ok tt
  | row :: rest =>
      Assert (Nat.eqb (length row) nc,
              ExcDimensionMismatch (N.of_nat (length row)) (N.of_nat nc)) ;;
      check_mask_rows rest nc
  end.

(** [DoFTools::make_sparsity_pattern (dof, mask, sparsity)] *)
Definition make_sparsity_pattern_masked (dof : DoFHandler) (mask : list (list bool))
  (sparsity : SparsityPattern) : result SparsityPattern :=
  let n := n_dofs dof in
  let nc := n_components (fe dof) in
  Assert (N.eqb (n_rows sparsity) n, ExcDimensionMismatch (n_rows sparsity) n) ;;
  Assert (N.eqb (n_cols sparsity) n, ExcDimensionMismatch (n_cols sparsity) n) ;;
  Assert (Nat.eqb (length mask) nc,
          ExcDimensionMismatch (N.of_nat (length mask)) (N.of_nat nc)) ;;
  rows_ok <- check_mask_rows mask nc ;;
  let dm := dof_mask (fe dof) mask in
  Ok (fold_left (fun sp cell => masked_cell_block dof dm cell sp) (active_cells dof) sparsity).

End Sparsity.

(** The pairs one cell contributes to the plain pattern. *)
Definition cell_coupling (dof : DoFHandler) (cell : nat) (p : N * N) : Prop :=
  exists i j, i < dofs_per_cell (fe dof) /\ j < dofs_per_cell (fe dof) /\
              p = (dof_on dof cell i, dof_on dof cell j).


(** ** Flux sparsity: the mesh seen by [make_flux_sparsity_pattern] *)

(** [GeometryInfo<dim>] *)
Definition faces_per_cell (dim : nat) : nat := 2 * dim.
Definition subfaces_per_face (dim : nat) : nat := 2 ^ (dim - 1).

(** The triangulation and its DoF handler: cells and faces are numbered;
    [face c f] is the face object [c->face(f)] (on which the user flag lives). *)
Record Mesh : Type := {
  dim : nat;
  dofh : DoFHandler;
  level : nat -> nat;
  has_children : nat -> bool;
  child : nat -> nat -> nat;
  child_cell_on_face : nat -> nat -> nat;  (** [GeometryInfo<dim>::child_cell_on_face] *)
  face : nat -> nat -> nat;
  at_boundary : nat -> nat -> bool;
  neighbor : nat -> nat -> nat;
  neighbor_of_neighbor : nat -> nat -> nat
}.

Module Flux.

(** The traversal state: the user flags of the faces (the set faces), the
    pattern, and a log of the neighbor pairs coupled, as
    (flagged face, this cell, other cell). *)
Record State : Type := {
  user_flags : list nat;
  sparsity : SparsityPattern;
  coupled : list (nat * nat * nat)
}.

Definition user_flag_set (st : State) (fc : nat) : bool :=
  existsb (Nat.eqb fc) (user_flags st).

Definition set_user_flag (fc : nat) (st : State) : State :=
  {| user_flags := fc :: user_flags st; sparsity := sparsity st; coupled := coupled st |}.

Definition map_sparsity (g : SparsityPattern -> SparsityPattern) (st : State) : State :=
  {| user_flags := user_flags st; sparsity := g (sparsity st); coupled := coupled st |}.

Definition log_pair (fc this other : nat) (st : State) : State :=
  {| user_flags := user_flags st; sparsity := sparsity st;
     coupled := (fc, this, other) :: coupled st |}.

(** The double loop adding (this[i], other[j]) and (other[i], this[j]). *)
Definition cross_block (dof : DoFHandler) (this other : nat) (sp : SparsityPattern)
  : SparsityPattern :=
  let n := dofs_per_cell (fe dof) in
  for_range n (fun i sp1 =>
    for_range n (fun j sp2 =>
      add (dof_on dof other i) (dof_on dof this j)
        (add (dof_on dof this i) (dof_on dof other j) sp2)) sp1) sp.

(** Coupling [cell] with [other] and flagging [other->face(neighbor_face)]. *)
Definition couple (m : Mesh) (cell other nf : nat) (st : State) : State :=
  let st1 := map_sparsity (cross_block (dofh m) cell other) st in
  log_pair (face m other nf) cell other (set_user_flag (face m other nf) st1).

(** The body of the loop over the faces of [cell]. *)
Definition flux_face (m : Mesh) (cell f : nat) (st : State) : State :=
  if user_flag_set st (face m cell f) then st
  else if at_boundary m cell f then st
  else
    let nb := neighbor m cell f in
    if Nat.ltb (level m nb) (level m cell) then st
    else
      let nf := neighbor_of_neighbor m cell f in
      if has_children m nb then
        for_range (subfaces_per_face (dim m)) (fun sub_nr st1 =>
          couple m cell (child m nb (child_cell_on_face m nf sub_nr)) nf st1) st
      else couple m cell nb nf st.

Definition flux_cell (m : Mesh) (st : State) (cell : nat) : State :=
  let st1 := map_sparsity (Sparsity.cell_block (dofh m) cell) st in
  for_range (faces_per_cell (dim m)) (fun f st2 => flux_face m cell f st2) st1.

(** The traversal after [clear_user_flags ()]. *)
Definition flux_traversal (m : Mesh) (sp : SparsityPattern) : State :=
  fold_left (flux_cell m) (active_cells (dofh m))
    {| user_flags := []; sparsity := sp; coupled := [] |}.

(** [DoFTools::make_flux_sparsity_pattern (dof, sparsity)] *)
Definition make_flux_sparsity_pattern (m : Mesh) (sp : SparsityPattern)
  : result SparsityPattern :=
  let n := n_dofs (dofh m) in
  Assert (N.eqb (n_rows sp) n, ExcDimensionMismatch (n_rows sp) n) ;;
  Assert (N.eqb (n_cols sp) n, ExcDimensionMismatch (n_cols sp) n) ;;
  Ok (sparsity (flux_traversal m sp)).

End Flux.

(** The interior faces of the mesh: [c->face(f)] over the active cells [c]
    and the faces [f] with [! c->at_boundary(f)], each counted once. *)
Definition cell_interior_faces (m : Mesh) (c : nat) : list nat :=
  map (face m c) (filter (fun f => negb (at_boundary m c f)) (seq 0 (faces_per_cell (dim m)))).

Definition interior_face_slots (m : Mesh) : list nat :=
  flat_map (cell_interior_faces m) (active_cells (dofh m)).

Definition n_interior_faces (m : Mesh) : nat :=
  length (nodup Nat.eq_dec (interior_face_slots m)).

(** A uniform mesh without hanging nodes: across every interior face of an
    active cell lies an active cell of the same level, and both see the same
    face object. *)
Definition uniform_mesh (m : Mesh) : Prop :=
  forall c f, In c (active_cells (dofh m)) -> f < faces_per_cell (dim m) ->
    at_boundary m c f = false ->
    level m (neighbor m c f) = level m c /\
    has_children m (neighbor m c f) = false /\
    face m (neighbor m c f) (neighbor_of_neighbor m c f) = face m c f.

(** The cell [neighbor->child (GeometryInfo<dim>::child_cell_on_face
    (neighbor_face, sub_nr))] coupled by the refined-neighbor branch from
    face [f] of [c]. *)
Definition sub_neighbor (m : Mesh) (c f sub_nr : nat) : nat :=
  child m (neighbor m c f) (child_cell_on_face m (neighbor_of_neighbor m c f) sub_nr).

(** Face [f] of the active cell [c] is not at the boundary. *)
Definition interior_face (m : Mesh) (c f : nat) : Prop :=
  In c (active_cells (dofh m)) /\ f < faces_per_cell (dim m) /\ at_boundary m c f = false.

(** ... and the neighbor across it is not refined: a face between two active cells. *)
Definition leaf_face (m : Mesh) (c f : nat) : Prop :=
  interior_face m c f /\ has_children m (neighbor m c f) = false.

(** ... and the neighbor across it is refined: the face carries hanging nodes. *)
Definition refined_face (m : Mesh) (c f : nat) : Prop :=
  interior_face m c f /\ has_children m (neighbor m c f) = true.

(** The faces between two active cells, one entry per (cell, face) slot. *)
Definition leaf_face_slots (m : Mesh) : list nat :=
  flat_map (fun c => map (face m c)
              (filter (fun f => negb (at_boundary m c f) && negb (has_children m (neighbor m c f)))
                      (seq 0 (faces_per_cell (dim m)))))
           (active_cells (dofh m)).

Definition n_leaf_faces (m : Mesh) : nat := length (nodup Nat.eq_dec (leaf_face_slots m)).

(** The triangulation facts [make_flux_sparsity_pattern] relies on, for a mesh
    that may have hanging nodes: active cells are listed once and have no
    children; a neighbor is never finer; a same-level unrefined neighbor
    shares the face object and sees [c] back across [neighbor_of_neighbor];
    the children of a refined neighbor on the face are active, one level finer,
    and see [c] back; a coarser neighbor is active and reaches [c] as one of
    the children on its face towards [c]'s parent; two interior face slots
    of active cells name the same face object only when they are the same
    slot or the two sides of a face between cells of the same level; and the
    children faces of distinct refined faces are distinct. *)
Record wf_mesh (m : Mesh) : Prop := {
  wf_active_nodup : NoDup (active_cells (dofh m));
  wf_active_leaf : forall c, In c (active_cells (dofh m)) -> has_children m c = false;
  wf_neighbor_level : forall c f, interior_face m c f ->
    level m (neighbor m c f) <= level m c;
  wf_same_level : forall c f, leaf_face m c f -> level m (neighbor m c f) = level m c ->
    interior_face m (neighbor m c f) (neighbor_of_neighbor m c f) /\
    neighbor m (neighbor m c f) (neighbor_of_neighbor m c f) = c /\
    face m (neighbor m c f) (neighbor_of_neighbor m c f) = face m c f;
  wf_refined : forall c f sub_nr, refined_face m c f -> sub_nr < subfaces_per_face (dim m) ->
    interior_face m (sub_neighbor m c f sub_nr) (neighbor_of_neighbor m c f) /\
    neighbor m (sub_neighbor m c f sub_nr) (neighbor_of_neighbor m c f) = c /\
    level m c < level m (sub_neighbor m c f sub_nr);
  wf_coarser : forall c f, interior_face m c f -> level m (neighbor m c f) < level m c ->
    exists g sub_nr, refined_face m (neighbor m c f) g /\
      level m (neighbor m (neighbor m c f) g) = level m (neighbor m c f) /\
      sub_nr < subfaces_per_face (dim m) /\
      sub_neighbor m (neighbor m c f) g sub_nr = c /\
      neighbor_of_neighbor m (neighbor m c f) g = f;
  wf_face_objects : forall c f c' f', interior_face m c f -> interior_face m c' f' ->
    face m c f = face m c' f' ->
    (c = c' /\ f = f') \/
    (neighbor m c f = c' /\ neighbor m c' f' = c /\ level m c = level m c');
  wf_subfaces : forall c f k c' f' k', refined_face m c f -> refined_face m c' f' ->
    k < subfaces_per_face (dim m) -> k' < subfaces_per_face (dim m) ->
    face m (sub_neighbor m c f k) (neighbor_of_neighbor m c f) =
    face m (sub_neighbor m c' f' k') (neighbor_of_neighbor m c' f') ->
    c = c' /\ f = f' /\ k = k'
}.

(** ** Constraint matrices *)

(** The calls made to a [ConstraintMatrix], in order. *)
Inductive cm_call : Type :=
| add_line (line : N)
| add_entry (line column : N) (value : Q).

Definition ConstraintMatrix := list cm_call.

(** ** Hanging node constraints in 2D *)

Module Hanging2D.

(** The finite element: DoF counts and the table [fe.constraints()]
    of size [m() x n()]. *)
Record FE2 : Type := {
  dofs_per_vertex : nat;
  dofs_per_line : nat;
  constraints_m : nat;
  constraints_n : nat;
  constraints_at : nat -> nat -> Q
}.

(** The 2D DoF handler: lines in iteration order; the faces of cells are
    lines. *)
Record Handler2 : Type := {
  fe2 : FE2;
  lines : list nat;
  active_cells2 : list nat;
  cell_face : nat -> nat -> nat;
  line_has_children : nat -> bool;
  line_child : nat -> nat -> nat;
  vertex_dof_index : nat -> nat -> nat -> N;  (** line, vertex, dof *)
  line_dof_index : nat -> nat -> N            (** line, dof *)
}.

(** The marking pass: clear the user flags of all lines, then flag every
    face of an active cell that has children. *)
Definition mark_lines (h : Handler2) : list nat :=
  fold_left (fun flags cell =>
    for_range (faces_per_cell 2) (fun f fl =>
      if line_has_children h (cell_face h cell f) then cell_face h cell f :: fl else fl) flags)
    (active_cells2 h) [].

Definition user_flag_set (flags : list nat) (l : nat) : bool := existsb (Nat.eqb l) flags.

(** [dofs_on_mother]: the DoFs of vertex 0, of vertex 1, then of the line. *)
Definition dofs_on_mother (h : Handler2) (l : nat) : list N :=
  let fe := fe2 h in
  let v := for_range 2 (fun vertex acc =>
             for_range (dofs_per_vertex fe) (fun dof acc1 =>
               acc1 ++ [vertex_dof_index h l vertex dof]) acc) [] in
  for_range (dofs_per_line fe) (fun dof acc => acc ++ [line_dof_index h l dof]) v.

(** [dofs_on_children]: the DoFs of vertex 1 of child 0, then the line DoFs of
    child 0 and of child 1. *)
Definition dofs_on_children (h : Handler2) (l : nat) : list N :=
  let fe := fe2 h in
  let v := for_range (dofs_per_vertex fe) (fun dof acc =>
             acc ++ [vertex_dof_index h (line_child h l 0) 1 dof]) [] in
  for_range 2 (fun child acc =>
    for_range (dofs_per_line fe) (fun dof acc1 =>
      acc1 ++ [line_dof_index h (line_child h l child) dof]) acc) v.

(** The constraint lines of one marked line. *)
Definition line_constraints (h : Handler2) (l : nat) (cm : ConstraintMatrix)
  : result ConstraintMatrix :=
  let fe := fe2 h in
  let dpv := dofs_per_vertex fe in
  let dpl := dofs_per_line fe in
  Assert (Nat.eqb (2 * dpv + dpl) (constraints_n fe),
          ExcDimensionMismatch (N.of_nat (2 * dpv + dpl)) (N.of_nat (constraints_n fe))) ;;
  Assert (Nat.eqb (dpv + 2 * dpl) (constraints_m fe),
          ExcDimensionMismatch (N.of_nat (3 * dpv + 2 * dpl)) (N.of_nat (constraints_m fe))) ;;
  let mother := dofs_on_mother h l in
  let children := dofs_on_children h l in
  Ok (for_range (length children) (fun row acc =>
        let acc1 := acc ++ [add_line (nth row children 0%N)] in
        for_range (length mother) (fun i acc2 =>
          acc2 ++ [add_entry (nth row children 0%N) (nth i mother 0%N)
                             (constraints_at fe row i)]) acc1) cm).

(** [DoFTools::make_hanging_node_constraints (dof_handler, constraints)], 2D *)
Definition make_hanging_node_constraints (h : Handler2) (cm : ConstraintMatrix)
  : result ConstraintMatrix :=
  let flags := mark_lines h in
  fold_left (fun acc l =>
    bind acc (fun cm1 => if user_flag_set flags l then line_constraints h l cm1 else Ok cm1))
    (lines h) (Ok cm).

(** A line is marked when it is a face, with children, of an active cell. *)
Definition line_marked (h : Handler2) (l : nat) : Prop :=
  exists cell f, In cell (active_cells2 h) /\ f < 4 /\
    cell_face h cell f = l /\ line_has_children h l = true.

(** The constraint lines of a marked line, one per child DoF [row], each with
    one entry per mother DoF [i] weighted [fe.constraints()(row, i)]. *)
Definition expected_block (fe : FE2) (mother children : list N) : ConstraintMatrix :=
  flat_map (fun row =>
    add_line (nth row children 0%N) ::
    map (fun i => add_entry (nth row children 0%N) (nth i mother 0%N) (constraints_at fe row i))
        (seq 0 (length mother)))
    (seq 0 (length children)).

(** The mother and child DoF lists as the spec describes them. *)
Definition mother_spec (h : Handler2) (l : nat) : list N :=
  let fe := fe2 h in
  map (vertex_dof_index h l 0) (seq 0 (dofs_per_vertex fe)) ++
  map (vertex_dof_index h l 1) (seq 0 (dofs_per_vertex fe)) ++
  map (line_dof_index h l) (seq 0 (dofs_per_line fe)).

Definition children_spec (h : Handler2) (l : nat) : list N :=
  let fe := fe2 h in
  map (vertex_dof_index h (line_child h l 0) 1) (seq 0 (dofs_per_vertex fe)) ++
  map (line_dof_index h (line_child h l 0)) (seq 0 (dofs_per_line fe)) ++
  map (line_dof_index h (line_child h l 1)) (seq 0 (dofs_per_line fe)).

End Hanging2D.

(** ** Intergrid constraints *)

Module Intergrid.

(** [FullMatrix<double> weights]: entry [(row, col)]. *)
Definition Matrix := nat -> nat -> Q.

Definition zero_matrix : Matrix := fun _ _ => 0%Q.

Definition set_entry (w : Matrix) (r c : nat) (v : Q) : Matrix :=
  fun r' c' => if Nat.eqb r' r && Nat.eqb c' c then v else w r' c'.

(** The coarse grid as the weight loop sees it. [representation cell d] is
    [global_parameter_representation] after
    [coarse_to_fine_grid_map[cell]->set_dof_values_by_interpolation] for the
    local parameter DoF [d]; it has [n_fine_dofs] entries. *)
Record CoarseGrid : Type := {
  coarse_cells : list nat;
  coarse_dofs_per_cell : nat;
  coarse_component_of : nat -> nat;
  parameter_dof_indices : nat -> nat -> nat;
  representation : nat -> nat -> list Q
}.

(** The loop over the entries of the representation of one parameter DoF. *)
Definition store_representation (weight_mapping : list Z) (wi : nat) (rep : list Q)
  (w : Matrix) : result Matrix :=
  for_range_r (length weight_mapping) (fun i w1 =>
    let v := nth i rep 0%Q in
    if negb (Z.eqb (nth i weight_mapping (-1)%Z) (-1)%Z) then
      if negb (Qeq_bool v 0) then Ok (set_entry w1 wi (Z.to_nat (nth i weight_mapping (-1)%Z)) v)
      else Ok w1
    else Assert (Qeq_bool v 0, ExcInternalError) ;; Ok w1) w.

(** The loop over the coarse cells filling [weights]
    ([DoFTools::compute_intergrid_constraints], first part). *)
Definition compute_weights (g : CoarseGrid) (coarse_component : nat) (weight_mapping : list Z)
  : result Matrix :=
  fold_left (fun acc cell =>
    bind acc (for_range_r (coarse_dofs_per_cell g) (fun local w =>
      if Nat.eqb (coarse_component_of g local) coarse_component then
        store_representation weight_mapping (parameter_dof_indices g cell local)
          (representation g cell local) w
      else Ok w)))
    (coarse_cells g) (Ok zero_matrix).

(** The values computed for each position, in order: [(wi, wj, v)] for every
    coarse cell, parameter DoF and fine parameter DoF. *)
Definition computed_values (g : CoarseGrid) (coarse_component : nat) (weight_mapping : list Z)
  : list (nat * nat * Q) :=
  flat_map (fun cell =>
    flat_map (fun local =>
      if Nat.eqb (coarse_component_of g local) coarse_component then
        flat_map (fun i =>
          if Z.eqb (nth i weight_mapping (-1)%Z) (-1)%Z then []
          else [(parameter_dof_indices g cell local, Z.to_nat (nth i weight_mapping (-1)%Z),
                 nth i (representation g cell local) 0%Q)])
          (seq 0 (length weight_mapping))
      else [])
      (seq 0 (coarse_dofs_per_cell g)))
    (coarse_cells g).

(** The first [k < n] with [p k], or [n]. *)
Definition first_index (p : nat -> bool) (n : nat) : nat :=
  match find p (seq 0 n) with Some k => k | None => n end.

(** The debug check: every column sums to one, or to zero with several components. *)
Definition check_column_sums (w : Matrix) (m n : nat) (n_components : nat) : result unit :=
  for_range_r n (fun col u =>
    let sum := fold_left (fun acc row => (acc + w row col)%Q) (seq 0 m) 0%Q in
    Assert (Qeq_bool sum 1 || (Nat.ltb 1 n_components && Qeq_bool sum 0), ExcInternalError) ;;
    Ok u) tt.

(** The representative of each row: the fine DoF whose column is the first
    column holding weight one. *)
Definition compute_representants (w : Matrix) (m n : nat) (weight_mapping : list Z)
  : result (list nat) :=
  for_range_r m (fun parameter_dof reps =>
    let column := first_index (fun c => Qeq_bool (w parameter_dof c) 1) n in
    Assert (Nat.ltb column n, ExcInternalError) ;;
    let global_dof := first_index (fun g => Z.eqb (nth g weight_mapping (-1)%Z) (Z.of_nat column))
                                  (length weight_mapping) in
    Assert (Nat.ltb global_dof (length weight_mapping), ExcInternalError) ;;
    Ok (reps ++ [global_dof])) [].

(** [weights(row, col)] with the debug bounds check of [FullMatrix]. *)
Definition el (w : Matrix) (m row col : nat) : result Q :=
  Assert (Nat.ltb row m, ExcIndexRange (N.of_nat row) 0 (N.of_nat m)) ;; Ok (w row col).

(** The constraint of one fine DoF. *)
Definition fine_dof_constraint (w : Matrix) (m : nat) (weight_mapping : list Z)
  (representants : list nat) (global_dof : nat) (cm : ConstraintMatrix)
  : result ConstraintMatrix :=
  let wm := nth global_dof weight_mapping (-1)%Z in
  if Z.eqb wm (-1)%Z then Ok cm
  else
    let col := Z.to_nat wm in
    let first_used_row := first_index (fun row => negb (Qeq_bool (w row col) 0)) m in
    v <- el w m first_used_row col ;;
    if Qeq_bool v 1 && Nat.eqb (nth first_used_row representants 0) global_dof then Ok cm
    else
      Ok (fold_left (fun acc row =>
            if negb (Qeq_bool (w row col) 0)
            then acc ++ [add_entry (N.of_nat global_dof) (N.of_nat (nth row representants 0))
                                   (w row col)]
            else acc)
          (seq first_used_row (m - first_used_row))
          (cm ++ [add_line (N.of_nat global_dof)])).

(** [DoFTools::compute_intergrid_constraints], second part: from the
    weights to the constraints. *)
Definition constraints_from_weights (w : Matrix) (m n : nat) (n_components : nat)
  (weight_mapping : list Z) (cm : ConstraintMatrix) : result ConstraintMatrix :=
  u <- check_column_sums w m n n_components ;;
  reps <- compute_representants w m n weight_mapping ;;
  for_range_r (length weight_mapping) (fine_dof_constraint w m weight_mapping reps) cm.

(** Applying the values in order, each one only when it is nonzero. *)
Definition apply_nonzero (w : Matrix) (vals : list (nat * nat * Q)) : Matrix :=
  fold_left (fun w1 '(r, c, v) => if Qeq_bool v 0 then w1 else set_entry w1 r c v) vals w.

(** The representative of row [r]: the fine DoF mapped to the first column of
    the row with weight one. *)
Definition representative (w : Matrix) (n : nat) (weight_mapping : list Z) (r : nat) : nat :=
  let column := first_index (fun c => Qeq_bool (w r c) 1) n in
  first_index (fun g => Z.eqb (nth g weight_mapping (-1)%Z) (Z.of_nat column))
              (length weight_mapping).

(** The constraint of a fine parameter DoF [g] as stated: none when the first
    nonzero weight of its column is one and the representative of that row is
    [g]; otherwise a line over all rows with nonzero weight. *)
Definition expected_fine_lines (w : Matrix) (m n : nat) (weight_mapping : list Z) (g : nat)
  : ConstraintMatrix :=
  let wm := nth g weight_mapping (-1)%Z in
  if Z.eqb wm (-1)%Z then []
  else
    let col := Z.to_nat wm in
    let rows := filter (fun row => negb (Qeq_bool (w row col) 0)) (seq 0 m) in
    match rows with
    | [] => []
    | r :: _ =>
        if Qeq_bool (w r col) 1 && Nat.eqb (representative w n weight_mapping r) g then []
        else add_line (N.of_nat g) ::
             map (fun row => add_entry (N.of_nat g) (N.of_nat (representative w n weight_mapping row))
                                       (w row col)) rows
    end.

End Intergrid.

(** ** Example inputs *)

(** ** Dimension one *)

(** The specialisations compiled when [deal_II_dimension == 1]. *)
Module OneD.

(** [DoFTools::make_boundary_sparsity_pattern (const DoFHandler<1>&, mapping, sparsity)] *)
Definition make_boundary_sparsity_pattern (dof : DoFHandler) (dof_to_boundary_mapping : list N)
  (sparsity : SparsityPattern) : result SparsityPattern :=
  Assert (false, ExcInternalError) ;; Ok sparsity.

(** [DoFTools::make_boundary_sparsity_pattern (const DoFHandler<1>&, boundary_indicators,
    mapping, sparsity)] *)
Definition make_boundary_sparsity_pattern_ind (dof : DoFHandler) (boundary_indicators : list nat)
  (dof_to_boundary_mapping : list N) (sparsity : SparsityPattern) : result SparsityPattern :=
  Assert (false, ExcInternalError) ;; Ok sparsity.

(** [DoFTools::make_hanging_node_constraints (const DoFHandler<1>&, ConstraintMatrix&)]:
    nothing to be done. *)
Definition make_hanging_node_constraints (dof : DoFHandler) (cm : ConstraintMatrix)
  : result ConstraintMatrix :=
  Ok cm.

(** The explicit instantiations of [make_flux_sparsity_pattern] and of the
    generic [make_boundary_sparsity_pattern] sit under
    [#if deal_II_dimension > 1]. *)
Definition flux_sparsity_instantiated (deal_II_dimension : nat) : bool :=
  Nat.ltb 1 deal_II_dimension.

End OneD.

(** ** Boundary sparsity patterns *)

Module Boundary.

(** [DoFHandler<dim>::invalid_dof_index], the largest [unsigned int]. *)
Definition invalid_dof_index : N := 4294967295.

(** [x - 1] on [unsigned int]. *)
Definition minus_one (x : N) : N := ((x + invalid_dof_index) mod 4294967296)%N.

(** An active face: [face->at_boundary()], [face->boundary_indicator()] and
    the global index of each of its DoFs ([face->get_dof_indices]). *)
Record Face : Type := {
  face_at_boundary : bool;
  boundary_indicator : nat;
  face_dof : nat -> N
}.

(** The DoF handler with its active faces, in iteration order, and the
    counts [dof.n_boundary_dofs()] and [dof.n_boundary_dofs(boundary_indicators)]. *)
Record BoundaryDoFHandler : Type := {
  handler : DoFHandler;
  active_faces : list Face;
  n_boundary_dofs : N;
  n_boundary_dofs_on : list nat -> N
}.

(** [*max_element(v.begin(), v.end())]; on an empty vector the source
    dereferences [end()], read here as 0. *)
Definition max_element (v : list N) : N := fold_left N.max v 0%N.

(** [*min_element(v.begin(), v.end())]; same convention on an empty vector. *)
Definition min_element (v : list N) : N :=
  match v with [] => 0%N | x :: r => fold_left N.min r x end.

(** [dof_to_boundary_mapping[d]] *)
Definition map_dof (dof_to_boundary_mapping : list N) (d : N) : N :=
  nth (N.to_nat d) dof_to_boundary_mapping 0%N.

(** The body of the face loop, for a face that is selected. *)
Definition boundary_face (dof_to_boundary_mapping : list N) (dofs_per_face : nat) (f : Face)
  (sparsity : SparsityPattern) : result SparsityPattern :=
  let dofs_on_this_face := map (face_dof f) (seq 0 dofs_per_face) in
  Assert (negb (N.eqb (min_element dofs_on_this_face) invalid_dof_index), ExcInternalError) ;;
  Ok (for_range dofs_per_face (fun i sp1 =>
        for_range dofs_per_face (fun j sp2 =>
          add (map_dof dof_to_boundary_mapping (nth i dofs_on_this_face 0%N))
              (map_dof dof_to_boundary_mapping (nth j dofs_on_this_face 0%N)) sp2) sp1) sparsity).

(** [DoFTools::make_boundary_sparsity_pattern (dof, dof_to_boundary_mapping, sparsity)] *)
Definition make_boundary_sparsity_pattern (bd : BoundaryDoFHandler)
  (dof_to_boundary_mapping : list N) (sparsity : SparsityPattern) : result SparsityPattern :=
  let n := n_dofs (handler bd) in
  Assert (N.eqb (N.of_nat (length dof_to_boundary_mapping)) n, ExcInternalError) ;;
  Assert (N.eqb (n_rows sparsity) (n_boundary_dofs bd),
          ExcDimensionMismatch (n_rows sparsity) (n_boundary_dofs bd)) ;;
  Assert (N.eqb (n_cols sparsity) (n_boundary_dofs bd),
          ExcDimensionMismatch (n_cols sparsity) (n_boundary_dofs bd)) ;;
  Assert (N.eqb (max_element dof_to_boundary_mapping) (minus_one (n_rows sparsity)),
          ExcInternalError) ;;
  let dpf := dofs_per_face (fe (handler bd)) in
  fold_left (fun acc f => bind acc (fun sp =>
      if face_at_boundary f then boundary_face dof_to_boundary_mapping dpf f sp else Ok sp))
    (active_faces bd) (Ok sparsity).

(** [boundary_indicators.find(b) != boundary_indicators.end()] *)
Definition has_indicator (boundary_indicators : list nat) (b : nat) : bool :=
  existsb (Nat.eqb b) boundary_indicators.

(** The [#ifdef DEBUG] maximum, skipping [invalid_dof_index]. *)
Definition max_valid_element (v : list N) : N :=
  fold_left (fun m i => if negb (N.eqb i invalid_dof_index) && N.ltb m i then i else m) v 0%N.

(** [DoFTools::make_boundary_sparsity_pattern (dof, boundary_indicators,
    dof_to_boundary_mapping, sparsity)] *)
Definition make_boundary_sparsity_pattern_ind (bd : BoundaryDoFHandler)
  (boundary_indicators : list nat) (dof_to_boundary_mapping : list N)
  (sparsity : SparsityPattern) : result SparsityPattern :=
  let n := n_dofs (handler bd) in
  let nb := n_boundary_dofs_on bd boundary_indicators in
  Assert (N.eqb (N.of_nat (length dof_to_boundary_mapping)) n, ExcInternalError) ;;
  Assert (negb (has_indicator boundary_indicators 255), ExcInvalidBoundaryIndicator) ;;
  Assert (N.eqb (n_rows sparsity) nb, ExcDimensionMismatch (n_rows sparsity) nb) ;;
  Assert (N.eqb (n_cols sparsity) nb, ExcDimensionMismatch (n_cols sparsity) nb) ;;
  Assert (N.eqb (max_valid_element dof_to_boundary_mapping) (minus_one (n_rows sparsity)),
          ExcInternalError) ;;
  let dpf := dofs_per_face (fe (handler bd)) in
  fold_left (fun acc f => bind acc (fun sp =>
      if has_indicator boundary_indicators (boundary_indicator f)
      then boundary_face dof_to_boundary_mapping dpf f sp else Ok sp))
    (active_faces bd) (Ok sparsity).




End Boundary.

(** ** The scratch-data pool of [MatrixFree] *)

Module Scratch.

(** The list [scratch_pad.get()] of the calling thread: [(in_use, address)]
    pairs, where [address] stands for [&it->second]; [next_address] is the
    address the allocator gives the next new list node. *)
Record Pool : Type := {
  scratch_pad : list (bool * nat);
  next_address : nat
}.

(** The loop of [acquire_scratch_data] over the list: the first entry whose
    flag is false gets flag true and its address is returned. *)
Fixpoint acquire_in (data : list (bool * nat)) : option (nat * list (bool * nat)) :=
  match data with
  | [] => None
  | (b, a) :: r =>
      if Bool.eqb b false then Some (a, (true, a) :: r)
      else match acquire_in r with
           | Some (x, r') => Some (x, (b, a) :: r')
           | None => None
           end
  end.

(** [MatrixFree::acquire_scratch_data]: otherwise [push_front (true, ...)]. *)
Definition acquire_scratch_data (p : Pool) : nat * Pool :=
  match acquire_in (scratch_pad p) with
  | Some (a, data) => (a, {| scratch_pad := data; next_address := next_address p |})
  | None => (next_address p,
             {| scratch_pad := (true, next_address p) :: scratch_pad p;
                next_address := S (next_address p) |})
  end.

(** The loop of [release_scratch_data]: the first entry with the given address. *)
Fixpoint release_in (scratch : nat) (data : list (bool * nat)) : result (list (bool * nat)) :=
  match data with
  | [] => Err (ExcMessage "Tried to release invalid scratch pad")
  | (b, a) :: r =>
      if Nat.eqb a scratch then
        Assert (b, ExcInternalError) ;; Ok ((false, a) :: r)
      else
        r' <- release_in scratch r ;; Ok ((b, a) :: r')
  end.

(** [MatrixFree::release_scratch_data] *)
Definition release_scratch_data (scratch : nat) (p : Pool) : result Pool :=
  data <- release_in scratch (scratch_pad p) ;;
  Ok {| scratch_pad := data; next_address := next_address p |}.

(** [n] calls of [acquire_scratch_data] with no release in between. *)
Fixpoint acquire_many (n : nat) (p : Pool) : list nat * Pool :=
  match n with
  | 0 => ([], p)
  | S k =>
      let (a, p1) := acquire_scratch_data p in
      let (l, p2) := acquire_many k p1 in
      (a :: l, p2)
  end.

(** Distinct list nodes have distinct addresses, all given out already. *)
Definition pool_wf (p : Pool) : Prop :=
  NoDup (map snd (scratch_pad p)) /\
  forall a, In a (map snd (scratch_pad p)) -> a < next_address p.

End Scratch.

(** ** The worker of the matrix-free loops *)

(** [internal::MFWorker] and [internal::VectorDataExchange] for source and
    destination vectors of type [LinearAlgebra::distributed::Vector], one DoF
    component. The calls they make on the vectors are recorded as events;
    vectors live in a store indexed by their address, so that [src] and [dst]
    may be the same object. *)
Module MFLoop.

Inductive DataAccessOnFaces : Type := none | values | gradients | unspecified.

Definition is_unspecified (a : DataAccessOnFaces) : bool :=
  match a with unspecified => true | _ => false end.

(** [Utilities::MPI::Partitioner], through the two counts the exchanger reads. *)
Record Partitioner : Type := {
  n_ghost_indices : nat;
  n_import_indices : nat
}.

(** The [MatrixFree] object as the exchanger sees it: whether
    [task_info.face_partition_data] is empty, the partitioner
    [vector_partitioner_face_variants[k]] of an access mode, and whether it is
    the same object as [vector_partitioner]. *)
Record MatrixFreeInfo : Type := {
  face_partition_data_empty : bool;
  face_variant : DataAccessOnFaces -> Partitioner;
  face_variant_is_main : DataAccessOnFaces -> bool
}.

(** A distributed vector: [vec.size()] and [vec.has_ghost_elements()]. *)
Record DistVector : Type := {
  vsize : nat;
  has_ghost_elements : bool
}.

Definition Store := nat -> DistVector.

Inductive event : Type :=
  | VecUpdateGhostsStart (v : nat)    (** [vec.update_ghost_values_start] *)
  | ExportToGhostedStart (v : nat)    (** [part.export_to_ghosted_array_start] *)
  | VecUpdateGhostsFinish (v : nat)
  | ExportToGhostedFinish (v : nat)
  | VecCompressStart (v : nat)
  | ImportFromGhostedStart (v : nat)
  | VecCompressFinish (v : nat)
  | ImportFromGhostedFinish (v : nat)
  | ZeroOutGhosts (v : nat)           (** [vec.zero_out_ghosts()] *)
  | ZeroGhostSubset (v : nat)         (** the loop over [ghost_indices_within_larger_ghost_set] *)
  | ZeroWholeVector (v : nat)         (** [vec = 0] *)
  | ZeroVectorRegion (v : nat) (range_index : nat)
  | CellWork (range : nat).

Record VectorDataExchange : Type := {
  matrix_free : MatrixFreeInfo;
  vector_face_access : DataAccessOnFaces;
  ghosts_were_set : bool
}.

(** The constructor: [unspecified] when there are no face partitions. *)
Definition make_exchanger (mf : MatrixFreeInfo) (access : DataAccessOnFaces) : VectorDataExchange :=
  {| matrix_free := mf;
     vector_face_access := if face_partition_data_empty mf then unspecified else access;
     ghosts_were_set := false |}.

(** [get_partitioner]: variant 0, 1 or 2 by the access mode. *)
Definition variant_of (a : DataAccessOnFaces) : DataAccessOnFaces :=
  match a with none => none | values => values | _ => gradients end.

Definition get_partitioner (ex : VectorDataExchange) : Partitioner :=
  face_variant (matrix_free ex) (variant_of (vector_face_access ex)).

Definition partitioner_is_main (ex : VectorDataExchange) : bool :=
  face_variant_is_main (matrix_free ex) (variant_of (vector_face_access ex)).

Definition no_exchange (part : Partitioner) : bool :=
  Nat.eqb (n_ghost_indices part) 0 && Nat.eqb (n_import_indices part) 0.

Definition update_ghost_values_start (ex : VectorDataExchange) (store : Store) (v : nat)
  : VectorDataExchange * list event :=
  let vec := store v in
  let ex := if has_ghost_elements vec
            then {| matrix_free := matrix_free ex; vector_face_access := vector_face_access ex;
                    ghosts_were_set := true |}
            else ex in
  if is_unspecified (vector_face_access ex) || Nat.eqb (vsize vec) 0 then
    (ex, [VecUpdateGhostsStart v])
  else if partitioner_is_main ex then (ex, [VecUpdateGhostsStart v])
  else if no_exchange (get_partitioner ex) then (ex, [])
  else (ex, [ExportToGhostedStart v]).

Definition update_ghost_values_finish (ex : VectorDataExchange) (store : Store) (v : nat)
  : list event :=
  if is_unspecified (vector_face_access ex) || Nat.eqb (vsize (store v)) 0 then
    [VecUpdateGhostsFinish v]
  else if partitioner_is_main ex then [VecUpdateGhostsFinish v]
  else if no_exchange (get_partitioner ex) then []
  else [ExportToGhostedFinish v].

Definition compress_start (ex : VectorDataExchange) (store : Store) (v : nat)
  : result (list event) :=
  Assert (negb (has_ghost_elements (store v)), ExcNotImplemented) ;;
  if is_unspecified (vector_face_access ex) || Nat.eqb (vsize (store v)) 0 then
    Ok [VecCompressStart v]
  else if partitioner_is_main ex then Ok [VecCompressStart v]
  else if no_exchange (get_partitioner ex) then Ok []
  else Ok [ImportFromGhostedStart v].

Definition compress_finish (ex : VectorDataExchange) (store : Store) (v : nat) : list event :=
  if is_unspecified (vector_face_access ex) || Nat.eqb (vsize (store v)) 0 then
    [VecCompressFinish v]
  else if partitioner_is_main ex then [VecCompressFinish v]
  else if no_exchange (get_partitioner ex) then []
  else [ImportFromGhostedFinish v].

Definition reset_ghost_values (ex : VectorDataExchange) (store : Store) (v : nat) : list event :=
  if ghosts_were_set ex then []
  else if is_unspecified (vector_face_access ex) || Nat.eqb (vsize (store v)) 0 then
    [ZeroOutGhosts v]
  else if partitioner_is_main ex then [ZeroOutGhosts v]
  else if Nat.ltb 0 (n_ghost_indices (get_partitioner ex)) then [ZeroGhostSubset v]
  else [].

Definition invalid_unsigned_int : N := 4294967295.

(** [zero_vector_region]; the assertions on the DoF info's zero ranges are
    left out. *)
Definition zero_vector_region (ex : VectorDataExchange) (range_index : nat) (v : nat)
  : list event :=
  if N.eqb (N.of_nat range_index) invalid_unsigned_int then [ZeroWholeVector v]
  else [ZeroVectorRegion v range_index].

Record MFWorker : Type := {
  store : Store;
  src : nat;
  dst : nat;
  src_data_exchanger : VectorDataExchange;
  dst_data_exchanger : VectorDataExchange;
  src_and_dst_are_same : bool;
  zero_dst_vector_setting : bool
}.

(** The constructor; [PointerComparison::equal(&src, &dst)] compares addresses. *)
Definition make_worker (mf : MatrixFreeInfo) (st : Store) (src dst : nat)
  (zero_dst_vector_setting : bool) (src_vector_face_access dst_vector_face_access : DataAccessOnFaces)
  : MFWorker :=
  let same := Nat.eqb src dst in
  {| store := st; src := src; dst := dst;
     src_data_exchanger := make_exchanger mf src_vector_face_access;
     dst_data_exchanger := make_exchanger mf dst_vector_face_access;
     src_and_dst_are_same := same;
     zero_dst_vector_setting := zero_dst_vector_setting && negb same |}.

Definition with_src_exchanger (w : MFWorker) (ex : VectorDataExchange) : MFWorker :=
  {| store := store w; src := src w; dst := dst w; src_data_exchanger := ex;
     dst_data_exchanger := dst_data_exchanger w;
     src_and_dst_are_same := src_and_dst_are_same w;
     zero_dst_vector_setting := zero_dst_vector_setting w |}.

(** A hook of the worker: the new worker and the events, or an error. *)
Definition Step := MFWorker -> result (MFWorker * list event).

Definition vector_update_ghosts_start : Step := fun w =>
  if negb (src_and_dst_are_same w) then
    let '(ex, evs) := update_ghost_values_start (src_data_exchanger w) (store w) (src w) in
    Ok (with_src_exchanger w ex, evs)
  else Ok (w, []).

Definition vector_update_ghosts_finish : Step := fun w =>
  if negb (src_and_dst_are_same w) then
    Ok (w, update_ghost_values_finish (src_data_exchanger w) (store w) (src w))
  else Ok (w, []).

Definition vector_compress_start : Step := fun w =>
  evs <- compress_start (dst_data_exchanger w) (store w) (dst w) ;; Ok (w, evs).

Definition vector_compress_finish : Step := fun w =>
  Ok (w, compress_finish (dst_data_exchanger w) (store w) (dst w) ++
         (if negb (src_and_dst_are_same w)
          then reset_ghost_values (src_data_exchanger w) (store w) (src w) else [])).

Definition zero_dst_vector_range (range_index : nat) : Step := fun w =>
  if zero_dst_vector_setting w
  then Ok (w, zero_vector_region (dst_data_exchanger w) range_index (dst w))
  else Ok (w, []).

Definition cell (range : nat) : Step := fun w => Ok (w, [CellWork range]).

Definition then_step (s1 s2 : Step) : Step := fun w =>
  r1 <- s1 w ;;
  let '(w1, e1) := r1 in
  r2 <- s2 w1 ;;
  let '(w2, e2) := r2 in
  Ok (w2, e1 ++ e2).

Definition skip_step : Step := fun w => Ok (w, []).

(** Modelled from the spec: [TaskInfo::loop], which drives the worker. The
    ghost exchange of the source is started and finished, each cell range is
    zeroed (when requested) before its cell work, and the destination is
    compressed at the end. *)
Definition task_info_loop (ranges : list nat) : Step :=
  then_step vector_update_ghosts_start
    (then_step vector_update_ghosts_finish
      (then_step (fold_right (fun r k => then_step (then_step (zero_dst_vector_range r) (cell r)) k)
                             skip_step ranges)
        (then_step vector_compress_start vector_compress_finish))).

(** [MatrixFree::cell_loop] and [MatrixFree::loop] build the worker and run
    [task_info.loop (worker)]; [cell_loop] leaves the face access modes at
    their default [none]. *)
Definition loop (mf : MatrixFreeInfo) (st : Store) (ranges : list nat) (dst src : nat)
  (zero_dst_vector : bool) (dst_vector_face_access src_vector_face_access : DataAccessOnFaces)
  : result (MFWorker * list event) :=
  task_info_loop ranges
    (make_worker mf st src dst zero_dst_vector src_vector_face_access dst_vector_face_access).

Definition cell_loop (mf : MatrixFreeInfo) (st : Store) (ranges : list nat) (dst src : nat)
  (zero_dst_vector : bool) : result (MFWorker * list event) :=
  loop mf st ranges dst src zero_dst_vector none none.

(** Events touching the ghost values of vector [v]. *)
Definition ghost_event_on (v : nat) (e : event) : bool :=
  match e with
  | VecUpdateGhostsStart x | ExportToGhostedStart x | VecUpdateGhostsFinish x
  | ExportToGhostedFinish x | ZeroOutGhosts x | ZeroGhostSubset x => Nat.eqb x v
  | _ => false
  end.

Definition ghost_reset_on (v : nat) (e : event) : bool :=
  match e with ZeroOutGhosts x | ZeroGhostSubset x => Nat.eqb x v | _ => false end.

Definition zeroing_event (e : event) : bool :=
  match e with ZeroWholeVector _ | ZeroVectorRegion _ _ => true | _ => false end.

(** The ghost entries [reset_ghost_values] reaches when the ghosts were not
    set on entry: all of them, or those of a face partitioner that has some. *)
Definition reset_reaches (ex : VectorDataExchange) (vec : DistVector) : bool :=
  is_unspecified (vector_face_access ex) || Nat.eqb (vsize vec) 0 || partitioner_is_main ex ||
  Nat.ltb 0 (n_ghost_indices (get_partitioner ex)).

End MFLoop.

(** ** Vectors written by index *)

(** [v[k] = x] on a [vector]. The callers below write in range only; out of
    range (undefined in C++) the vector is left as it is. *)
Fixpoint set_at {A : Type} (v : list A) (k : nat) (x : A) : list A :=
  match v, k with
  | [], _ => []
  | _ :: r, 0 => x :: r
  | y :: r, S k' => y :: set_at r k' x
  end.

(** [fill_n (v.begin(), n, x)] *)
Fixpoint fill_n {A : Type} (v : list A) (n : nat) (x : A) : list A :=
  match v, n with
  | [], _ => []
  | y :: r, 0 => y :: r
  | _ :: r, S n' => x :: fill_n r n' x
  end.

(** ** Selecting DoFs *)

Module Extract.

(** The cell loop of [extract_dofs] and [extract_level_dofs]:
    [selected_dofs[indices[i]] = true] for each local DoF [i] whose component
    [fe.system_to_component_index(i).first] is selected. *)
Definition select_on_cells (f : FiniteElement) (cells : list nat) (dof_index : nat -> nat -> N)
  (local_select : list bool) (selected_dofs : list bool) : list bool :=
  fold_left (fun sel c =>
    for_range (dofs_per_cell f) (fun i s =>
      let component := system_to_component f i in
      if nth component local_select false
      then set_at s (N.to_nat (dof_index c i)) true else s) sel)
    cells selected_dofs.

(** [DoFTools::extract_dofs (dof, local_select, selected_dofs)] *)
Definition extract_dofs (dof : DoFHandler) (local_select selected_dofs : list bool)
  : result (list bool) :=
  let f := fe dof in
  Assert (Nat.eqb (length local_select) (n_components f),
          ExcDimensionMismatch (N.of_nat (length local_select)) (N.of_nat (n_components f))) ;;
  Assert (N.eqb (N.of_nat (length selected_dofs)) (n_dofs dof),
          ExcDimensionMismatch (N.of_nat (length selected_dofs)) (n_dofs dof)) ;;
  let selected := fill_n selected_dofs (N.to_nat (n_dofs dof)) false in
  Ok (select_on_cells f (active_cells dof) (dof_on dof) local_select selected).

(** A multilevel DoF handler: per level, its number of DoFs, its cells
    ([dof.begin(level)] to [dof.end(level)]) and their level DoF indices
    ([c->get_mg_dof_indices]). *)
Record MGDoFHandler : Type := {
  mg_fe : FiniteElement;
  mg_n_dofs : nat -> N;
  level_cells : nat -> list nat;
  mg_dof_index : nat -> nat -> nat -> N  (** level, cell, local DoF *)
}.

(** [DoFTools::extract_level_dofs (level, dof, local_select, selected_dofs)] *)
Definition extract_level_dofs (level : nat) (dof : MGDoFHandler)
  (local_select selected_dofs : list bool) : result (list bool) :=
  let f := mg_fe dof in
  Assert (Nat.eqb (length local_select) (n_components f),
          ExcDimensionMismatch (N.of_nat (length local_select)) (N.of_nat (n_components f))) ;;
  Assert (N.eqb (N.of_nat (length selected_dofs)) (mg_n_dofs dof level),
          ExcDimensionMismatch (N.of_nat (length selected_dofs)) (mg_n_dofs dof level)) ;;
  let selected := fill_n selected_dofs (N.to_nat (mg_n_dofs dof level)) false in
  Ok (select_on_cells f (level_cells dof level) (mg_dof_index dof level) local_select selected).

(** The DoF handler as [extract_boundary_dofs] sees it in 2D and 3D: the
    faces of the active cells, whether they are at the boundary, and the
    global index of each DoF of a face ([cell->face(face)->get_dof_indices]). *)
Record FaceDoFHandler : Type := {
  fdof : DoFHandler;
  fdim : nat;
  cell_at_boundary : nat -> nat -> bool;    (** [cell->at_boundary(face)] *)
  face_system_to_component : nat -> nat;    (** [fe.face_system_to_component_index(i).first] *)
  face_dof_index : nat -> nat -> nat -> N   (** cell, face, local face DoF *)
}.

(** [DoFTools::extract_boundary_dofs (dof_handler, component_select, selected_dofs)],
    [deal_II_dimension != 1] *)
Definition extract_boundary_dofs (h : FaceDoFHandler) (component_select selected_dofs : list bool)
  : result (list bool) :=
  let dof := fdof h in
  let f := fe dof in
  Assert (Nat.eqb (length component_select) (n_components f),
          ExcWrongSize (N.of_nat (length component_select)) (N.of_nat (n_components f))) ;;
  (* selected_dofs.clear (); selected_dofs.resize (dof_handler.n_dofs(), false) *)
  let selected := repeat false (N.to_nat (n_dofs dof)) in
  Ok (fold_left (fun sel cell =>
        for_range (faces_per_cell (fdim h)) (fun face s =>
          if cell_at_boundary h cell face then
            for_range (dofs_per_face f) (fun i s1 =>
              if nth (face_system_to_component h i) component_select false
              then set_at s1 (N.to_nat (face_dof_index h cell face i)) true else s1) s
          else s) sel)
      (active_cells dof) selected).

(** The 1D DoF handler: the coarse cells ([dof_handler.begin(0)] to
    [end(0)]), whether [cell->neighbor(v) == dof_handler.end()] for the
    vertices [v = 0, 1], and [cell->vertex_dof_index(v, i)]. *)
Record LineDoFHandler : Type := {
  ldof : DoFHandler;
  dofs_per_vertex1 : nat;
  coarse_cells1 : list nat;
  neighbor_is_end : nat -> nat -> bool;
  face_system_to_component1 : nat -> nat;
  vertex_dof_index1 : nat -> nat -> nat -> N   (** cell, vertex, local DoF *)
}.

(** The check of the left-most ([v = 0]) or right-most ([v = 1]) vertex of a cell. *)
Definition check_vertex (h : LineDoFHandler) (component_select : list bool) (cell v : nat)
  (s : list bool) : list bool :=
  if neighbor_is_end h cell v then
    for_range (dofs_per_face (fe (ldof h))) (fun i s1 =>
      if nth (face_system_to_component1 h i) component_select false
      then set_at s1 (N.to_nat (vertex_dof_index1 h cell v i)) true else s1) s
  else s.

(** [DoFTools::extract_boundary_dofs (dof_handler, component_select, selected_dofs)],
    the specialisation for [DoFHandler<1>] *)
Definition extract_boundary_dofs_1d (h : LineDoFHandler) (component_select selected_dofs : list bool)
  : result (list bool) :=
  let dof := ldof h in
  let f := fe dof in
  Assert (Nat.eqb (length component_select) (n_components f),
          ExcWrongSize (N.of_nat (length component_select)) (N.of_nat (n_components f))) ;;
  let selected := repeat false (N.to_nat (n_dofs dof)) in
  Assert (Nat.eqb (dofs_per_face f) (dofs_per_vertex1 h), ExcInternalError) ;;
  Ok (fold_left (fun sel cell =>
        check_vertex h component_select cell 1 (check_vertex h component_select cell 0 sel))
      (coarse_cells1 h) selected).

(** The DoFs [extract_dofs] selects: those of a local DoF of a selected
    component on some active cell. *)
Definition selected_on_cells (f : FiniteElement) (cells : list nat) (dof_index : nat -> nat -> N)
  (local_select : list bool) (d : nat) : Prop :=
  exists c i, In c cells /\ i < dofs_per_cell f /\
    nth (system_to_component f i) local_select false = true /\ dof_index c i = N.of_nat d.

(** The DoFs [extract_boundary_dofs] selects: those of a face DoF of a selected
    component on a boundary face of an active cell. *)
Definition on_boundary_face (h : FaceDoFHandler) (component_select : list bool) (d : nat) : Prop :=
  exists c face i, In c (active_cells (fdof h)) /\ face < faces_per_cell (fdim h) /\
    cell_at_boundary h c face = true /\ i < dofs_per_face (fe (fdof h)) /\
    nth (face_system_to_component h i) component_select false = true /\
    face_dof_index h c face i = N.of_nat d.

(** The DoFs the 1D variant selects: those of a selected component on the
    vertex [v] of a coarse cell without a neighbor across [v]. *)
Definition on_outer_vertex (h : LineDoFHandler) (component_select : list bool) (d : nat) : Prop :=
  exists c v i, In c (coarse_cells1 h) /\ v < 2 /\ neighbor_is_end h c v = true /\
    i < dofs_per_face (fe (ldof h)) /\
    nth (face_system_to_component1 h i) component_select false = true /\
    vertex_dof_index1 h c v i = N.of_nat d.

End Extract.

(** ** Cell data to DoF data *)

Module Distribute.

(** One active cell of the loop of [distribute_cell_to_dof_vector]: the state
    is [(dof_data, touch_count, present_cell)]; [touch_count] is a
    [vector<unsigned char>], so its increment wraps modulo 256. *)
Definition cell_step (dof : DoFHandler) (cell_data : list Q) (component : nat)
  (consider_components : bool) (st : list Q * list nat * nat) (cell : nat)
  : list Q * list nat * nat :=
  let '(dof_data, touch_count, present_cell) := st in
  let f := fe dof in
  let '(dd, tc) :=
    for_range (dofs_per_cell f) (fun i '(dd1, tc1) =>
      if negb consider_components || Nat.eqb (system_to_component f i) component then
        let k := N.to_nat (dof_on dof cell i) in
        (set_at dd1 k (nth k dd1 0 + nth present_cell cell_data 0)%Q,
         set_at tc1 k ((nth k tc1 0 + 1) mod 256))
      else (dd1, tc1)) (dof_data, touch_count) in
  (dd, tc, S present_cell).

(** [DoFTools::distribute_cell_to_dof_vector (dof_handler, cell_data, dof_data,
    component)]; [tria.n_active_cells()] is the number of active cells. *)
Definition distribute_cell_to_dof_vector (dof : DoFHandler) (cell_data dof_data : list Q)
  (component : nat) : result (list Q) :=
  let f := fe dof in
  let n := N.to_nat (n_dofs dof) in
  let n_active_cells := length (active_cells dof) in
  Assert (Nat.eqb (length cell_data) n_active_cells,
          ExcWrongSize (N.of_nat (length cell_data)) (N.of_nat n_active_cells)) ;;
  Assert (Nat.eqb (length dof_data) n,
          ExcWrongSize (N.of_nat (length dof_data)) (n_dofs dof)) ;;
  Assert (Nat.ltb component (n_components f),
          ExcInvalidComponent (N.of_nat component) (N.of_nat (n_components f))) ;;
  let consider_components := negb (Nat.eqb (n_components f) 1) in
  let '(dd, touch_count, _) :=
    fold_left (cell_step dof cell_data component consider_components) (active_cells dof)
      (dof_data, repeat 0 n, 0) in
  for_range_r n (fun i dd1 =>
    Assert (consider_components || negb (Nat.eqb (nth i touch_count 0) 0), ExcInternalError) ;;
    Ok (if negb (Nat.eqb (nth i touch_count 0) 0)
        then set_at dd1 i (nth i dd1 0%Q / inject_Z (Z.of_nat (nth i touch_count 0%nat)))%Q
        else dd1)) dd.

(** The additions the cell loop makes, in order: [(global DoF, cell value)]
    for each active cell and each of its local DoFs that counts. *)
Definition summands (dof : DoFHandler) (cell_data : list Q) (component : nat) : list (nat * Q) :=
  let f := fe dof in
  let consider_components := negb (Nat.eqb (n_components f) 1) in
  flat_map (fun '(present_cell, cell) =>
    flat_map (fun i =>
      if negb consider_components || Nat.eqb (system_to_component f i) component
      then [(N.to_nat (dof_on dof cell i), nth present_cell cell_data 0%Q)] else [])
      (seq 0 (dofs_per_cell f)))
    (combine (seq 0 (length (active_cells dof))) (active_cells dof)).

(** The cell values added into [dof_data[d]], in order. *)
Definition contributions (dof : DoFHandler) (cell_data : list Q) (component : nat) (d : nat)
  : list Q :=
  map snd (filter (fun s => Nat.eqb (fst s) d) (summands dof cell_data component)).

End Distribute.

(** ** Numbering the fine parameter DoFs in [compute_intergrid_constraints] *)

Module IntergridSetup.

(** [dof_is_interesting]: the fine DoFs of the selected component. *)
Definition dof_is_interesting (fine_grid : DoFHandler) (fine_component : nat) : list bool :=
  fold_left (fun v cell =>
    for_range (dofs_per_cell (fe fine_grid)) (fun i v1 =>
      if Nat.eqb (system_to_component (fe fine_grid) i) fine_component
      then set_at v1 (N.to_nat (dof_on fine_grid cell i)) true else v1) v)
    (active_cells fine_grid) (repeat false (N.to_nat (n_dofs fine_grid))).

(** [count (v.begin(), v.end(), true)] *)
Definition count_true (v : list bool) : nat := length (filter (fun b => b) v).

(** The loop giving [weight_mapping[d] = next_free_index++] at the first
    occurrence of each fine parameter DoF [d]. *)
Definition number_parameters (fine_grid : DoFHandler) (fine_component : nat) : list Z * nat :=
  fold_left (fun st cell =>
    for_range (dofs_per_cell (fe fine_grid)) (fun i '(weight_mapping, next_free_index) =>
      let k := N.to_nat (dof_on fine_grid cell i) in
      if Nat.eqb (system_to_component (fe fine_grid) i) fine_component &&
         Z.eqb (nth k weight_mapping (-1)%Z) (-1)%Z
      then (set_at weight_mapping k (Z.of_nat next_free_index), S next_free_index)
      else (weight_mapping, next_free_index)) st)
    (active_cells fine_grid) (repeat (-1)%Z (N.to_nat (n_dofs fine_grid)), 0).

(** [n_parameters_on_fine_grid] and [weight_mapping], with the check
    [next_free_index == n_parameters_on_fine_grid]. *)
Definition compute_weight_mapping (fine_grid : DoFHandler) (fine_component : nat)
  : result (nat * list Z) :=
  let n_parameters_on_fine_grid := count_true (dof_is_interesting fine_grid fine_component) in
  let '(weight_mapping, next_free_index) := number_parameters fine_grid fine_component in
  Assert (Nat.eqb next_free_index n_parameters_on_fine_grid, ExcInternalError) ;;
  Ok (n_parameters_on_fine_grid, weight_mapping).

(** A fine parameter DoF: a DoF of the selected component on an active cell. *)
Definition parameter_dof (fine_grid : DoFHandler) (fine_component : nat) (d : nat) : Prop :=
  exists c i, In c (active_cells fine_grid) /\ i < dofs_per_cell (fe fine_grid) /\
    system_to_component (fe fine_grid) i = fine_component /\ dof_on fine_grid c i = N.of_nat d.

End IntergridSetup.

(** ** [MatrixFree::get_face_category] *)

Module FaceCategory.

(** [face_info.faces[macro_face]]: the [n_array_elements] interior and
    exterior cells of a batch of faces, [invalid_unsigned_int] for unused lanes. *)
Record FaceToCells : Type := {
  cells_interior : list N;
  cells_exterior : list N
}.

Definition invalid_unsigned_int : N := 4294967295.

(** The lanes [v] visited by
    [for (v = 0; v < n_array_elements && cells[v] != invalid_unsigned_int; ++v)]. *)
Fixpoint valid_lanes (n_array_elements : nat) (cells : list N) : list N :=
  match n_array_elements, cells with
  | 0, _ => []
  | _, [] => []
  | S n', c :: r => if N.eqb c invalid_unsigned_int then [] else c :: valid_lanes n' r
  end.

(** [MatrixFree::get_face_category (macro_face)]; [result] starts at [(0, 0)]. *)
Definition get_face_category (faces : list FaceToCells) (cell_active_fe_index : list N)
  (n_array_elements : nat) (macro_face : nat) : result (N * N) :=
  Assert (Nat.ltb macro_face (length faces),
          ExcIndexRange (N.of_nat macro_face) 0 (N.of_nat (length faces))) ;;
  match cell_active_fe_index with
  | [] => Ok (0%N, 0%N)
  | _ =>
      let f := nth macro_face faces {| cells_interior := []; cells_exterior := [] |} in
      let fe_index (c : N) := nth (N.to_nat c) cell_active_fe_index 0%N in
      let first := fold_left (fun r c => N.max r (fe_index c))
                     (valid_lanes n_array_elements (cells_interior f)) 0%N in
      let second :=
        if negb (N.eqb (nth 0 (cells_exterior f) invalid_unsigned_int) invalid_unsigned_int)
        then fold_left (fun r c => N.max first (fe_index c))
               (valid_lanes n_array_elements (cells_exterior f)) 0%N
        else invalid_unsigned_int in
      Ok (first, second)
  end.

End FaceCategory.

(** ** [MatrixFree::n_active_entries_per_cell_batch] and [_face_batch] *)

Module ActiveEntries.
Import FaceCategory.

(** [while (n_components > 1 && cond) --n_components;], the condition read
    at the current [n_components]. *)
Fixpoint shrink_while (cond : nat -> bool) (n_components : nat) : nat :=
  match n_components with
  | S (S _ as n') => if cond n_components then shrink_while cond n' else n_components
  | _ => n_components
  end.

(** [n_components - 1] in [unsigned int] arithmetic. *)
Definition minus_one_uint (n : nat) : N := ((N.of_nat n + 4294967295) mod 4294967296)%N.

(** [cell_level_index[a] == cell_level_index[b]] on [std::pair<unsigned int, unsigned int>]. *)
Definition pair_eqb (a b : nat * nat) : bool :=
  Nat.eqb (fst a) (fst b) && Nat.eqb (snd a) (snd b).

(** [MatrixFree::n_active_entries_per_cell_batch (cell_batch_number)];
    [cell_partition_back] is [task_info.cell_partition_data.back()]. *)
Definition n_active_entries_per_cell_batch (n_array_elements cell_partition_back : nat)
  (cell_level_index : list (nat * nat)) (cell_batch_number : nat) : result nat :=
  Assert (Nat.ltb cell_batch_number cell_partition_back,
          ExcIndexRange (N.of_nat cell_batch_number) 0 (N.of_nat cell_partition_back)) ;;
  let n_components :=
    shrink_while (fun n =>
      pair_eqb (nth (cell_batch_number * n_array_elements + n - 1) cell_level_index (0, 0))
               (nth (cell_batch_number * n_array_elements + n - 2) cell_level_index (0, 0)))
      n_array_elements in
  Assert (N.ltb (minus_one_uint n_components) (N.of_nat n_array_elements),
          ExcIndexRange (minus_one_uint n_components) 0 (N.of_nat n_array_elements)) ;;
  Ok n_components.

(** [MatrixFree::n_active_entries_per_face_batch (face_batch_number)] *)
Definition n_active_entries_per_face_batch (n_array_elements : nat) (faces : list FaceToCells)
  (face_batch_number : nat) : result nat :=
  Assert (Nat.ltb face_batch_number (length faces),
          ExcIndexRange (N.of_nat face_batch_number) 0 (N.of_nat (length faces))) ;;
  let f := nth face_batch_number faces {| cells_interior := []; cells_exterior := [] |} in
  let n_components :=
    shrink_while (fun n =>
      N.eqb (nth (n - 1) (cells_interior f) invalid_unsigned_int) invalid_unsigned_int)
      n_array_elements in
  Assert (N.ltb (minus_one_uint n_components) (N.of_nat n_array_elements),
          ExcIndexRange (minus_one_uint n_components) 0 (N.of_nat n_array_elements)) ;;
  Ok n_components.

End ActiveEntries.

(** ** Vector collections in the matrix-free loops *)

Module Channels.

(** The vector arguments of a loop: a [LinearAlgebra::distributed::Vector]
    (by address) or a block vector with its blocks. *)
Inductive VectorStruct : Type :=
| Single (v : nat)
| Block (blocks : list nat).

(** [n_components (vec)]: 1 for a vector, the sum over the blocks (1 each)
    for a block vector ([n_components_block]). *)
Definition n_components_vs (vs : VectorStruct) : nat :=
  match vs with
  | Single _ => 1
  | Block bs => for_range (length bs) (fun _ components => components + 1) 0
  end.

(** [n_components (std::vector<VectorStruct>)] *)
Definition n_components_vec (vec : list VectorStruct) : nat :=
  for_range (length vec) (fun comp components =>
    components + n_components_vs (nth comp vec (Single 0))) 0.

(** [update_ghost_values_start (vec, exchanger, channel)] and its three
    siblings ([update_ghost_values_finish], [compress_start],
    [compress_finish]) on one [VectorStruct]: [op channel v] is the exchanger
    call on the vector [v] ([exchanger.update_ghost_values_start(channel, v)]
    and so on); block [i] of a block vector gets [channel + i]. *)
Definition on_struct {A : Type} (op : nat -> nat -> A) (vs : VectorStruct) (channel : nat)
  : list A :=
  match vs with
  | Single v => [op channel v]
  | Block bs => for_range (length bs) (fun i calls => calls ++ [op (channel + i) (nth i bs 0)]) []
  end.

(** The same operations on a [std::vector<VectorStruct>]: [component_index]
    advances by [n_components (vec[comp])]. *)
Definition on_vector {A : Type} (op : nat -> nat -> A) (vec : list VectorStruct) : list A :=
  fst (for_range (length vec) (fun comp '(calls, component_index) =>
         (calls ++ on_struct op (nth comp vec (Single 0)) component_index,
          component_index + n_components_vs (nth comp vec (Single 0))))
       ([], 0)).

(** The vectors of a collection, block by block. *)
Definition leaves (vs : VectorStruct) : list nat :=
  match vs with Single v => [v] | Block bs => bs end.

End Channels.

Module Examples.

Definition empty_pattern (n : N) : SparsityPattern :=
  {| n_rows := n; n_cols := n; entries := [] |}.

(** A scalar Q1 element in 2D. *)
Definition q1_fe : FiniteElement :=
  {| dofs_per_cell := 4; dofs_per_face := 2; n_components := 1;
     system_to_component := fun _ => 0 |}.

(** Two squares side by side, sharing face 1 of cell 0 = face 0 of cell 1. *)
Definition two_cells_dof : DoFHandler :=
  {| n_dofs := 6; fe := q1_fe; active_cells := [0; 1];
     cell_dof := fun c i => N.of_nat (nth i (nth c [[0; 1; 3; 4]; [1; 2; 4; 5]] []) 0) |}.

Definition two_cells : Mesh :=
  {| dim := 2; dofh := two_cells_dof; level := fun _ => 0;
     has_children := fun _ => false; child := fun _ _ => 0;
     child_cell_on_face := fun _ _ => 0;
     face := fun c f => nth f (nth c [[0; 1; 2; 3]; [1; 4; 5; 6]] []) 0;
     at_boundary := fun c f => negb ((Nat.eqb c 0 && Nat.eqb f 1) || (Nat.eqb c 1 && Nat.eqb f 0));
     neighbor := fun c _ => if Nat.eqb c 0 then 1 else 0;
     neighbor_of_neighbor := fun c _ => if Nat.eqb c 0 then 0 else 1 |}.

(** A coarse square (cell 0) beside a refined square (cell 1) whose active
    children are 2, 3 (bottom) and 4, 5 (top); faces are numbered left,
    right, bottom, top, so faces 20 and 40 of cells 2 and 4 hang on face 1
    of cell 0. Q1 DoFs, 11 in all, DoF 6 on the hanging vertex. *)
Definition hanging_dof : DoFHandler :=
  {| n_dofs := 11; fe := q1_fe; active_cells := [0; 2; 3; 4; 5];
     cell_dof := fun c i => N.of_nat (nth i (nth c
       [[0; 1; 2; 3]; []; [1; 4; 6; 7]; [4; 5; 7; 8]; [6; 7; 3; 9]; [7; 8; 9; 10]] []) 0) |}.

Definition hanging_mesh : Mesh :=
  {| dim := 2; dofh := hanging_dof;
     level := fun c => if Nat.ltb c 2 then 0 else 1;
     has_children := fun c => Nat.eqb c 1;
     child := fun _ i => 2 + i;
     child_cell_on_face := fun f k => nth k (nth f [[0; 2]; [1; 3]; [0; 1]; [2; 3]] []) 0;
     face := fun c f => nth f (nth c [[10; 11; 12; 13]; [11; 14; 15; 16]; [20; 21; 22; 23];
                                      [21; 30; 31; 32]; [40; 41; 23; 42]; [41; 50; 32; 51]] []) 0;
     at_boundary := fun c f => nth f (nth c [[true; false; true; true]; [false; true; true; true];
                                      [false; false; true; false]; [false; true; true; false];
                                      [false; false; false; true]; [false; true; false; true]] []) true;
     neighbor := fun c f => nth f (nth c [[0; 1; 0; 0]; [0; 0; 0; 0]; [0; 3; 0; 4];
                                   [2; 0; 0; 5]; [0; 5; 2; 0]; [4; 0; 3; 0]] []) 0;
     neighbor_of_neighbor := fun c f => nth f (nth c [[0; 0; 0; 0]; [1; 0; 0; 0]; [1; 0; 0; 2];
                                   [1; 0; 0; 2]; [1; 0; 3; 0]; [1; 0; 3; 0]] []) 0 |}.

(** A two-component element: local DoFs 0, 1 in component 0, DoFs 2, 3 in component 1. *)
Definition two_comp_fe : FiniteElement :=
  {| dofs_per_cell := 4; dofs_per_face := 2; n_components := 2;
     system_to_component := fun i => if Nat.ltb i 2 then 0 else 1 |}.

Definition two_comp_dof : DoFHandler :=
  {| n_dofs := 4; fe := two_comp_fe; active_cells := [0];
     cell_dof := fun _ i => N.of_nat i |}.

(** Three coarse DoFs [0, 1, 2] of a 1D grid on two cells [[0, 1]] and [[1, 2]],
    interpolated on five fine DoFs at half steps. *)
Definition two_coarse_cells : Intergrid.CoarseGrid :=
  {| Intergrid.coarse_cells := [0; 1];
     Intergrid.coarse_dofs_per_cell := 2;
     Intergrid.coarse_component_of := fun _ => 0;
     Intergrid.parameter_dof_indices := fun c l => c + l;
     Intergrid.representation := fun c l =>
       nth l (nth c [[[1; 1#2; 0; 0; 0]; [0; 1#2; 1; 0; 0]];
                     [[0; 0; 1; 1#2; 0]; [0; 0; 0; 1#2; 1]]]%Q []) [] |}.

(** A weight matrix whose column 0 has three nonzero weights, the first one
    being 1 in the row whose representative is fine DoF 0. *)
Definition first_one_weights : Intergrid.Matrix :=
  fun r c => nth c (nth r [[1; 0; 0]; [1#2; 1; 0]; [-1#2; 0; 1]]%Q []) 0%Q.



(** A 1D mesh with one linear cell. *)
Definition one_line_dof : DoFHandler :=
  {| n_dofs := 2;
     fe := {| dofs_per_cell := 2; dofs_per_face := 1; n_components := 1;
              system_to_component := fun _ => 0 |};
     active_cells := [0]; cell_dof := fun _ i => N.of_nat i |}.

(** Face partitions with their own partitioners (two ghosts, one import). *)
Definition mf_faces : MFLoop.MatrixFreeInfo :=
  {| MFLoop.face_partition_data_empty := false;
     MFLoop.face_variant := fun _ => {| MFLoop.n_ghost_indices := 2; MFLoop.n_import_indices := 1 |};
     MFLoop.face_variant_is_main := fun _ => false |}.

(** Every vector has ten entries and no ghost elements set. *)
Definition unghosted_store : MFLoop.Store :=
  fun _ => {| MFLoop.vsize := 10; MFLoop.has_ghost_elements := false |}.

(** A pool with a buffer in use (address 0) and a free one (address 1). *)
Definition two_buffer_pool : Scratch.Pool :=
  {| Scratch.scratch_pad := [(true, 0); (false, 1)]; Scratch.next_address := 2 |}.

End Examples.

(** * Proofs *)

(** ** Insertion lemmas *)

Section AddsOnly.

Lemma adds_only_add (i j : N) : adds_only (add i j) (fun p => p = (i, j)).
Proof.
  intro sp; repeat split; exists [(i, j)]; split; [reflexivity|].
  intro p; simpl; split; [intros [H|[]]; auto | intro H; auto].
Qed.

Lemma adds_only_id : adds_only (fun sp => sp) (fun _ => False).
Proof.
  intro sp; repeat split; exists []; split; [reflexivity|]; simpl; tauto.
Qed.

Lemma adds_only_ext (f : SparsityPattern -> SparsityPattern) (P Q : N * N -> Prop) :
  adds_only f P -> (forall p, P p <-> Q p) -> adds_only f Q.
Proof.
  intros H HPQ sp; destruct (H sp) as (H1 & H2 & added & H3 & H4).
  repeat split; auto; exists added; split; auto.
  intro p; rewrite H4; apply HPQ.
Qed.

Lemma adds_only_fold {A : Type} (l : list A) (f : A -> SparsityPattern -> SparsityPattern)
  (P : A -> N * N -> Prop) :
  (forall a, adds_only (f a) (P a)) ->
  adds_only (fun sp => fold_left (fun acc a => f a acc) l sp)
            (fun p => exists a, In a l /\ P a p).
Proof.
  intro Hf; induction l as [|a l IH]; intro sp; simpl.
  - repeat split; exists []; split; [reflexivity|]; simpl.
    intro p; split; [tauto | intros (a & [] & _)].
  - destruct (Hf a sp) as (R1 & C1 & new1 & E1 & M1).
    destruct (IH (f a sp)) as (R2 & C2 & new2 & E2 & M2).
    repeat split; [congruence | congruence |].
    exists (new2 ++ new1); split; [rewrite E2, E1, app_assoc; reflexivity|].
    intro p; rewrite in_app_iff, M1, M2; split.
    + intros [(b & Hb & HP)|HP]; eauto.
    + intros (b & [<-|Hb] & HP); eauto.
Qed.

Lemma adds_only_for_range (n : nat) (body : nat -> SparsityPattern -> SparsityPattern)
  (P : nat -> N * N -> Prop) :
  (forall i, i < n -> adds_only (body i) (P i)) ->
  adds_only (for_range n body) (fun p => exists i, i < n /\ P i p).
Proof.
  intro Hb.
  assert (Hfold : adds_only (fun sp => fold_left (fun acc i => body i acc) (seq 0 n) sp)
                    (fun p => exists i, In i (seq 0 n) /\ P i p)).
  { intro sp.
    assert (Hgen : forall l, (forall i, In i l -> i < n) ->
              adds_only (fun sp => fold_left (fun acc i => body i acc) l sp)
                        (fun p => exists i, In i l /\ P i p)).
    { clear sp; induction l as [|a l IH]; intros Hl sp; simpl.
      - repeat split; exists []; split; [reflexivity|]; simpl.
        intro p; split; [tauto | intros (a & [] & _)].
      - destruct (Hb a (Hl a (or_introl eq_refl)) sp) as (R1 & C1 & new1 & E1 & M1).
        destruct (IH (fun i Hi => Hl i (or_intror Hi)) (body a sp))
          as (R2 & C2 & new2 & E2 & M2).
        repeat split; [congruence | congruence |].
        exists (new2 ++ new1); split; [rewrite E2, E1, app_assoc; reflexivity|].
        intro p; rewrite in_app_iff, M1, M2; split.
        + intros [(b & Hb' & HP)|HP]; eauto.
        + intros (b & [<-|Hb'] & HP); eauto. }
    apply Hgen; intros i Hi; apply in_seq in Hi; lia. }
  eapply adds_only_ext; [exact Hfold|].
  intro p; split; intros (i & Hi & HP); exists i; split; auto;
    [apply in_seq in Hi; lia | apply in_seq; lia].
Qed.

Lemma adds_only_comp (f g : SparsityPattern -> SparsityPattern) (P Q : N * N -> Prop) :
  adds_only f P -> adds_only g Q -> adds_only (fun sp => g (f sp)) (fun p => P p \/ Q p).
Proof.
  intros Hf Hg sp.
  destruct (Hf sp) as (R1 & C1 & new1 & E1 & M1).
  destruct (Hg (f sp)) as (R2 & C2 & new2 & E2 & M2).
  repeat split; [congruence | congruence |].
  exists (new2 ++ new1); split; [rewrite E2, E1, app_assoc; reflexivity|].
  intro p; rewrite in_app_iff, M1, M2; tauto.
Qed.

Lemma adds_only_keeps (f : SparsityPattern -> SparsityPattern) (P : N * N -> Prop) sp p :
  adds_only f P -> In p (entries sp) -> In p (entries (f sp)).
Proof.
  intros Hf Hp; destruct (Hf sp) as (_ & _ & added & E & _).
  rewrite E; apply in_or_app; auto.
Qed.

Lemma adds_only_new (f : SparsityPattern -> SparsityPattern) (P : N * N -> Prop) sp p :
  adds_only f P -> P p -> In p (entries (f sp)).
Proof.
  intros Hf Hp; destruct (Hf sp) as (_ & _ & added & E & M).
  rewrite E; apply in_or_app; left; apply M; exact Hp.
Qed.

End AddsOnly.

Module SparsityProofs.
Import Sparsity.

Lemma cell_block_adds (dof : DoFHandler) (cell : nat) :
  adds_only (cell_block dof cell) (cell_coupling dof cell).
Proof.
  unfold cell_block.
  eapply adds_only_ext.
  - apply adds_only_for_range; intros i Hi.
    apply adds_only_for_range; intros j Hj.
    apply adds_only_add.
  - intro p; unfold cell_coupling; split.
    + intros (i & Hi & j & Hj & ->); eauto 7.
    + intros (i & j & Hi & Hj & ->); eauto 7.
Qed.

Lemma masked_cell_block_adds (dof : DoFHandler) (dm : list (list bool)) (cell : nat) :
  adds_only (masked_cell_block dof dm cell)
    (fun p => exists i j, i < dofs_per_cell (fe dof) /\ j < dofs_per_cell (fe dof) /\
                          mask_at dm i j = true /\
                          p = (dof_on dof cell i, dof_on dof cell j)).
Proof.
  unfold masked_cell_block.
  eapply adds_only_ext.
  - apply adds_only_for_range; intros i Hi.
    apply (adds_only_for_range _ _ (fun j p => mask_at dm i j = true /\
                                 p = (dof_on dof cell i, dof_on dof cell j))).
    intros j Hj.
    destruct (mask_at dm i j) eqn:E.
    + eapply adds_only_ext; [apply adds_only_add|]; intuition.
    + eapply adds_only_ext; [apply adds_only_id|].
      intro p; split; [tauto | intros [H _]; discriminate].
  - intro p; split.
    + intros (i & Hi & j & Hj & Hm & ->); eauto 8.
    + intros (i & j & Hi & Hj & Hm & ->); eauto 8.
Qed.

Lemma make_sparsity_pattern_adds (dof : DoFHandler) :
  adds_only (fun sp => fold_left (fun acc cell => cell_block dof cell acc) (active_cells dof) sp)
            (fun p => exists cell, In cell (active_cells dof) /\ cell_coupling dof cell p).
Proof. apply adds_only_fold; intro; apply cell_block_adds. Qed.

Lemma check_mask_rows_ok (mask : list (list bool)) (nc : nat) :
  Forall (fun row => length row = nc) mask -> check_mask_rows mask nc = Ok tt.
Proof.
  induction 1 as [|row rest Hrow _ IH]; simpl; [reflexivity|].
  rewrite Hrow, Nat.eqb_refl; exact IH.
Qed.

(** Claim C7: the plain sparsity pattern is symmetric: the pairs
    [make_sparsity_pattern] inserts contain (i, j) exactly when they contain
    (j, i), for every mesh and finite element. *)
Theorem make_sparsity_pattern_symmetric (dof : DoFHandler) (sp sp' : SparsityPattern) :
  make_sparsity_pattern dof sp = Ok sp' ->
  exists inserted, entries sp' = inserted ++ entries sp /\
    (forall i j, In (i, j) inserted <-> In (j, i) inserted).
Proof.
  unfold make_sparsity_pattern, bind.
  destruct (N.eqb (n_rows sp) (n_dofs dof)); [|discriminate].
  destruct (N.eqb (n_cols sp) (n_dofs dof)); [|discriminate].
  intro H; injection H as <-.
  destruct (make_sparsity_pattern_adds dof sp) as (_ & _ & inserted & E & M).
  exists inserted; split; [exact E|].
  intros i j; rewrite !M; unfold cell_coupling.
  split; intros (cell & Hc & a & b & Ha & Hb & Hab); injection Hab as -> ->;
    exists cell; split; auto; exists b, a; auto.
Qed.

(** Claim C8: for every mask satisfying the precondition (square, side equal to
    the number of components), the pairs inserted by the masked
    [make_sparsity_pattern] are among those the plain variant inserts on the
    same DoF handler and the same initial pattern. *)
Theorem masked_sparsity_subset (dof : DoFHandler) (mask : list (list bool))
  (sp : SparsityPattern) :
  n_rows sp = n_dofs dof -> n_cols sp = n_dofs dof ->
  length mask = n_components (fe dof) ->
  Forall (fun row => length row = n_components (fe dof)) mask ->
  exists sp1 sp2,
    make_sparsity_pattern_masked dof mask sp = Ok sp1 /\
    make_sparsity_pattern dof sp = Ok sp2 /\
    exists ins1 ins2, entries sp1 = ins1 ++ entries sp /\ entries sp2 = ins2 ++ entries sp /\
      incl ins1 ins2.
Proof.
  intros Hr Hc Hl Hrows.
  unfold make_sparsity_pattern_masked, make_sparsity_pattern, bind.
  rewrite Hr, Hc, Hl, N.eqb_refl, Nat.eqb_refl, (check_mask_rows_ok _ _ Hrows).
  eexists; eexists; split; [reflexivity|]; split; [reflexivity|].
  destruct (adds_only_fold (active_cells dof)
              (fun cell => masked_cell_block dof (dof_mask (fe dof) mask) cell) _
              (fun cell => masked_cell_block_adds dof (dof_mask (fe dof) mask) cell) sp)
    as (_ & _ & ins1 & E1 & M1).
  destruct (make_sparsity_pattern_adds dof sp) as (_ & _ & ins2 & E2 & M2).
  exists ins1, ins2; split; [exact E1|]; split; [exact E2|].
  intros p Hp; apply M1 in Hp; apply M2.
  destruct Hp as (cell & Hcell & i & j & Hi & Hj & _ & ->).
  exists cell; split; auto; exists i, j; auto.
Qed.

End SparsityProofs.

Module FluxProofs.
Import Flux.

Definition fid (t : nat * nat * nat) : nat := fst (fst t).

Lemma cross_block_adds (dof : DoFHandler) (this other : nat) :
  adds_only (cross_block dof this other)
    (fun p => exists i j, i < dofs_per_cell (fe dof) /\ j < dofs_per_cell (fe dof) /\
       (p = (dof_on dof this i, dof_on dof other j) \/
        p = (dof_on dof other i, dof_on dof this j))).
Proof.
  unfold cross_block.
  eapply adds_only_ext.
  - apply adds_only_for_range; intros i Hi.
    apply adds_only_for_range; intros j Hj.
    apply (adds_only_comp (add (dof_on dof this i) (dof_on dof other j))
                          (add (dof_on dof other i) (dof_on dof this j)));
      apply adds_only_add.
  - intro p; split.
    + intros (i & Hi & j & Hj & H); eauto 7.
    + intros (i & j & Hi & Hj & H); eauto 7.
Qed.

Section Traversal.

Variable m : Mesh.
Let dof := dofh m.
Let dpc := dofs_per_cell (fe (dofh m)).

(** The invariant of the cell loop: the flagged faces are the faces logged,
    each logged once; the logged faces are the interior faces [S] of the slots
    visited so far; each log entry is an interior face of an active cell and
    its neighbor; and its two cross products are in the pattern. *)
Definition Inv (st : State) (S : list nat) : Prop :=
  NoDup (map fid (coupled st)) /\
  (forall x, In x (user_flags st) <-> In x (map fid (coupled st))) /\
  (forall x, In x (map fid (coupled st)) <-> In x S) /\
  (forall fc c o, In (fc, c, o) (coupled st) ->
     In c (active_cells (dofh m)) /\
     exists f, f < faces_per_cell (dim m) /\ at_boundary m c f = false /\
               face m c f = fc /\ neighbor m c f = o) /\
  (forall fc c o, In (fc, c, o) (coupled st) -> forall i j, i < dpc -> j < dpc ->
     In (dof_on (dofh m) c i, dof_on (dofh m) o j) (entries (sparsity st)) /\
     In (dof_on (dofh m) o j, dof_on (dofh m) c i) (entries (sparsity st))).

Lemma Inv_map_sparsity (g : SparsityPattern -> SparsityPattern) P st S :
  adds_only g P -> Inv st S -> Inv (map_sparsity g st) S.
Proof.
  intros Hg (H1 & H2 & H3 & H4 & H5).
  split; [exact H1|]; split; [exact H2|]; split; [exact H3|]; split; [exact H4|].
  intros fc c o Hin i j Hi Hj; destruct (H5 fc c o Hin i j Hi Hj) as [A B]; simpl.
  split; apply (adds_only_keeps g P); assumption.
Qed.

Lemma user_flag_set_iff st x : user_flag_set st x = true <-> In x (user_flags st).
Proof.
  unfold user_flag_set; rewrite existsb_exists; split.
  - intros (y & Hy & E); apply Nat.eqb_eq in E; subst; exact Hy.
  - intro H; exists x; split; [exact H | apply Nat.eqb_refl].
Qed.

Hypothesis Huni : uniform_mesh m.

Lemma flux_face_Inv (c f : nat) (st : State) (S : list nat) :
  In c (active_cells (dofh m)) -> f < faces_per_cell (dim m) ->
  Inv st S ->
  Inv (flux_face m c f st) (S ++ (if at_boundary m c f then [] else [face m c f])).
Proof.
  intros Hc Hf HI.
  pose proof HI as (H1 & H2 & H3 & H4 & H5).
  unfold flux_face.
  destruct (user_flag_set st (face m c f)) eqn:Eflag.
  - (* the face was flagged: nothing happens, and it is already logged *)
    apply user_flag_set_iff in Eflag.
    split; [exact H1|]; split; [exact H2|]; split; [|split; [exact H4 | exact H5]].
    intro x; split.
    + intro Hx; apply H3 in Hx; apply in_or_app; auto.
    + intro Hx; apply in_app_iff in Hx; destruct Hx as [Hx|Hx]; [apply H3; exact Hx|].
      destruct (at_boundary m c f); [destruct Hx|].
      destruct Hx as [<-|[]]; apply H2; exact Eflag.
  - destruct (at_boundary m c f) eqn:Eb.
    + rewrite app_nil_r; exact HI.
    + destruct (Huni c f Hc Hf Eb) as (Hlev & Hch & Hface).
      rewrite Hlev, Nat.ltb_irrefl, Hch.
      unfold couple; rewrite Hface.
      pose proof (Inv_map_sparsity _ _ st S
                    (cross_block_adds (dofh m) c (neighbor m c f)) HI)
        as (G1 & G2 & G3 & G4 & G5).
      assert (Hnew : ~ In (face m c f) (map fid (coupled st))).
      { intro Hin; apply H2, user_flag_set_iff in Hin; congruence. }
      split; [|split; [|split; [|split]]]; simpl.
      * constructor; auto.
      * intro x; split.
        -- intros [<-|Hx]; [left; reflexivity | right; apply H2; exact Hx].
        -- intros [<-|Hx]; [left; reflexivity | right; apply H2; exact Hx].
      * intro x; split.
        -- intros [<-|Hx]; apply in_app_iff;
             [right; left; reflexivity | left; apply H3; exact Hx].
        -- intro Hx; apply in_app_iff in Hx; destruct Hx as [Hx|[<-|[]]];
             [right; apply H3; exact Hx | left; reflexivity].
      * intros fc c' o [E|Hx].
        -- injection E as <- <- <-; split; [exact Hc | exists f; auto].
        -- eapply H4; eauto.
      * intros fc c' o [E|Hx] i j Hi Hj.
        -- injection E as <- <- <-; split;
             apply (adds_only_new _ _ _ _ (cross_block_adds (dofh m) c (neighbor m c f)));
             [exists i, j | exists j, i]; auto.
        -- eapply G5; eauto.
Qed.

Lemma flux_faces_Inv (c : nat) (l : list nat) (st : State) (S : list nat) :
  In c (active_cells (dofh m)) -> (forall f, In f l -> f < faces_per_cell (dim m)) ->
  Inv st S ->
  Inv (fold_left (fun acc f => flux_face m c f acc) l st)
      (S ++ map (face m c) (filter (fun f => negb (at_boundary m c f)) l)).
Proof.
  revert st S; induction l as [|f l IH]; intros st S Hc Hl HI; simpl.
  - rewrite app_nil_r; exact HI.
  - pose proof (flux_face_Inv c f st S Hc (Hl f (or_introl eq_refl)) HI) as HI'.
    specialize (IH _ _ Hc (fun g Hg => Hl g (or_intror Hg)) HI').
    destruct (at_boundary m c f); simpl in *.
    + rewrite app_nil_r in IH; exact IH.
    + rewrite <- app_assoc in IH; exact IH.
Qed.

Lemma flux_cells_Inv (l : list nat) (st : State) (S : list nat) :
  (forall c, In c l -> In c (active_cells (dofh m))) ->
  Inv st S ->
  Inv (fold_left (flux_cell m) l st) (S ++ flat_map (cell_interior_faces m) l).
Proof.
  revert st S; induction l as [|c l IH]; intros st S Hl HI; simpl.
  - rewrite app_nil_r; exact HI.
  - assert (Hc : In c (active_cells (dofh m))) by (apply Hl; left; reflexivity).
    assert (HI1 : Inv (flux_cell m st c) (S ++ cell_interior_faces m c)).
    { unfold flux_cell, for_range, cell_interior_faces.
      apply flux_faces_Inv; [exact Hc | intros f Hf; apply in_seq in Hf; lia |].
      eapply Inv_map_sparsity; [apply SparsityProofs.cell_block_adds | exact HI]. }
    specialize (IH _ _ (fun c' Hc' => Hl c' (or_intror Hc')) HI1).
    rewrite <- app_assoc in IH; exact IH.
Qed.

Lemma flux_traversal_Inv (sp : SparsityPattern) :
  Inv (flux_traversal m sp) (interior_face_slots m).
Proof.
  unfold flux_traversal, interior_face_slots.
  change (flat_map (cell_interior_faces m) (active_cells (dofh m)))
    with ([] ++ flat_map (cell_interior_faces m) (active_cells (dofh m))).
  apply flux_cells_Inv; [auto|].
  split; [constructor|]; split; [simpl; tauto|]; split; [simpl; tauto|].
  split; intros; simpl in *; contradiction.
Qed.

End Traversal.

Lemma NoDup_same_length {A : Type} (l1 l2 : list A) :
  NoDup l1 -> NoDup l2 -> (forall x, In x l1 <-> In x l2) -> length l1 = length l2.
Proof.
  intros N1 N2 H.
  apply Nat.le_antisymm; apply NoDup_incl_length; auto; intros x Hx; apply H; auto.
Qed.

(** On a uniform mesh the coupled faces are the interior faces, each once. *)
Lemma uniform_face_visit_once (m : Mesh) (sp : SparsityPattern) :
  uniform_mesh m ->
  let st := flux_traversal m sp in
  NoDup (map fid (coupled st)) /\
  (forall x, In x (map fid (coupled st)) <-> In x (interior_face_slots m)) /\
  length (coupled st) = n_interior_faces m /\
  (forall fc c o, In (fc, c, o) (coupled st) ->
     In c (active_cells (dofh m)) /\
     exists f, f < faces_per_cell (dim m) /\ at_boundary m c f = false /\
               face m c f = fc /\ neighbor m c f = o) /\
  (forall fc c o, In (fc, c, o) (coupled st) ->
     forall i j, i < dofs_per_cell (fe (dofh m)) -> j < dofs_per_cell (fe (dofh m)) ->
     In (dof_on (dofh m) c i, dof_on (dofh m) o j) (entries (sparsity st)) /\
     In (dof_on (dofh m) o j, dof_on (dofh m) c i) (entries (sparsity st))).
Proof.
  intros Huni st.
  destruct (flux_traversal_Inv m Huni sp) as (H1 & H2 & H3 & H4 & H5).
  split; [exact H1|]; split; [exact H3|]; split; [|split; [exact H4 | exact H5]].
  unfold n_interior_faces.
  rewrite <- (length_map fid).
  apply NoDup_same_length; [exact H1 | apply NoDup_nodup |].
  intro x; rewrite nodup_In; apply H3.
Qed.

End FluxProofs.

Module FluxMeshProofs.
Import Flux.

Lemma interior_face_b (m : Mesh) c f :
  existsb (Nat.eqb c) (active_cells (dofh m)) && Nat.ltb f (faces_per_cell (dim m))
    && negb (at_boundary m c f) = true -> interior_face m c f.
Proof.
  intro H; apply andb_true_iff in H as [H H3]; apply andb_true_iff in H as [H1 H2].
  apply existsb_exists in H1 as (x & Hx & E); apply Nat.eqb_eq in E; subst x.
  apply Nat.ltb_lt in H2; apply negb_true_iff in H3.
  split; [exact Hx | split; assumption].
Qed.

Lemma leaf_face_slots_iff (m : Mesh) x :
  In x (leaf_face_slots m) <-> exists c f, leaf_face m c f /\ face m c f = x.
Proof.
  unfold leaf_face_slots, leaf_face, interior_face; rewrite in_flat_map; split.
  - intros (c & Hc & Hx); apply in_map_iff in Hx as (f & <- & Hf).
    apply filter_In in Hf as (Hf & Hb); apply in_seq in Hf.
    apply andb_true_iff in Hb as (Hb1 & Hb2); apply negb_true_iff in Hb1, Hb2.
    exists c, f; repeat split; auto; lia.
  - intros (c & f & ((Hc & Hf & Hb) & Hch) & <-); exists c; split; [exact Hc|].
    apply in_map, filter_In; split; [apply in_seq; lia|].
    rewrite Hb, Hch; reflexivity.
Qed.

(** The faces logged by the traversal. *)
Definition logged (st : State) : list nat := map FluxProofs.fid (coupled st).

Lemma logged_entry st x : In x (logged st) -> exists c o, In (x, c, o) (coupled st).
Proof.
  unfold logged; intro H; apply in_map_iff in H as ([[fc c] o] & E & Hin).
  unfold FluxProofs.fid in E; simpl in E; subst; exists c, o; exact Hin.
Qed.

(** The log only grows. *)
Definition grows (st st' : State) : Prop := exists l, coupled st' = l ++ coupled st.

Lemma grows_refl st : grows st st.
Proof. exists []; reflexivity. Qed.

Lemma grows_trans s1 s2 s3 : grows s1 s2 -> grows s2 s3 -> grows s1 s3.
Proof.
  intros [l1 E1] [l2 E2]; exists (l2 ++ l1); rewrite E2, E1, app_assoc; reflexivity.
Qed.

Lemma grows_logged st st' x : grows st st' -> In x (logged st) -> In x (logged st').
Proof.
  intros [l E] H; unfold logged in *; rewrite E, map_app; apply in_or_app; right; exact H.
Qed.

Section GeneralTraversal.

Variable m : Mesh.
Hypothesis Hwf : wf_mesh m.

(** A log entry made by the same-level branch from face [f] of [c]. *)
Definition same_origin (c o fc : nat) : Prop :=
  exists f, leaf_face m c f /\ level m (neighbor m c f) = level m c /\
            neighbor m c f = o /\ face m c f = fc.

(** A log entry made by the refined-neighbor branch from face [f] of [c], for
    the child [sub_nr]. *)
Definition hang_origin (c f sub_nr o fc : nat) : Prop :=
  refined_face m c f /\ sub_nr < subfaces_per_face (dim m) /\
  o = sub_neighbor m c f sub_nr /\ fc = face m o (neighbor_of_neighbor m c f).

(** The invariant of the traversal, given the set [D] of (cell, face, child)
    triples whose subface loop may have run: the logged faces are distinct and
    are the flagged faces; each entry comes from one of the two coupling
    branches; and its two cross products are in the pattern. *)
Definition K (st : State) (D : nat -> nat -> nat -> Prop) : Prop :=
  NoDup (logged st) /\
  (forall x, In x (user_flags st) <-> In x (logged st)) /\
  (forall fc c o, In (fc, c, o) (coupled st) ->
     same_origin c o fc \/ exists f k, D c f k /\ hang_origin c f k o fc) /\
  (forall fc c o, In (fc, c, o) (coupled st) ->
     forall i j, i < dofs_per_cell (fe (dofh m)) -> j < dofs_per_cell (fe (dofh m)) ->
     In (dof_on (dofh m) c i, dof_on (dofh m) o j) (entries (sparsity st)) /\
     In (dof_on (dofh m) o j, dof_on (dofh m) c i) (entries (sparsity st))).

(** What the loop over the faces of [c] leaves logged for face [f]. *)
Definition complete (st : State) (c f : nat) : Prop :=
  (leaf_face m c f -> level m (neighbor m c f) = level m c ->
     In (face m c f) (logged st)) /\
  (refined_face m c f -> forall k, k < subfaces_per_face (dim m) ->
     In (face m (sub_neighbor m c f k) (neighbor_of_neighbor m c f)) (logged st)).

Lemma complete_grows st st' c f : grows st st' -> complete st c f -> complete st' c f.
Proof.
  intros G [H1 H2]; split.
  - intros A B; apply (grows_logged st); auto.
  - intros A k Hk; apply (grows_logged st); auto.
Qed.

Lemma K_mono st (D D' : nat -> nat -> nat -> Prop) :
  (forall c f k, D c f k -> D' c f k) -> K st D -> K st D'.
Proof.
  intros HD (H1 & H2 & H3 & H4).
  split; [exact H1|]; split; [exact H2|]; split; [|exact H4].
  intros fc c o Hin; destruct (H3 fc c o Hin) as [Hs|(f & k & Hd & Hh)]; [left; exact Hs|].
  right; exists f, k; split; [apply HD; exact Hd | exact Hh].
Qed.

Lemma K_map_sparsity (g : SparsityPattern -> SparsityPattern) P st D :
  adds_only g P -> K st D -> K (map_sparsity g st) D.
Proof.
  intros Hg (H1 & H2 & H3 & H4).
  split; [exact H1|]; split; [exact H2|]; split; [exact H3|].
  intros fc c o Hin i j Hi Hj; destruct (H4 fc c o Hin i j Hi Hj) as [A B]; simpl.
  split; apply (adds_only_keeps g P); assumption.
Qed.

Lemma refined_level c f : refined_face m c f -> level m (neighbor m c f) = level m c.
Proof.
  intros [Hi Hch].
  pose proof (@wf_neighbor_level m Hwf c f Hi) as Hle.
  destruct (Nat.lt_ge_cases (level m (neighbor m c f)) (level m c)) as [Hlt|Hge]; [|lia].
  destruct (@wf_coarser m Hwf c f Hi Hlt) as (g & k & [[Hnb _] _] & _).
  rewrite (@wf_active_leaf m Hwf _ Hnb) in Hch; discriminate.
Qed.

(** Each entry couples [c] with an active cell [o] across one of [o]'s faces. *)
Lemma entry_face st D fc c o : K st D -> In (fc, c, o) (coupled st) ->
  exists g, interior_face m o g /\ neighbor m o g = c /\ face m o g = fc /\
            In c (active_cells (dofh m)) /\ level m c <= level m o.
Proof.
  intros (_ & _ & H3 & _) Hin.
  destruct (H3 _ _ _ Hin) as [(f & Hl & Heq & Hn & Hf)|(f & k & _ & Hr & Hk & Ho & Hf)].
  - destruct (@wf_same_level m Hwf c f Hl Heq) as (Hi & Hnn & Hface).
    exists (neighbor_of_neighbor m c f); subst o.
    split; [exact Hi|]; split; [exact Hnn|]; split; [rewrite Hface; exact Hf|].
    split; [exact (proj1 (proj1 Hl)) | lia].
  - destruct (@wf_refined m Hwf c f k Hr Hk) as (Hi & Hnn & Hlt).
    exists (neighbor_of_neighbor m c f); subst o.
    split; [exact Hi|]; split; [exact Hnn|]; split; [symmetry; exact Hf|].
    split; [exact (proj1 (proj1 Hr)) | lia].
Qed.

(** A face with a refined neighbor is never logged (nor flagged). *)
Lemma refined_face_unlogged st D c f : K st D -> refined_face m c f ->
  ~ In (face m c f) (logged st).
Proof.
  intros HK Hr Hin; apply logged_entry in Hin as (c' & o & Hin).
  destruct (entry_face st D _ _ _ HK Hin) as (g & Hi & Hn & Hf & Hc' & _).
  destruct Hr as [Hic Hch].
  destruct (@wf_face_objects m Hwf o g c f Hi Hic Hf) as [[-> ->]|(_ & En & _)].
  - rewrite Hn, (@wf_active_leaf m Hwf c' Hc') in Hch; discriminate.
  - rewrite En, (@wf_active_leaf m Hwf o (proj1 Hi)) in Hch; discriminate.
Qed.

Lemma couple_K st D (Dn : nat -> nat -> nat -> Prop) c o nf :
  K st D -> ~ In (face m o nf) (logged st) ->
  (same_origin c o (face m o nf) \/ exists f k, Dn c f k /\ hang_origin c f k o (face m o nf)) ->
  (forall c f k, D c f k -> Dn c f k) ->
  K (couple m c o nf st) Dn.
Proof.
  intros HK Hnew Horig HD.
  pose proof (K_map_sparsity _ _ st D (FluxProofs.cross_block_adds (dofh m) c o) HK)
    as (_ & _ & _ & G4).
  destruct HK as (H1 & H2 & H3 & H4).
  unfold couple, logged in *; split; [|split; [|split]]; simpl.
  - constructor; assumption.
  - intro x; split.
    + intros [<-|Hx]; [left; reflexivity | right; apply H2; exact Hx].
    + intros [<-|Hx]; [left; reflexivity | right; apply H2; exact Hx].
  - intros fc c' o' [E|Hx].
    + injection E as <- <- <-; exact Horig.
    + destruct (H3 _ _ _ Hx) as [Hs|(f & k & Hd & Hh)]; [left; exact Hs|].
      right; exists f, k; split; [apply HD; exact Hd | exact Hh].
  - intros fc c' o' [E|Hx] i j Hi Hj.
    + injection E as <- <- <-; split;
        apply (adds_only_new _ _ _ _ (FluxProofs.cross_block_adds (dofh m) c o));
        [exists i, j | exists j, i]; auto.
    + eapply G4; eauto.
Qed.

Lemma couple_grows c o nf st : grows st (couple m c o nf st).
Proof. exists [(face m o nf, c, o)]; reflexivity. Qed.

Lemma couple_logged c o nf st : In (face m o nf) (logged (couple m c o nf st)).
Proof. left; reflexivity. Qed.

(** The same-level branch logs a face not logged before. *)
Lemma couple_same st D c f :
  leaf_face m c f -> level m (neighbor m c f) = level m c ->
  user_flag_set st (face m c f) = false -> K st D ->
  K (couple m c (neighbor m c f) (neighbor_of_neighbor m c f) st) D.
Proof.
  intros Hl Heq Hflag HK.
  destruct (@wf_same_level m Hwf c f Hl Heq) as (_ & _ & Hface).
  apply (couple_K st D); [exact HK | | | auto].
  - rewrite Hface; intro Hin; destruct HK as (_ & H2 & _).
    apply H2, FluxProofs.user_flag_set_iff in Hin; congruence.
  - left; exists f; rewrite Hface; auto.
Qed.

(** The refined-neighbor branch logs, for a child not coupled before, a face
    not logged before. *)
Lemma couple_hang st D c f k :
  refined_face m c f -> k < subfaces_per_face (dim m) -> ~ D c f k -> K st D ->
  K (couple m c (sub_neighbor m c f k) (neighbor_of_neighbor m c f) st)
    (fun c' f' k' => D c' f' k' \/ (c' = c /\ f' = f /\ k' = k)).
Proof.
  intros Hr Hk Hnd HK.
  destruct (@wf_refined m Hwf c f k Hr Hk) as (Hsi & Hsn & Hslev).
  apply (couple_K st D); [exact HK | | | intros; left; assumption].
  - intro Hin; apply logged_entry in Hin as (c' & o' & Hin).
    destruct HK as (_ & _ & H3 & _).
    destruct (H3 _ _ _ Hin)
      as [(f' & Hl' & Heq' & Hn' & Hf')|(f' & k' & Hd & Hr' & Hk' & Ho' & Hf')].
    + destruct Hl' as [Hi' _].
      destruct (@wf_face_objects m Hwf c' f' _ _ Hi' Hsi Hf') as [[Ec Ef]|(_ & En' & El)].
      * subst c' f'; rewrite Hsn in Heq'; lia.
      * rewrite Hsn in En'; subst c'; lia.
    + subst o'.
      destruct (@wf_subfaces m Hwf c f k c' f' k' Hr Hr' Hk Hk' Hf') as (-> & -> & ->).
      contradiction.
  - right; exists f, k; split; [right; auto|].
    split; [exact Hr|]; split; [exact Hk|]; split; reflexivity.
Qed.

Lemma subfaces_K c f (l : list nat) : forall st D,
  refined_face m c f -> (forall k, In k l -> k < subfaces_per_face (dim m)) -> NoDup l ->
  (forall k, In k l -> ~ D c f k) -> K st D ->
  let st' := fold_left (fun acc k =>
               couple m c (sub_neighbor m c f k) (neighbor_of_neighbor m c f) acc) l st in
  K st' (fun c' f' k' => D c' f' k' \/ (c' = c /\ f' = f /\ In k' l)) /\ grows st st' /\
  (forall k, In k l ->
     In (face m (sub_neighbor m c f k) (neighbor_of_neighbor m c f)) (logged st')).
Proof.
  induction l as [|k l IH]; intros st D Hr Hl Hnd Hfresh HK; cbn [fold_left].
  - split; [eapply K_mono; [|exact HK]; intros; left; assumption|].
    split; [apply grows_refl | intros _ []].
  - inversion Hnd as [|? ? Hkl Hnd']; subst.
    pose proof (couple_hang st D c f k Hr (Hl k (or_introl eq_refl))
                  (Hfresh k (or_introl eq_refl)) HK) as HK1.
    assert (Hfresh1 : forall k', In k' l ->
              ~ (D c f k' \/ (c = c /\ f = f /\ k' = k))).
    { intros k' Hk' [Hd|(_ & _ & E)]; [exact (Hfresh k' (or_intror Hk') Hd)|].
      subst; contradiction. }
    destruct (IH _ _ Hr (fun k' H => Hl k' (or_intror H)) Hnd' Hfresh1 HK1)
      as (HK2 & G2 & C2).
    split; [|split].
    + eapply K_mono; [|exact HK2].
      intros c' f' k' [[Hd|(E1 & E2 & E3)]|(E1 & E2 & E3)]; [left; exact Hd| |].
      * right; split; [exact E1|]; split; [exact E2|]; left; symmetry; exact E3.
      * right; split; [exact E1|]; split; [exact E2|]; right; exact E3.
    + eapply grows_trans; [apply couple_grows | exact G2].
    + intros k' [<-|Hk']; [|apply C2; exact Hk'].
      eapply grows_logged; [exact G2 | apply couple_logged].
Qed.

(** One pass of the face loop body on face [f] of the active cell [c]. *)
Lemma face_K c f st D :
  In c (active_cells (dofh m)) -> f < faces_per_cell (dim m) ->
  (forall k, ~ D c f k) -> K st D ->
  K (flux_face m c f st)
    (fun c' f' k' => D c' f' k' \/ (c' = c /\ f' = f /\ k' < subfaces_per_face (dim m))) /\
  grows st (flux_face m c f st) /\ complete (flux_face m c f st) c f.
Proof.
  intros Hc Hf Hfresh HK.
  assert (HKw : K st (fun c' f' k' =>
                 D c' f' k' \/ (c' = c /\ f' = f /\ k' < subfaces_per_face (dim m))))
    by (eapply K_mono; [|exact HK]; intros; left; assumption).
  unfold flux_face.
  destruct (user_flag_set st (face m c f)) eqn:Eflag.
  - split; [exact HKw|]; split; [apply grows_refl|]; split.
    + intros _ _; destruct HK as (_ & H2 & _).
      apply H2, FluxProofs.user_flag_set_iff; exact Eflag.
    + intros Hr; exfalso; apply (refined_face_unlogged st D c f HK Hr).
      destruct HK as (_ & H2 & _); apply H2, FluxProofs.user_flag_set_iff; exact Eflag.
  - destruct (at_boundary m c f) eqn:Eb.
    + split; [exact HKw|]; split; [apply grows_refl|].
      split; intros [[_ [_ Hb]] _]; congruence.
    + destruct (Nat.ltb (level m (neighbor m c f)) (level m c)) eqn:El.
      * split; [exact HKw|]; split; [apply grows_refl|]; split.
        -- intros _ Heq; apply Nat.ltb_lt in El; lia.
        -- intros Hr; rewrite (refined_level c f Hr), Nat.ltb_irrefl in El; discriminate.
      * apply Nat.ltb_ge in El.
        assert (Hi : interior_face m c f) by (split; [exact Hc | split; assumption]).
        assert (Heq : level m (neighbor m c f) = level m c)
          by (pose proof (@wf_neighbor_level m Hwf c f Hi); lia).
        cbv zeta.
        destruct (has_children m (neighbor m c f)) eqn:Ech.
        -- assert (Hr : refined_face m c f) by (split; assumption).
           destruct (subfaces_K c f (seq 0 (subfaces_per_face (dim m))) st D Hr)
             as (HK2 & G2 & C2).
           { intros k Hk; apply in_seq in Hk; lia. }
           { apply seq_NoDup. }
           { intros k _; apply Hfresh. }
           { exact HK. }
           unfold for_range.
           split; [|split; [exact G2|]].
           ++ eapply K_mono; [|exact HK2].
              intros c' f' k' [Hd|(E1 & E2 & E3)]; [left; exact Hd|].
              right; apply in_seq in E3; split; [exact E1|]; split; [exact E2|]; lia.
           ++ split; [intros [_ Hch]; congruence|].
              intros _ k Hk; apply C2; apply in_seq; lia.
        -- assert (Hl : leaf_face m c f) by (split; [exact Hi | exact Ech]).
           pose proof (couple_same st D c f Hl Heq Eflag HK) as HK2.
           split; [eapply K_mono; [|exact HK2]; intros; left; assumption|].
           split; [apply couple_grows|]; split.
           ++ intros _ _.
              destruct (@wf_same_level m Hwf c f Hl Heq) as (_ & _ & Hface).
              rewrite <- Hface; apply couple_logged.
           ++ intros [_ Hch]; congruence.
Qed.

Lemma faces_K c (l : list nat) : forall st D,
  In c (active_cells (dofh m)) -> (forall f, In f l -> f < faces_per_cell (dim m)) ->
  NoDup l -> (forall f k, In f l -> ~ D c f k) -> K st D ->
  let st' := fold_left (fun acc f => flux_face m c f acc) l st in
  K st' (fun c' f' k' => D c' f' k' \/
                         (c' = c /\ In f' l /\ k' < subfaces_per_face (dim m))) /\
  grows st st' /\ (forall f, In f l -> complete st' c f).
Proof.
  induction l as [|f l IH]; intros st D Hc Hl Hnd Hfresh HK; cbn [fold_left].
  - split; [eapply K_mono; [|exact HK]; intros; left; assumption|].
    split; [apply grows_refl | intros _ []].
  - inversion Hnd as [|? ? Hfl Hnd']; subst.
    destruct (face_K c f st D Hc (Hl f (or_introl eq_refl))
                (fun k => Hfresh f k (or_introl eq_refl)) HK) as (HK1 & G1 & C1).
    assert (Hfresh1 : forall f' k, In f' l ->
              ~ (D c f' k \/ (c = c /\ f' = f /\ k < subfaces_per_face (dim m)))).
    { intros f' k Hf' [Hd|(_ & E & _)]; [exact (Hfresh f' k (or_intror Hf') Hd)|].
      subst; contradiction. }
    destruct (IH _ _ Hc (fun f' H => Hl f' (or_intror H)) Hnd' Hfresh1 HK1)
      as (HK2 & G2 & C2).
    split; [|split].
    + eapply K_mono; [|exact HK2].
      intros c' f' k' [[Hd|(E1 & E2 & E3)]|(E1 & E2 & E3)]; [left; exact Hd| |].
      * right; split; [exact E1|]; split; [left; symmetry; exact E2 | exact E3].
      * right; split; [exact E1|]; split; [right; exact E2 | exact E3].
    + eapply grows_trans; [exact G1 | exact G2].
    + intros f' [<-|Hf']; [|apply C2; exact Hf'].
      eapply complete_grows; [exact G2 | exact C1].
Qed.

Lemma cells_K (l : list nat) : forall st D,
  (forall c, In c l -> In c (active_cells (dofh m))) -> NoDup l ->
  (forall c f k, In c l -> ~ D c f k) -> K st D ->
  let st' := fold_left (flux_cell m) l st in
  K st' (fun c' f' k' => D c' f' k' \/ In c' l) /\ grows st st' /\
  (forall c f, In c l -> f < faces_per_cell (dim m) -> complete st' c f).
Proof.
  induction l as [|c l IH]; intros st D Hl Hnd Hfresh HK; cbn [fold_left].
  - split; [eapply K_mono; [|exact HK]; intros; left; assumption|].
    split; [apply grows_refl | intros _ _ []].
  - inversion Hnd as [|? ? Hcl Hnd']; subst.
    assert (Hc : In c (active_cells (dofh m))) by (apply Hl; left; reflexivity).
    pose proof (K_map_sparsity _ _ st D (SparsityProofs.cell_block_adds (dofh m) c) HK)
      as HK0.
    destruct (faces_K c (seq 0 (faces_per_cell (dim m)))
                (map_sparsity (Sparsity.cell_block (dofh m) c) st) D Hc) as (HK1 & G1 & C1).
    { intros f Hf; apply in_seq in Hf; lia. }
    { apply seq_NoDup. }
    { intros f k _; apply Hfresh; left; reflexivity. }
    { exact HK0. }
    change (fold_left (fun acc f => flux_face m c f acc) (seq 0 (faces_per_cell (dim m)))
              (map_sparsity (Sparsity.cell_block (dofh m) c) st))
      with (flux_cell m st c) in HK1, G1, C1.
    assert (Hfresh1 : forall c' f k, In c' l ->
              ~ (D c' f k \/ (c' = c /\ In f (seq 0 (faces_per_cell (dim m))) /\
                              k < subfaces_per_face (dim m)))).
    { intros c' f k Hc' [Hd|(E & _)]; [exact (Hfresh c' f k (or_intror Hc') Hd)|].
      subst; contradiction. }
    destruct (IH _ _ (fun c' H => Hl c' (or_intror H)) Hnd' Hfresh1 HK1)
      as (HK2 & G2 & C2).
    split; [|split].
    + eapply K_mono; [|exact HK2].
      intros c' f' k' [[Hd|(E1 & _)]|H]; [left; exact Hd | right; left; auto | right; right; exact H].
    + eapply grows_trans; [|exact G2]. exact G1.
    + intros c' f [<-|Hc'] Hf; [|apply C2; assumption].
      eapply complete_grows; [exact G2|]; apply C1; apply in_seq; lia.
Qed.

Lemma traversal_K sp :
  K (flux_traversal m sp) (fun c _ _ => In c (active_cells (dofh m))) /\
  (forall c f, In c (active_cells (dofh m)) -> f < faces_per_cell (dim m) ->
     complete (flux_traversal m sp) c f).
Proof.
  unfold flux_traversal.
  destruct (cells_K (active_cells (dofh m)) {| user_flags := []; sparsity := sp; coupled := [] |}
              (fun _ _ _ => False)) as (HK & _ & C).
  - auto.
  - apply (@wf_active_nodup m Hwf).
  - auto.
  - split; [constructor|]; split; [simpl; tauto|]; split; intros; simpl in *; contradiction.
  - split; [eapply K_mono; [|exact HK]; intros c f k [[]|H]; exact H | exact C].
Qed.

End GeneralTraversal.

(** Claim C1: [make_flux_sparsity_pattern] clears the face flags, skips a face
    already flagged, skips a face whose neighbor is coarser, couples a cell
    with its same-level unrefined neighbor, or with each child of its refined
    neighbor on the face, and couples each pair in both directions over the
    full cross product of local DoFs. On any mesh satisfying [wf_mesh],
    hanging nodes included, every face between two active cells is coupled
    exactly once: the coupled faces are pairwise distinct, they are exactly
    those faces, and their number is the number of those faces; each coupling
    goes from a cell to its same-level neighbor or to a finer child of its
    refined neighbor, never to a coarser cell. On a uniform mesh these are the
    interior faces, so their number is the number of interior faces. *)
Theorem flux_sparsity_face_visit_once (m : Mesh) (sp : SparsityPattern) :
  wf_mesh m ->
  let st := flux_traversal m sp in
  NoDup (map FluxProofs.fid (coupled st)) /\
  (forall x, In x (map FluxProofs.fid (coupled st)) <-> In x (leaf_face_slots m)) /\
  length (coupled st) = n_leaf_faces m /\
  (forall fc c o, In (fc, c, o) (coupled st) ->
     (exists f, leaf_face m c f /\ level m o = level m c /\
                neighbor m c f = o /\ face m c f = fc) \/
     (exists f sub_nr, refined_face m c f /\ sub_nr < subfaces_per_face (dim m) /\
                o = sub_neighbor m c f sub_nr /\ level m c < level m o /\
                face m o (neighbor_of_neighbor m c f) = fc)) /\
  (forall fc c o, In (fc, c, o) (coupled st) ->
     forall i j, i < dofs_per_cell (fe (dofh m)) -> j < dofs_per_cell (fe (dofh m)) ->
     In (dof_on (dofh m) c i, dof_on (dofh m) o j) (entries (sparsity st)) /\
     In (dof_on (dofh m) o j, dof_on (dofh m) c i) (entries (sparsity st))) /\
  (uniform_mesh m -> length (coupled st) = n_interior_faces m).
Proof.
  intros Hwf st.
  destruct (traversal_K m Hwf sp) as (HK & Hcomp).
  pose proof HK as (H1 & _ & H3 & H4).
  assert (Hset : forall x, In x (logged st) <-> In x (leaf_face_slots m)).
  { intro x; rewrite leaf_face_slots_iff; split.
    - intro Hx; apply logged_entry in Hx as (c & o & Hin).
      destruct (entry_face m Hwf st _ _ _ _ HK Hin) as (g & Hi & Hn & Hfc & Hc & _).
      exists o, g; split; [split; [exact Hi|] | exact Hfc].
      rewrite Hn; apply (@wf_active_leaf m Hwf c Hc).
    - intros (c & f & Hl & <-).
      pose proof Hl as [[Hc [Hf Hb]] _].
      destruct (Nat.lt_ge_cases (level m (neighbor m c f)) (level m c)) as [Hlt|Hge].
      + destruct (@wf_coarser m Hwf c f (proj1 Hl) Hlt)
          as (g & k & Hr & _ & Hk & Hsub & Hnnb).
        pose proof Hr as [[Hnb [Hg _]] _].
        pose proof (proj2 (Hcomp _ _ Hnb Hg) Hr k Hk) as C.
        rewrite Hsub, Hnnb in C; exact C.
      + assert (Heq : level m (neighbor m c f) = level m c)
          by (pose proof (@wf_neighbor_level m Hwf c f (proj1 Hl)); lia).
        exact (proj1 (Hcomp c f Hc Hf) Hl Heq). }
  split; [exact H1|]; split; [exact Hset|]; split; [|split; [|split; [exact H4|]]].
  - unfold n_leaf_faces; rewrite <- (length_map FluxProofs.fid).
    apply FluxProofs.NoDup_same_length; [exact H1 | apply NoDup_nodup |].
    intro x; rewrite nodup_In; apply Hset.
  - intros fc c o Hin.
    destruct (H3 _ _ _ Hin) as [(f & Hl & Heq & Hn & Hf)|(f & k & _ & Hr & Hk & Ho & Hf)].
    + left; exists f; subst o; auto.
    + right; exists f, k.
      destruct (@wf_refined m Hwf c f k Hr Hk) as (_ & _ & Hlt); subst o.
      split; [exact Hr|]; split; [exact Hk|]; split; [reflexivity|].
      split; [exact Hlt | symmetry; exact Hf].
  - intro Huni; destruct (FluxProofs.uniform_face_visit_once m sp Huni) as (_ & _ & L & _).
    exact L.
Qed.

Ltac mesh_slot Hc f :=
  destruct Hc as [<-|[<-|[<-|[<-|[<-|[]]]]]]; (destruct f as [|[|[|[|f]]]]; [| | | | lia]).

(** On [hanging_mesh] the face of cell 0 towards the refined cell 1 is coupled
    through the two children 2 and 4 on it; the other faces between active
    cells are coupled from the same-level side. *)
Lemma flux_sparsity_face_visit_once_witness :
  wf_mesh Examples.hanging_mesh /\ n_leaf_faces Examples.hanging_mesh = 6 /\
  coupled (flux_traversal Examples.hanging_mesh (Examples.empty_pattern 11)) =
    [(41, 4, 5); (32, 3, 5); (23, 2, 4); (21, 2, 3); (40, 0, 4); (20, 0, 2)] /\
  let m := Examples.hanging_mesh in
  let st := flux_traversal m (Examples.empty_pattern 11) in
  NoDup (map FluxProofs.fid (coupled st)) /\
  (forall x, In x (map FluxProofs.fid (coupled st)) <-> In x (leaf_face_slots m)) /\
  length (coupled st) = n_leaf_faces m /\
  (forall fc c o, In (fc, c, o) (coupled st) ->
     (exists f, leaf_face m c f /\ level m o = level m c /\
                neighbor m c f = o /\ face m c f = fc) \/
     (exists f sub_nr, refined_face m c f /\ sub_nr < subfaces_per_face (dim m) /\
                o = sub_neighbor m c f sub_nr /\ level m c < level m o /\
                face m o (neighbor_of_neighbor m c f) = fc)) /\
  (forall fc c o, In (fc, c, o) (coupled st) ->
     forall i j, i < dofs_per_cell (fe (dofh m)) -> j < dofs_per_cell (fe (dofh m)) ->
     In (dof_on (dofh m) c i, dof_on (dofh m) o j) (entries (sparsity st)) /\
     In (dof_on (dofh m) o j, dof_on (dofh m) c i) (entries (sparsity st))) /\
  (uniform_mesh m -> length (coupled st) = n_interior_faces m).
Proof.
  assert (Hw : wf_mesh Examples.hanging_mesh).
  {
    constructor.
    - repeat constructor; cbn; intuition discriminate.
    - intros c Hc; cbn in Hc; destruct Hc as [<-|[<-|[<-|[<-|[<-|[]]]]]]; reflexivity.
    - intros c f [Hc [Hf Hb]]; cbn in Hc, Hf; mesh_slot Hc f;
        vm_compute in Hb |- *; first [discriminate | lia].
    - intros c f [[Hc [Hf Hb]] Hch] Heq; cbn in Hc, Hf; mesh_slot Hc f;
        vm_compute in Hb, Hch, Heq; try discriminate;
        (split; [apply interior_face_b; vm_compute; reflexivity
                | split; vm_compute; reflexivity]).
    - intros c f k [[Hc [Hf Hb]] Hch] Hk; cbn in Hc, Hf, Hk; mesh_slot Hc f;
        vm_compute in Hb, Hch; try discriminate;
        (destruct k as [|[|k]]; [| | lia]);
        (split; [apply interior_face_b; vm_compute; reflexivity
                | split; vm_compute; [reflexivity | lia]]).
    - intros c f [Hc [Hf Hb]] Hlt; cbn in Hc, Hf; mesh_slot Hc f;
        vm_compute in Hb, Hlt; try discriminate; try (exfalso; lia).
      + exists 1, 0.
        refine (conj (conj (interior_face_b Examples.hanging_mesh 0 1 eq_refl) eq_refl)
                     (conj eq_refl (conj _ (conj eq_refl eq_refl)))); vm_compute; lia.
      + exists 1, 1.
        refine (conj (conj (interior_face_b Examples.hanging_mesh 0 1 eq_refl) eq_refl)
                     (conj eq_refl (conj _ (conj eq_refl eq_refl)))); vm_compute; lia.
    - intros c f c' f' [Hc [Hf Hb]] [Hc' [Hf' Hb']] E; cbn in Hc, Hf, Hc', Hf';
        mesh_slot Hc f; vm_compute in Hb; try discriminate;
        mesh_slot Hc' f'; vm_compute in Hb'; try discriminate;
        vm_compute in E; try discriminate;
        first [left; split; reflexivity | right; vm_compute; repeat split].
    - intros c f k c' f' k' [[Hc [Hf Hb]] Hch] [[Hc' [Hf' Hb']] Hch'] Hk Hk' E;
        cbn in Hc, Hf, Hc', Hf', Hk, Hk';
        mesh_slot Hc f; vm_compute in Hb, Hch; try discriminate;
        mesh_slot Hc' f'; vm_compute in Hb', Hch'; try discriminate;
        (destruct k as [|[|k]]; [| | lia]); (destruct k' as [|[|k']]; [| | lia]);
        vm_compute in E; try discriminate; repeat split. }
  split; [exact Hw|]; split; [vm_compute; reflexivity|].
  split; [vm_compute; reflexivity|].
  exact (flux_sparsity_face_visit_once Examples.hanging_mesh (Examples.empty_pattern 11) Hw).
Defined.

End FluxMeshProofs.


(** * Witnesses *)

Module Witnesses.
Import Examples.

Lemma make_sparsity_pattern_symmetric_witness :
  exists sp', Sparsity.make_sparsity_pattern two_cells_dof (empty_pattern 6) = Ok sp' /\
    exists inserted, entries sp' = inserted ++ entries (empty_pattern 6) /\
      (forall i j, In (i, j) inserted <-> In (j, i) inserted).
Proof.
  eexists; split; [reflexivity|].
  apply (SparsityProofs.make_sparsity_pattern_symmetric two_cells_dof (empty_pattern 6)).
  reflexivity.
Defined.

Lemma masked_sparsity_subset_witness :
  let mask := [[true; false]; [false; true]] in
  length mask = n_components (fe two_comp_dof) /\
  exists sp1 sp2,
    Sparsity.make_sparsity_pattern_masked two_comp_dof mask (empty_pattern 4) = Ok sp1 /\
    Sparsity.make_sparsity_pattern two_comp_dof (empty_pattern 4) = Ok sp2 /\
    exists ins1 ins2, entries sp1 = ins1 ++ entries (empty_pattern 4) /\
      entries sp2 = ins2 ++ entries (empty_pattern 4) /\ incl ins1 ins2.
Proof.
  intro mask; split; [reflexivity|].
  apply (SparsityProofs.masked_sparsity_subset two_comp_dof mask (empty_pattern 4));
    [reflexivity | reflexivity | reflexivity | repeat constructor].
Defined.

End Witnesses.

Module Hanging2DProofs.
Import Hanging2D.

Lemma fold_push {A B : Type} (g : A -> B) (l : list A) (acc : list B) :
  fold_left (fun acc i => acc ++ [g i]) l acc = acc ++ map g l.
Proof.
  revert acc; induction l as [|a l IH]; intro acc; simpl.
  - rewrite app_nil_r; reflexivity.
  - rewrite IH, <- app_assoc; reflexivity.
Qed.

Lemma fold_rows {A B C : Type} (X : A -> C) (Y : A -> B -> C) (l : list A) (l2 : list B)
  (acc : list C) :
  fold_left (fun acc row => fold_left (fun acc2 i => acc2 ++ [Y row i]) l2 (acc ++ [X row])) l acc
  = acc ++ flat_map (fun row => X row :: map (Y row) l2) l.
Proof.
  revert acc; induction l as [|a l IH]; intro acc; simpl.
  - rewrite app_nil_r; reflexivity.
  - rewrite fold_push, IH, <- !app_assoc; reflexivity.
Qed.

Lemma dofs_on_mother_spec (h : Handler2) (l : nat) : dofs_on_mother h l = mother_spec h l.
Proof.
  unfold dofs_on_mother, mother_spec, for_range; simpl.
  rewrite !fold_push; simpl; rewrite <- !app_assoc; reflexivity.
Qed.

Lemma dofs_on_children_spec (h : Handler2) (l : nat) : dofs_on_children h l = children_spec h l.
Proof.
  unfold dofs_on_children, children_spec, for_range; simpl.
  rewrite !fold_push; simpl; rewrite <- !app_assoc; reflexivity.
Qed.

Lemma line_constraints_ok (h : Handler2) (l : nat) (cm : ConstraintMatrix) :
  2 * dofs_per_vertex (fe2 h) + dofs_per_line (fe2 h) = constraints_n (fe2 h) ->
  dofs_per_vertex (fe2 h) + 2 * dofs_per_line (fe2 h) = constraints_m (fe2 h) ->
  line_constraints h l cm =
    Ok (cm ++ expected_block (fe2 h) (mother_spec h l) (children_spec h l)).
Proof.
  intros Hn Hm; unfold line_constraints.
  rewrite Hn, Hm, !Nat.eqb_refl.
  unfold for_range; rewrite fold_rows, dofs_on_mother_spec, dofs_on_children_spec.
  reflexivity.
Qed.

Lemma line_constraints_err (h : Handler2) (l : nat) (cm : ConstraintMatrix) :
  ~ (2 * dofs_per_vertex (fe2 h) + dofs_per_line (fe2 h) = constraints_n (fe2 h) /\
     dofs_per_vertex (fe2 h) + 2 * dofs_per_line (fe2 h) = constraints_m (fe2 h)) ->
  exists e, line_constraints h l cm = Err e.
Proof.
  intro Hbad; unfold line_constraints.
  destruct (Nat.eqb (2 * dofs_per_vertex (fe2 h) + dofs_per_line (fe2 h)) (constraints_n (fe2 h))) eqn:E1;
    [|eexists; reflexivity].
  destruct (Nat.eqb (dofs_per_vertex (fe2 h) + 2 * dofs_per_line (fe2 h)) (constraints_m (fe2 h))) eqn:E2;
    [|eexists; reflexivity].
  apply Nat.eqb_eq in E1, E2; tauto.
Qed.

Lemma fold_bind_err {A B : Type} (g : A -> B -> result A) (l : list B) (e : exc) :
  fold_left (fun acc x => bind acc (fun a => g a x)) l (Err e) = Err e.
Proof. induction l as [|x l IH]; simpl; auto. Qed.

Lemma mark_inner_iff (h : Handler2) (cell : nat) (fs : list nat) (acc : list nat) (x : nat) :
  In x (fold_left (fun fl f =>
          if line_has_children h (cell_face h cell f) then cell_face h cell f :: fl else fl) fs acc)
  <-> In x acc \/ exists f, In f fs /\ cell_face h cell f = x /\
                           line_has_children h (cell_face h cell f) = true.
Proof.
  revert acc; induction fs as [|f fs IH]; intro acc; simpl.
  - split; [tauto | intros [H|(f & [] & _)]; exact H].
  - rewrite IH; destruct (line_has_children h (cell_face h cell f)) eqn:E; simpl.
    + split.
      * intros [[<-|H]|(g & Hg & H)]; [right; exists f; auto | left; auto | right; exists g; auto].
      * intros [H|(g & [<-|Hg] & H1 & H2)]; [left; right; auto | left; left; auto | right; exists g; auto].
    + split.
      * intros [H|(g & Hg & H)]; [left; auto | right; exists g; auto].
      * intros [H|(g & [<-|Hg] & H1 & H2)]; [left; auto | congruence | right; exists g; auto].
Qed.

Lemma mark_lines_iff (h : Handler2) (x : nat) :
  In x (mark_lines h) <-> line_marked h x.
Proof.
  unfold mark_lines, line_marked.
  assert (Hgen : forall cells acc,
    In x (fold_left (fun flags cell =>
            for_range (faces_per_cell 2) (fun f fl =>
              if line_has_children h (cell_face h cell f) then cell_face h cell f :: fl else fl)
              flags) cells acc)
    <-> In x acc \/ exists cell f, In cell cells /\ f < 4 /\ cell_face h cell f = x /\
                                  line_has_children h x = true).
  { induction cells as [|c cells IH]; intro acc; simpl.
    - split; [tauto | intros [H|(c & f & [] & _)]; exact H].
    - rewrite IH; unfold for_range; rewrite mark_inner_iff; unfold faces_per_cell; split.
      + intros [[H|(f & Hf & H1 & H2)]|(c' & f & Hc & Hf & H1 & H2)].
        * left; exact H.
        * right; exists c, f; apply in_seq in Hf; subst x; repeat split; auto; lia.
        * right; exists c', f; auto.
      + intros [H|(c' & f & [<-|Hc] & Hf & H1 & H2)].
        * left; left; exact H.
        * left; right; exists f; subst x; repeat split; auto; apply in_seq; simpl; lia.
        * right; exists c', f; auto. }
  rewrite Hgen; simpl; split; [intros [[]|H]; exact H | intro H; right; exact H].
Qed.

Lemma line_flag_set_iff (flags : list nat) (l : nat) :
  user_flag_set flags l = true <-> In l flags.
Proof.
  unfold user_flag_set; rewrite existsb_exists; split.
  - intros (y & Hy & E); apply Nat.eqb_eq in E; subst; exact Hy.
  - intro H; exists l; split; [exact H | apply Nat.eqb_refl].
Qed.

(** Claim C2: in the 2D hanging node constraints, the lines flagged are those
    faces of active cells that have children; for each flagged line the mother
    DoFs are the DoFs of its two vertices then of the line, the child DoFs are
    those of vertex 1 of child 0 then the line DoFs of child 0 and child 1, and
    one constraint line is added per child DoF [row], with the entry
    [fe.constraints()(row, i)] for mother DoF [i]; when the list lengths differ
    from the table's [n()] and [m()], a flagged line makes the operation fail. *)
Theorem hanging_node_constraints_2d (h : Handler2) (cm : ConstraintMatrix) :
  let fe := fe2 h in
  (forall l, user_flag_set (mark_lines h) l = true <-> line_marked h l) /\
  (forall l, length (mother_spec h l) = 2 * dofs_per_vertex fe + dofs_per_line fe /\
             length (children_spec h l) = dofs_per_vertex fe + 2 * dofs_per_line fe) /\
  (2 * dofs_per_vertex fe + dofs_per_line fe = constraints_n fe ->
   dofs_per_vertex fe + 2 * dofs_per_line fe = constraints_m fe ->
   make_hanging_node_constraints h cm =
     Ok (cm ++ flat_map (fun l => expected_block fe (mother_spec h l) (children_spec h l))
                        (filter (user_flag_set (mark_lines h)) (lines h)))) /\
  ((exists l, In l (lines h) /\ line_marked h l) ->
   ~ (2 * dofs_per_vertex fe + dofs_per_line fe = constraints_n fe /\
      dofs_per_vertex fe + 2 * dofs_per_line fe = constraints_m fe) ->
   exists e, make_hanging_node_constraints h cm = Err e).
Proof.
  cbv zeta.
  assert (Hflag : forall l, user_flag_set (mark_lines h) l = true <-> line_marked h l).
  { intro l; rewrite line_flag_set_iff; apply mark_lines_iff. }
  split; [exact Hflag|]; split.
  { intro l; unfold mother_spec, children_spec; rewrite !length_app, !length_map, !length_seq.
    split; lia. }
  split.
  - intros Hn Hm; unfold make_hanging_node_constraints.
    generalize cm; induction (lines h) as [|l lns IH]; intro c; simpl.
    + rewrite app_nil_r; reflexivity.
    + destruct (user_flag_set (mark_lines h) l); simpl.
      * rewrite (line_constraints_ok h l c Hn Hm), IH, <- app_assoc; reflexivity.
      * exact (IH c).
  - intros (l & Hl & Hm) Hbad; unfold make_hanging_node_constraints.
    apply Hflag in Hm.
    generalize cm; induction (lines h) as [|a lns IH]; intro c; simpl; [destruct Hl|].
    destruct Hl as [->|Hl].
    + rewrite Hm; simpl.
      destruct (line_constraints_err h l c Hbad) as (e & He); rewrite He.
      exists e; apply fold_bind_err.
    + destruct (user_flag_set (mark_lines h) a); simpl; [|exact (IH Hl c)].
      destruct (line_constraints h a c) as [c'|e]; simpl; [exact (IH Hl c')|].
      exists e; apply fold_bind_err.
Qed.

End Hanging2DProofs.

Module IntergridProofs.
Import Intergrid.

Lemma fold_bind_Err {A S : Type} (body : A -> S -> result S) (l : list A) (e : exc) :
  fold_left (fun acc i => bind acc (body i)) l (Err e) = Err e.
Proof. induction l as [|a l IH]; simpl; auto. Qed.

Lemma fold_bind_Ok {A S : Type} (body : A -> S -> result S) (F : A -> S -> S) (l : list A)
  (s s' : S) :
  (forall i s1 s2, In i l -> body i s1 = Ok s2 -> s2 = F i s1) ->
  fold_left (fun acc i => bind acc (body i)) l (Ok s) = Ok s' ->
  s' = fold_left (fun s1 i => F i s1) l s.
Proof.
  revert s; induction l as [|a l IH]; intros s HF H; simpl in *.
  - injection H as <-; reflexivity.
  - destruct (body a s) as [s1|e] eqn:E.
    + rewrite (HF a s s1 (or_introl eq_refl) E) in H.
      apply IH; [intros i s2 s3 Hi; apply HF; right; exact Hi | exact H].
    + rewrite fold_bind_Err in H; discriminate.
Qed.

Lemma apply_nonzero_app (w : Matrix) (l1 l2 : list (nat * nat * Q)) :
  apply_nonzero w (l1 ++ l2) = apply_nonzero (apply_nonzero w l1) l2.
Proof. unfold apply_nonzero; apply fold_left_app. Qed.

Lemma fold_apply_nonzero {A : Type} (vals : A -> list (nat * nat * Q)) (l : list A) (w : Matrix) :
  fold_left (fun w1 i => apply_nonzero w1 (vals i)) l w = apply_nonzero w (flat_map vals l).
Proof.
  revert w; induction l as [|a l IH]; intro w; simpl; [reflexivity|].
  rewrite IH, apply_nonzero_app; reflexivity.
Qed.

Lemma fold_bind_nonzero {A : Type} (body : A -> Matrix -> result Matrix)
  (vals : A -> list (nat * nat * Q)) (l : list A) (w w' : Matrix) :
  (forall i w1 w2, body i w1 = Ok w2 -> w2 = apply_nonzero w1 (vals i)) ->
  fold_left (fun acc i => bind acc (body i)) l (Ok w) = Ok w' ->
  w' = apply_nonzero w (flat_map vals l).
Proof.
  intros Hb H.
  rewrite (fold_bind_Ok body (fun i w1 => apply_nonzero w1 (vals i)) l w w'
             (fun i w1 w2 _ => Hb i w1 w2) H).
  apply fold_apply_nonzero.
Qed.

Lemma store_representation_values (weight_mapping : list Z) (wi : nat) (rep : list Q)
  (w w' : Matrix) :
  store_representation weight_mapping wi rep w = Ok w' ->
  w' = apply_nonzero w (flat_map (fun i =>
          if Z.eqb (nth i weight_mapping (-1)%Z) (-1)%Z then []
          else [(wi, Z.to_nat (nth i weight_mapping (-1)%Z), nth i rep 0%Q)])
        (seq 0 (length weight_mapping))).
Proof.
  apply fold_bind_nonzero; intros i w1 w2.
  destruct (Z.eqb (nth i weight_mapping (-1)%Z) (-1)%Z); simpl.
  - destruct (Qeq_bool (nth i rep 0%Q) 0); simpl; [|discriminate].
    intro H; injection H as <-; reflexivity.
  - unfold apply_nonzero; simpl.
    destruct (Qeq_bool (nth i rep 0%Q) 0); simpl; intro H; injection H as <-; reflexivity.
Qed.

Lemma compute_weights_values (g : CoarseGrid) (cc : nat) (weight_mapping : list Z) (w : Matrix) :
  compute_weights g cc weight_mapping = Ok w ->
  w = apply_nonzero zero_matrix (computed_values g cc weight_mapping).
Proof.
  apply fold_bind_nonzero; intros cell w1 w2.
  apply fold_bind_nonzero; intros local w3 w4.
  destruct (Nat.eqb (coarse_component_of g local) cc).
  - apply store_representation_values.
  - intro H; injection H as <-; reflexivity.
Qed.

Lemma Qeq_bool_false_iff (x y : Q) : Qeq_bool x y = false <-> ~ x == y.
Proof.
  rewrite <- Qeq_bool_iff; destruct (Qeq_bool x y); split; congruence.
Qed.

Lemma apply_nonzero_last (w0 : Matrix) (vals : list (nat * nat * Q)) (r c : nat) :
  (apply_nonzero w0 vals r c = w0 r c /\ forall v, In (r, c, v) vals -> v == 0) \/
  (exists pre v post, vals = pre ++ (r, c, v) :: post /\ ~ v == 0 /\
     apply_nonzero w0 vals r c = v /\ forall v', In (r, c, v') post -> v' == 0).
Proof.
  induction vals as [|x vals IH] using rev_ind.
  - left; split; [reflexivity | intros v []].
  - destruct x as [[r' c'] v'].
    assert (Hstep : forall w, apply_nonzero w (vals ++ [(r', c', v')]) =
              (if Qeq_bool v' 0 then apply_nonzero w vals
               else set_entry (apply_nonzero w vals) r' c' v')).
    { intro w; rewrite apply_nonzero_app; reflexivity. }
    rewrite Hstep.
    destruct (Qeq_bool v' 0) eqn:Ev.
    + apply Qeq_bool_iff in Ev.
      destruct IH as [(H1 & H2)|(pre & v & post & E & Hv & H1 & H2)].
      * left; split; [exact H1|].
        intros v Hin; apply in_app_iff in Hin; destruct Hin as [Hin|[E|[]]];
          [apply H2; exact Hin | injection E as -> -> ->; exact Ev].
      * right; exists pre, v, (post ++ [(r', c', v')]); split;
          [rewrite E, <- app_assoc; reflexivity|]; split; [exact Hv|]; split; [exact H1|].
        intros v'' Hin; apply in_app_iff in Hin; destruct Hin as [Hin|[E'|[]]];
          [apply H2; exact Hin | injection E' as -> -> ->; exact Ev].
    + apply Qeq_bool_false_iff in Ev.
      destruct (Nat.eqb r r' && Nat.eqb c c') eqn:Erc.
      * apply andb_true_iff in Erc; destruct Erc as [E1 E2];
          apply Nat.eqb_eq in E1, E2; subst r' c'.
        right; exists vals, v', []; split; [reflexivity|]; split; [exact Ev|].
        split; [unfold set_entry; rewrite !Nat.eqb_refl; reflexivity | intros v'' []].
      * assert (Hs : set_entry (apply_nonzero w0 vals) r' c' v' r c = apply_nonzero w0 vals r c)
          by (unfold set_entry; rewrite Erc; reflexivity).
        rewrite Hs.
        destruct IH as [(H1 & H2)|(pre & v & post & E & Hv & H1 & H2)].
        -- left; split; [exact H1|].
           intros v Hin; apply in_app_iff in Hin; destruct Hin as [Hin|[E|[]]];
             [apply H2; exact Hin|].
           injection E as -> ->; rewrite !Nat.eqb_refl in Erc; discriminate.
        -- right; exists pre, v, (post ++ [(r', c', v')]); split;
             [rewrite E, <- app_assoc; reflexivity|]; split; [exact Hv|]; split; [exact H1|].
           intros v'' Hin; apply in_app_iff in Hin; destruct Hin as [Hin|[E'|[]]];
             [apply H2; exact Hin|].
           injection E' as -> ->; rewrite !Nat.eqb_refl in Erc; discriminate.
Qed.

Lemma fold_bind_each {A S : Type} (body : A -> S -> result S) (l : list A) (s s' : S) :
  fold_left (fun acc i => bind acc (body i)) l (Ok s) = Ok s' ->
  forall i, In i l -> exists s1 s2, body i s1 = Ok s2.
Proof.
  revert s; induction l as [|a l IH]; intros s H i Hi; simpl in *; [destruct Hi|].
  destruct (body a s) as [s1|e] eqn:E.
  - destruct Hi as [<-|Hi]; [exists s, s1; exact E | exact (IH s1 H i Hi)].
  - rewrite fold_bind_Err in H; discriminate.
Qed.

Lemma find_seq_Some (p : nat -> bool) (a len k : nat) :
  find p (seq a len) = Some k ->
  a <= k < a + len /\ p k = true /\ forall j, a <= j < k -> p j = false.
Proof.
  revert a; induction len as [|len IH]; intros a H; simpl in H; [discriminate|].
  destruct (p a) eqn:Ea.
  - injection H as <-; split; [lia|]; split; [exact Ea | intros j Hj; lia].
  - destruct (IH (S a) H) as (H1 & H2 & H3); split; [lia|]; split; [exact H2|].
    intros j Hj; destruct (Nat.eq_dec j a) as [->|Hne]; [exact Ea | apply H3; lia].
Qed.

Lemma find_seq_None (p : nat -> bool) (a len : nat) :
  find p (seq a len) = None -> forall j, a <= j < a + len -> p j = false.
Proof.
  revert a; induction len as [|len IH]; intros a H j Hj; simpl in H; [lia|].
  destruct (p a) eqn:Ea; [discriminate|].
  destruct (Nat.eq_dec j a) as [->|Hne]; [exact Ea | apply (IH (S a) H); lia].
Qed.

Lemma first_index_lt (p : nat -> bool) (n : nat) :
  first_index p n < n ->
  p (first_index p n) = true /\ forall j, j < first_index p n -> p j = false.
Proof.
  unfold first_index; destruct (find p (seq 0 n)) as [k|] eqn:E; intro Hk; [|lia].
  destruct (find_seq_Some p 0 n k E) as (_ & H2 & H3); split; [exact H2|].
  intros j Hj; apply H3; lia.
Qed.

Lemma first_index_eq (p : nat -> bool) (n : nat) :
  first_index p n < n \/ (first_index p n = n /\ forall j, j < n -> p j = false).
Proof.
  unfold first_index; destruct (find p (seq 0 n)) as [k|] eqn:E.
  - left; destruct (find_seq_Some p 0 n k E) as (H1 & _); lia.
  - right; split; [reflexivity|]; intros j Hj; apply (find_seq_None p 0 n E); lia.
Qed.

Lemma compute_representants_spec (w : Matrix) (m n : nat) (wm : list Z) (reps : list nat) :
  compute_representants w m n wm = Ok reps ->
  reps = map (representative w n wm) (seq 0 m) /\
  forall r, r < m ->
    let column := first_index (fun c => Qeq_bool (w r c) 1) n in
    column < n /\ representative w n wm r < length wm.
Proof.
  unfold compute_representants, for_range_r; intro H; split.
  - refine (eq_trans (fold_bind_Ok _ (fun i reps => reps ++ [representative w n wm i])
                        (seq 0 m) [] reps _ H) _).
    + intros i s1 s2 _.
      destruct (Nat.ltb _ n); [|discriminate].
      destruct (Nat.ltb _ (length wm)); [|discriminate].
      intro E; injection E as <-; reflexivity.
    + rewrite Hanging2DProofs.fold_push; reflexivity.
  - intros r Hr; cbv zeta.
    destruct (fold_bind_each _ _ _ _ H r (proj2 (in_seq m 0 r) (conj (Nat.le_0_l r) Hr)))
      as (s1 & s2 & E); cbv zeta in E.
    destruct (Nat.ltb _ n) eqn:E1; [|discriminate].
    destruct (Nat.ltb _ (length wm)) eqn:E2; [|discriminate].
    apply Nat.ltb_lt in E1, E2; split; [exact E1 | exact E2].
Qed.

(** Claim C3: a weight set to a nonzero value is never overwritten with zero:
    for every position, the stored weight is the last nonzero value computed
    for it over all coarse cells (zero, the initial value, when every value
    computed for it is zero). *)
Theorem intergrid_weights_last_nonzero (g : CoarseGrid) (coarse_component : nat)
  (weight_mapping : list Z) (weights : Matrix) :
  compute_weights g coarse_component weight_mapping = Ok weights ->
  forall r c,
    (weights r c = 0%Q /\
     forall v, In (r, c, v) (computed_values g coarse_component weight_mapping) -> v == 0) \/
    (exists pre v post,
       computed_values g coarse_component weight_mapping = pre ++ (r, c, v) :: post /\
       ~ v == 0 /\ weights r c = v /\
       forall v', In (r, c, v') post -> v' == 0).
Proof.
  intros H r c; apply compute_weights_values in H; subst weights.
  apply apply_nonzero_last.
Qed.

Lemma filter_all_false {A : Type} (p : A -> bool) (l : list A) :
  (forall x, In x l -> p x = false) -> filter p l = [].
Proof.
  induction l as [|a l IH]; intro H; simpl; [reflexivity|].
  rewrite (H a (or_introl eq_refl)); apply IH; intros x Hx; apply H; right; exact Hx.
Qed.

Lemma filter_seq_from (p : nat -> bool) (f m : nat) :
  (forall j, j < f -> p j = false) -> f <= m ->
  filter p (seq 0 m) = filter p (seq f (m - f)).
Proof.
  intros Hlow Hf; replace m with (f + (m - f)) at 1 by lia.
  rewrite seq_app, filter_app, filter_all_false; [reflexivity|].
  intros x Hx; apply in_seq in Hx; apply Hlow; lia.
Qed.

Lemma fold_cond_push {A B : Type} (p : A -> bool) (g : A -> B) (l : list A) (acc : list B) :
  fold_left (fun acc row => if p row then acc ++ [g row] else acc) l acc =
  acc ++ map g (filter p l).
Proof.
  revert acc; induction l as [|a l IH]; intro acc; simpl; [rewrite app_nil_r; reflexivity|].
  destruct (p a); rewrite IH; [rewrite <- app_assoc; reflexivity | reflexivity].
Qed.

Lemma fold_app_flat {A B : Type} (F : A -> list B) (l : list A) (acc : list B) :
  fold_left (fun c g => c ++ F g) l acc = acc ++ flat_map F l.
Proof.
  revert acc; induction l as [|a l IH]; intro acc; simpl; [rewrite app_nil_r; reflexivity|].
  rewrite IH, app_assoc; reflexivity.
Qed.

Lemma nth_map_seq_lt {B : Type} (g : nat -> B) (m i : nat) (d : B) :
  i < m -> nth i (map g (seq 0 m)) d = g i.
Proof.
  intro Hi; rewrite nth_indep with (d' := g 0) by (rewrite length_map, length_seq; exact Hi).
  rewrite map_nth, seq_nth by exact Hi; reflexivity.
Qed.

Lemma fine_dof_constraint_spec (w : Matrix) (m n : nat) (wm : list Z) (reps : list nat)
  (g : nat) (cm cm' : ConstraintMatrix) :
  reps = map (representative w n wm) (seq 0 m) ->
  fine_dof_constraint w m wm reps g cm = Ok cm' ->
  cm' = cm ++ expected_fine_lines w m n wm g.
Proof.
  intro Hreps; unfold fine_dof_constraint, expected_fine_lines; cbv zeta.
  destruct (Z.eqb _ _) eqn:Ewm.
  { intro E; injection E as <-; rewrite app_nil_r; reflexivity. }
  set (col := Z.to_nat _).
  set (p := fun row => negb (Qeq_bool (w row col) 0)).
  unfold el.
  destruct (first_index_eq p m) as [Hlt | [Heq _]].
  2: { rewrite Heq, Nat.ltb_irrefl; discriminate. }
  rewrite (proj2 (Nat.ltb_lt _ _) Hlt); cbn [bind].
  destruct (first_index_lt p m Hlt) as [Hpf Hbelow].
  set (f := first_index p m) in *.
  assert (Hrows2 : filter p (seq f (m - f)) = f :: filter p (seq (S f) (m - S f))).
  { replace (m - f) with (S (m - S f)) by lia; simpl; rewrite Hpf; reflexivity. }
  assert (Hrows : filter p (seq 0 m) = f :: filter p (seq (S f) (m - S f))).
  { rewrite (filter_seq_from p f m Hbelow) by lia; exact Hrows2. }
  fold p; rewrite Hrows, Hreps, nth_map_seq_lt by exact Hlt.
  destruct (Qeq_bool (w f col) 1 && Nat.eqb (representative w n wm f) g) eqn:Eskip.
  - intro E; injection E as <-; rewrite app_nil_r; reflexivity.
  - intro E; injection E as <-.
    rewrite (fold_cond_push p), <- Hrows2, <- app_assoc; f_equal; simpl; f_equal.
    apply map_ext_in; intros row Hrow.
    rewrite nth_map_seq_lt; [reflexivity|].
    apply filter_In in Hrow as [Hrow _]; apply in_seq in Hrow; lia.
Qed.

(** Claim C4 (behaviour of the code): each coarse parameter DoF [r] has a
    first column with weight exactly 1, and its representative is the fine
    DoF mapped to that column; a fine parameter DoF is left unconstrained
    exactly when the FIRST nonzero weight of its column is 1 and that row's
    representative is this DoF, the weights below it not being looked at,
    where the claim and the comment of the code ask that 1 be the ONLY
    nonzero weight of the column; every other fine parameter DoF receives one
    line whose entries are the representatives of all rows with nonzero weight
    in its column, with those weights. *)
Theorem constraints_from_weights_spec (w : Matrix) (m n n_components : nat)
  (weight_mapping : list Z) (cm cm' : ConstraintMatrix) :
  constraints_from_weights w m n n_components weight_mapping cm = Ok cm' ->
  (forall r, r < m ->
     let column := first_index (fun c => Qeq_bool (w r c) 1) n in
     column < n /\ Qeq_bool (w r column) 1 = true /\
     representative w n weight_mapping r < length weight_mapping /\
     nth (representative w n weight_mapping r) weight_mapping (-1)%Z = Z.of_nat column) /\
  cm' = cm ++ flat_map (expected_fine_lines w m n weight_mapping)
                       (seq 0 (length weight_mapping)).
Proof.
  unfold constraints_from_weights.
  destruct (check_column_sums w m n n_components) as [u|e]; [|discriminate]; cbn [bind].
  destruct (compute_representants w m n weight_mapping) as [reps|e] eqn:Er;
    [|discriminate]; cbn [bind].
  destruct (compute_representants_spec _ _ _ _ _ Er) as [Hreps Hr].
  intro H; split.
  - intros r Hrm; cbv zeta; destruct (Hr r Hrm) as [H1 H2]; cbv zeta in H1.
    split; [exact H1|]; split; [exact (proj1 (first_index_lt _ _ H1))|].
    split; [exact H2|].
    unfold representative in *; cbv zeta in *.
    apply Z.eqb_eq; exact (proj1 (first_index_lt _ _ H2)).
  - refine (eq_trans (fold_bind_Ok _ (fun g c => c ++ expected_fine_lines w m n weight_mapping g)
                        (seq 0 (length weight_mapping)) cm cm' _ H) _).
    + intros g s1 s2 _; apply fine_dof_constraint_spec; exact Hreps.
    + apply fold_app_flat.
Qed.

(** Claim C4 (failing input): with the weights of [first_one_weights], whose
    column 0 has the nonzero weights 1, 1/2 and -1/2 (columns summing to one),
    fine DoF 0 gets no constraint line although 1 is not the only nonzero
    weight of its column, which the documented test would constrain. *)
Lemma first_one_weights_unconstrained :
  constraints_from_weights Examples.first_one_weights 3 3 1 [0; 1; 2]%Z [] = Ok [] /\
  ~ Examples.first_one_weights 1 0 == 0 /\ ~ Examples.first_one_weights 2 0 == 0.
Proof.
  split; [vm_compute; reflexivity|].
  split; vm_compute; discriminate.
Qed.

(** Witness of claim C3 on [two_coarse_cells]: fine DoF 1 gets weight 1/2 from
    coarse DoF 1 on cell 0, which the zero of cell 1 does not overwrite. *)
Lemma intergrid_weights_last_nonzero_witness :
  exists weights,
    compute_weights Examples.two_coarse_cells 0 [0; 1; 2; 3; 4]%Z = Ok weights /\
    weights 1 1 = (1#2)%Q /\
    forall r c,
      (weights r c = 0%Q /\
       forall v, In (r, c, v) (computed_values Examples.two_coarse_cells 0 [0; 1; 2; 3; 4]%Z) ->
                 v == 0) \/
      (exists pre v post,
         computed_values Examples.two_coarse_cells 0 [0; 1; 2; 3; 4]%Z = pre ++ (r, c, v) :: post /\
         ~ v == 0 /\ weights r c = v /\
         forall v', In (r, c, v') post -> v' == 0).
Proof.
  eexists; split; [vm_compute; reflexivity|].
  split; [vm_compute; reflexivity|].
  apply intergrid_weights_last_nonzero; vm_compute; reflexivity.
Defined.

(** Witness of claim C4 on [two_coarse_cells]: fine DoFs 0, 2, 4 are
    unconstrained, fine DoFs 1 and 3 are the means of their neighbours. *)
Lemma constraints_from_weights_spec_witness :
  exists weights cm',
    compute_weights Examples.two_coarse_cells 0 [0; 1; 2; 3; 4]%Z = Ok weights /\
    constraints_from_weights weights 3 5 1 [0; 1; 2; 3; 4]%Z [] = Ok cm' /\
    cm' = [add_line 1; add_entry 1 0 (1#2); add_entry 1 2 (1#2);
           add_line 3; add_entry 3 2 (1#2); add_entry 3 4 (1#2)]%Q /\
    (forall r, r < 3 ->
     let column := first_index (fun c => Qeq_bool (weights r c) 1) 5 in
     column < 5 /\ Qeq_bool (weights r column) 1 = true /\
     representative weights 5 [0; 1; 2; 3; 4]%Z r < 5 /\
     nth (representative weights 5 [0; 1; 2; 3; 4]%Z r) [0; 1; 2; 3; 4]%Z (-1)%Z
       = Z.of_nat column) /\
    cm' = [] ++ flat_map (expected_fine_lines weights 3 5 [0; 1; 2; 3; 4]%Z) (seq 0 5).
Proof.
  do 2 eexists; split; [vm_compute; reflexivity|].
  split; [vm_compute; reflexivity|].
  split; [vm_compute; reflexivity|].
  apply constraints_from_weights_spec with (n_components := 1); vm_compute; reflexivity.
Defined.

End IntergridProofs.

Module BoundaryProofs.
Import Boundary.
















End BoundaryProofs.

Module OneDProofs.

(** Claim C5 (amended): on a 1-dimensional mesh, both boundary-sparsity
    operations signal [ExcInternalError] (in debug builds) whatever their
    arguments; the hanging-node constraint operation returns normally without
    adding constraints; [make_flux_sparsity_pattern] is not instantiated. *)
Theorem one_d_operations (dof : DoFHandler) (boundary_indicators : list nat)
  (dof_to_boundary_mapping : list N) (sp : SparsityPattern) (cm : ConstraintMatrix) :
  OneD.make_boundary_sparsity_pattern dof dof_to_boundary_mapping sp = Err ExcInternalError /\
  OneD.make_boundary_sparsity_pattern_ind dof boundary_indicators dof_to_boundary_mapping sp
    = Err ExcInternalError /\
  OneD.make_hanging_node_constraints dof cm = Ok cm /\
  OneD.flux_sparsity_instantiated 1 = false.
Proof. split; [reflexivity|]; split; [reflexivity|]; split; reflexivity. Qed.

(** Claim C5 (counterexample): the 1D boundary-sparsity operation on the
    empty pattern signals an error instead of returning normally. *)
Lemma one_d_boundary_sparsity_fails :
  OneD.make_boundary_sparsity_pattern Examples.one_line_dof [0; 1]%N (Examples.empty_pattern 2)
    = Err ExcInternalError.
Proof. reflexivity. Qed.

End OneDProofs.

Module ScratchProofs.
Import Scratch.

Lemma acquire_in_some (l l' : list (bool * nat)) (a : nat) :
  acquire_in l = Some (a, l') ->
  In (false, a) l /\ map snd l' = map snd l /\ In (true, a) l' /\
  (forall b x, x <> a -> (In (b, x) l' <-> In (b, x) l)) /\
  (forall x, In (true, x) l -> In (true, x) l').
Proof.
  revert l'; induction l as [|[b c] r IH]; intros l' H; simpl in H; [discriminate|].
  destruct (Bool.eqb b false) eqn:Eb.
  - apply Bool.eqb_prop in Eb; subst b; injection H as <- <-; simpl.
    split; [left; reflexivity|]; split; [reflexivity|]; split; [left; reflexivity|]; split.
    + intros b x Hx; split; intros [E|E]; try (right; exact E);
        injection E as _ E; congruence.
    + intros x [E|E]; [discriminate | right; exact E].
  - destruct (acquire_in r) as [[x r']|] eqn:Er; [|discriminate].
    injection H as <- <-.
    destruct (IH r' eq_refl) as (H1 & H2 & H3 & H4 & H5); simpl.
    split; [right; exact H1|]; split; [rewrite H2; reflexivity|].
    split; [right; exact H3|]; split.
    + intros b' y Hy; specialize (H4 b' y Hy); tauto.
    + intros y [E|E]; [left; exact E | right; apply H5; exact E].
Qed.

Lemma nodup_flag (l : list (bool * nat)) (b1 b2 : bool) (x : nat) :
  NoDup (map snd l) -> In (b1, x) l -> In (b2, x) l -> b1 = b2.
Proof.
  induction l as [|[b a] r IH]; simpl; intros Hnd H1 H2; [contradiction|].
  inversion Hnd as [|? ? Hnin Hnd']; subst.
  destruct H1 as [E1|E1], H2 as [E2|E2].
  - injection E1 as -> ->; injection E2 as ->; reflexivity.
  - injection E1 as -> ->; apply (in_map snd) in E2; contradiction.
  - injection E2 as -> ->; apply (in_map snd) in E1; contradiction.
  - exact (IH Hnd' E1 E2).
Qed.

Lemma acquire_spec (p : Pool) :
  pool_wf p ->
  let (a, p') := acquire_scratch_data p in
  (In (false, a) (scratch_pad p) \/ ~ In a (map snd (scratch_pad p))) /\
  In (true, a) (scratch_pad p') /\ pool_wf p' /\
  (forall b x, x <> a -> (In (b, x) (scratch_pad p') <-> In (b, x) (scratch_pad p))) /\
  (forall x, In (true, x) (scratch_pad p) -> In (true, x) (scratch_pad p')) /\
  ~ In (true, a) (scratch_pad p).
Proof.
  intros [Hnd Hlt]; unfold acquire_scratch_data.
  destruct (acquire_in (scratch_pad p)) as [[a l']|] eqn:E.
  - destruct (acquire_in_some _ _ _ E) as (H1 & H2 & H3 & H4 & H5); simpl.
    split; [left; exact H1|]; split; [exact H3|].
    split; [unfold pool_wf; simpl; rewrite H2; split; assumption|].
    split; [exact H4|]; split; [exact H5|].
    intro Ht; pose proof (nodup_flag _ _ _ _ Hnd H1 Ht); discriminate.
  - simpl.
    assert (Hfresh : ~ In (next_address p) (map snd (scratch_pad p)))
      by (intro H; specialize (Hlt _ H); lia).
    split; [right; exact Hfresh|]; split; [left; reflexivity|]; split.
    + split; simpl; [constructor; assumption|].
      intros a [<-|Ha]; [lia | specialize (Hlt a Ha); lia].
    + split; [|split].
      * intros b x Hx; split; [intros [E'|E']; [injection E' as _ E'; congruence | exact E']|].
        intro H; right; exact H.
      * intros x Hx; right; exact Hx.
      * intro Ht; apply Hfresh; apply (in_map snd) in Ht; exact Ht.
Qed.

Lemma release_in_ok (s : nat) (l : list (bool * nat)) :
  In (true, s) l -> NoDup (map snd l) ->
  exists l', release_in s l = Ok l' /\ map snd l' = map snd l /\ In (false, s) l' /\
    forall b x, x <> s -> (In (b, x) l' <-> In (b, x) l).
Proof.
  induction l as [|[b a] r IH]; simpl; intros Hin Hnd; [contradiction|].
  inversion Hnd as [|? ? Hnin Hnd']; subst.
  destruct (Nat.eqb a s) eqn:Eas.
  - apply Nat.eqb_eq in Eas; subst a.
    destruct Hin as [E|E]; [|apply (in_map snd) in E; contradiction].
    injection E as ->; exists ((false, s) :: r).
    split; [reflexivity|]; split; [reflexivity|]; split; [left; reflexivity|].
    intros b x Hx; simpl; split; intros [E'|E']; try (right; exact E');
      injection E' as _ E'; congruence.
  - apply Nat.eqb_neq in Eas.
    destruct Hin as [E|E]; [injection E as _ E; congruence|].
    destruct (IH E Hnd') as (l' & R & M & F & O); rewrite R; cbn [bind].
    exists ((b, a) :: l'); split; [reflexivity|]; split; [simpl; rewrite M; reflexivity|].
    split; [right; exact F|].
    intros b' x Hx; specialize (O b' x Hx); simpl; tauto.
Qed.

Lemma release_in_absent (s : nat) (l : list (bool * nat)) :
  ~ In s (map snd l) -> release_in s l = Err (ExcMessage "Tried to release invalid scratch pad").
Proof.
  induction l as [|[b a] r IH]; simpl; intro H; [reflexivity|].
  destruct (Nat.eqb a s) eqn:E; [apply Nat.eqb_eq in E; subst; tauto|].
  rewrite IH by tauto; reflexivity.
Qed.

Lemma release_spec (p : Pool) (a : nat) :
  pool_wf p -> In (true, a) (scratch_pad p) ->
  exists p2, release_scratch_data a p = Ok p2 /\ In (false, a) (scratch_pad p2) /\
    pool_wf p2 /\
    forall b x, x <> a -> (In (b, x) (scratch_pad p2) <-> In (b, x) (scratch_pad p)).
Proof.
  intros [Hnd Hlt] Ha; unfold release_scratch_data.
  destruct (release_in_ok a _ Ha Hnd) as (l' & R & M & F & O); rewrite R; cbn [bind].
  eexists; split; [reflexivity|]; simpl; split; [exact F|]; split; [|exact O].
  split; simpl; rewrite M; assumption.
Qed.

Lemma acquire_many_avoids (n : nat) (p : Pool) (x : nat) :
  pool_wf p -> In (true, x) (scratch_pad p) -> ~ In x (fst (acquire_many n p)).
Proof.
  revert p; induction n as [|n IH]; intros p Hwf Hx; simpl; [tauto|].
  pose proof (acquire_spec p Hwf) as Hs.
  destruct (acquire_scratch_data p) as [a p1].
  destruct Hs as (_ & _ & Hwf1 & _ & Hkeep & Hnot).
  pose proof (IH p1 Hwf1 (Hkeep x Hx)) as IH1.
  destruct (acquire_many n p1) as [l p2]; simpl in *.
  intros [<-|Hl]; [exact (Hnot Hx) | exact (IH1 Hl)].
Qed.

Lemma acquire_many_nodup (n : nat) (p : Pool) :
  pool_wf p -> NoDup (fst (acquire_many n p)).
Proof.
  revert p; induction n as [|n IH]; intros p Hwf; simpl; [constructor|].
  pose proof (acquire_spec p Hwf) as Hs.
  destruct (acquire_scratch_data p) as [a p1].
  destruct Hs as (_ & Ha & Hwf1 & _).
  pose proof (IH p1 Hwf1) as IH1.
  pose proof (acquire_many_avoids n p1 a Hwf1 Ha) as Hav.
  destruct (acquire_many n p1) as [l p2]; simpl in *.
  constructor; assumption.
Qed.

(** Claim C10: on a well-formed pool (distinct addresses), [acquire_scratch_data]
    returns a buffer whose flag was false, or a new one, and marks it in use;
    no two of [n] acquisitions with no release in between return the same
    buffer; releasing a buffer in use marks it available again and leaves the
    other buffers as they were, and releasing the buffer just acquired gives
    back the pool's other entries unchanged; releasing an address that is not
    in the pool fails with "Tried to release invalid scratch pad". *)
Theorem scratch_pool_discipline (p : Pool) (n : nat) :
  pool_wf p ->
  (let (a, p1) := acquire_scratch_data p in
     (In (false, a) (scratch_pad p) \/ ~ In a (map snd (scratch_pad p))) /\
     In (true, a) (scratch_pad p1) /\ pool_wf p1 /\
     exists p2, release_scratch_data a p1 = Ok p2 /\ In (false, a) (scratch_pad p2) /\
       pool_wf p2 /\
       forall b x, x <> a -> (In (b, x) (scratch_pad p2) <-> In (b, x) (scratch_pad p))) /\
  NoDup (fst (acquire_many n p)) /\
  (forall a, In (true, a) (scratch_pad p) ->
     exists p2, release_scratch_data a p = Ok p2 /\ In (false, a) (scratch_pad p2) /\
       pool_wf p2 /\
       forall b x, x <> a -> (In (b, x) (scratch_pad p2) <-> In (b, x) (scratch_pad p))) /\
  (forall s, ~ In s (map snd (scratch_pad p)) ->
     release_scratch_data s p = Err (ExcMessage "Tried to release invalid scratch pad")).
Proof.
  intro Hwf; split; [|split; [|split]].
  - pose proof (acquire_spec p Hwf) as Hs.
    destruct (acquire_scratch_data p) as [a p1].
    destruct Hs as (H1 & H2 & Hwf1 & H4 & _).
    split; [exact H1|]; split; [exact H2|]; split; [exact Hwf1|].
    destruct (release_spec p1 a Hwf1 H2) as (p2 & R & F & Hwf2 & O).
    exists p2; split; [exact R|]; split; [exact F|]; split; [exact Hwf2|].
    intros b x Hx; rewrite (O b x Hx); exact (H4 b x Hx).
  - apply acquire_many_nodup; exact Hwf.
  - intros a Ha; apply release_spec; assumption.
  - intros s Hs; unfold release_scratch_data; rewrite release_in_absent by exact Hs; reflexivity.
Qed.


(** Witness of claim C10 on [two_buffer_pool]: three acquisitions return the
    free buffer 1 and then the new buffers 2 and 3. *)
Lemma scratch_pool_discipline_witness :
  pool_wf Examples.two_buffer_pool /\
  fst (acquire_many 3 Examples.two_buffer_pool) = [1; 2; 3] /\
  NoDup (fst (acquire_many 3 Examples.two_buffer_pool)).
Proof.
  assert (Hwf : pool_wf Examples.two_buffer_pool).
  { split; simpl.
    - constructor; [simpl; intros [H|[]]; discriminate|].
      constructor; [simpl; tauto | constructor].
    - intros a [<-|[<-|[]]]; auto. }
  split; [exact Hwf|]; split; [reflexivity|].
  exact (proj1 (proj2 (scratch_pool_discipline Examples.two_buffer_pool 3 Hwf))).
Defined.

End ScratchProofs.

Module MFLoopProofs.
Import MFLoop.

Ltac case_ifs :=
  repeat match goal with
  | |- context [if ?b then _ else _] =>
      lazymatch b with true => fail | false => fail | _ => destruct b end
  end.

Lemma then_step_Ok (s1 s2 : Step) (w w1 : MFWorker) (e1 : list event) :
  s1 w = Ok (w1, e1) ->
  then_step s1 s2 w = bind (s2 w1) (fun r2 => let '(w2, e2) := r2 in Ok (w2, e1 ++ e2)).
Proof. intro H; unfold then_step; rewrite H; reflexivity. Qed.

Definition ranges_events (w : MFWorker) (ranges : list nat) : list event :=
  flat_map (fun r => (if zero_dst_vector_setting w
                      then zero_vector_region (dst_data_exchanger w) r (dst w) else [])
                     ++ [CellWork r]) ranges.

Lemma ranges_Ok (ranges : list nat) (w : MFWorker) :
  fold_right (fun r k => then_step (then_step (zero_dst_vector_range r) (cell r)) k)
             skip_step ranges w = Ok (w, ranges_events w ranges).
Proof.
  induction ranges as [|r ranges IH]; [reflexivity|]; simpl.
  assert (Hz : then_step (zero_dst_vector_range r) (cell r) w =
               Ok (w, (if zero_dst_vector_setting w
                       then zero_vector_region (dst_data_exchanger w) r (dst w) else [])
                      ++ [CellWork r])).
  { unfold then_step, zero_dst_vector_range, cell.
    destruct (zero_dst_vector_setting w); reflexivity. }
  rewrite (then_step_Ok _ _ w w _ Hz), IH; cbn [bind].
  unfold ranges_events; simpl; rewrite <- app_assoc; reflexivity.
Qed.

Lemma ghosts_start_eq (w : MFWorker) :
  vector_update_ghosts_start w =
  let '(ex, gs) := if negb (src_and_dst_are_same w)
                   then update_ghost_values_start (src_data_exchanger w) (store w) (src w)
                   else (src_data_exchanger w, []) in
  Ok (with_src_exchanger w ex, gs).
Proof.
  unfold vector_update_ghosts_start; destruct (negb _).
  - destruct (update_ghost_values_start _ _ _); reflexivity.
  - destruct w; reflexivity.
Qed.

Lemma loop_log (ranges : list nat) (w w' : MFWorker) (log : list event) :
  task_info_loop ranges w = Ok (w', log) ->
  exists ex gs cs,
    (if negb (src_and_dst_are_same w)
     then update_ghost_values_start (src_data_exchanger w) (store w) (src w)
     else (src_data_exchanger w, [])) = (ex, gs) /\
    compress_start (dst_data_exchanger w) (store w) (dst w) = Ok cs /\
    log = gs ++ (if negb (src_and_dst_are_same w)
                 then update_ghost_values_finish ex (store w) (src w) else []) ++
          ranges_events w ranges ++ cs ++
          compress_finish (dst_data_exchanger w) (store w) (dst w) ++
          (if negb (src_and_dst_are_same w) then reset_ghost_values ex (store w) (src w) else []).
Proof.
  unfold task_info_loop; intro H.
  destruct (if negb (src_and_dst_are_same w)
            then update_ghost_values_start (src_data_exchanger w) (store w) (src w)
            else (src_data_exchanger w, [])) as [ex gs] eqn:Eg.
  assert (H1 : vector_update_ghosts_start w = Ok (with_src_exchanger w ex, gs))
    by (rewrite ghosts_start_eq, Eg; reflexivity).
  rewrite (then_step_Ok _ _ _ _ _ H1) in H.
  assert (H2 : vector_update_ghosts_finish (with_src_exchanger w ex) =
               Ok (with_src_exchanger w ex,
                   if negb (src_and_dst_are_same w)
                   then update_ghost_values_finish ex (store w) (src w) else []))
    by (unfold vector_update_ghosts_finish; simpl; destruct (negb _); reflexivity).
  rewrite (then_step_Ok _ _ _ _ _ H2) in H; cbn [bind] in H.
  rewrite (then_step_Ok _ _ _ _ _ (ranges_Ok ranges _)) in H; cbn [bind] in H.
  unfold then_step, vector_compress_start, vector_compress_finish in H; simpl in H.
  destruct (compress_start (dst_data_exchanger w) (store w) (dst w)) as [cs|e] eqn:Ec;
    [|discriminate].
  exists ex, gs, cs; split; [reflexivity|]; split; [reflexivity|].
  cbn [bind] in H; injection H as _ <-.
  unfold ranges_events; simpl; rewrite !app_assoc; reflexivity.
Qed.

Definition quiet (x : nat) (e : event) : bool :=
  negb (zeroing_event e) && negb (ghost_event_on x e).

Lemma update_start_spec (ex : VectorDataExchange) (st : Store) (v x : nat) :
  let '(ex', gs) := update_ghost_values_start ex st v in
  forallb (fun e => negb (zeroing_event e) && negb (ghost_reset_on x e)) gs = true /\
  ghosts_were_set ex' = ghosts_were_set ex || has_ghost_elements (st v) /\
  vector_face_access ex' = vector_face_access ex /\ matrix_free ex' = matrix_free ex.
Proof.
  destruct ex as [mf a g]; unfold update_ghost_values_start; simpl.
  destruct (has_ghost_elements (st v));
    [rewrite orb_true_r | rewrite orb_false_r]; simpl; case_ifs; simpl; auto.
Qed.

Lemma update_finish_spec (ex : VectorDataExchange) (st : Store) (v x : nat) :
  forallb (fun e => negb (zeroing_event e) && negb (ghost_reset_on x e))
          (update_ghost_values_finish ex st v) = true.
Proof. unfold update_ghost_values_finish; case_ifs; reflexivity. Qed.

Lemma compress_start_spec (ex : VectorDataExchange) (st : Store) (v x : nat) (cs : list event) :
  compress_start ex st v = Ok cs -> forallb (quiet x) cs = true.
Proof.
  unfold compress_start; destruct (negb _); [|discriminate]; cbn [bind].
  case_ifs; intro H; injection H as <-; reflexivity.
Qed.

Lemma compress_finish_spec (ex : VectorDataExchange) (st : Store) (v x : nat) :
  forallb (quiet x) (compress_finish ex st v) = true.
Proof. unfold compress_finish; case_ifs; reflexivity. Qed.

Lemma reset_spec (ex : VectorDataExchange) (st : Store) (v x : nat) :
  forallb (fun e => negb (zeroing_event e)) (reset_ghost_values ex st v) = true /\
  existsb (ghost_reset_on x) (reset_ghost_values ex st v) =
    Nat.eqb v x && negb (ghosts_were_set ex) && reset_reaches ex (st v).
Proof.
  unfold reset_ghost_values, reset_reaches.
  destruct (ghosts_were_set ex), (is_unspecified (vector_face_access ex)),
    (Nat.eqb (vsize (st v)) 0), (partitioner_is_main ex), (Nat.ltb 0 _);
    (split; [reflexivity|]); simpl; destruct (v =? x); reflexivity.
Qed.

Lemma ranges_events_spec (w : MFWorker) (ranges : list nat) (x : nat) :
  forallb (fun e => negb (ghost_event_on x e)) (ranges_events w ranges) = true /\
  existsb zeroing_event (ranges_events w ranges) =
    zero_dst_vector_setting w && negb (match ranges with [] => true | _ => false end).
Proof.
  induction ranges as [|r ranges [IH1 IH2]]; [rewrite andb_false_r; split; reflexivity|].
  unfold ranges_events in *; simpl flat_map.
  rewrite forallb_app, existsb_app, IH1, IH2.
  unfold zero_vector_region; destruct (zero_dst_vector_setting w);
    [destruct (N.eqb _ _)|]; simpl; split; try reflexivity.
Qed.

Lemma forallb_quiet_split (x : nat) (l : list event) :
  forallb (quiet x) l = true ->
  forallb (fun e => negb (ghost_event_on x e)) l = true /\ existsb zeroing_event l = false.
Proof.
  induction l as [|e l IH]; [split; reflexivity|]; simpl.
  unfold quiet at 1; destruct (zeroing_event e), (ghost_event_on x e); simpl;
    try discriminate; exact IH.
Qed.

Lemma ghost_reset_event (x : nat) (e : event) :
  ghost_reset_on x e = true -> ghost_event_on x e = true.
Proof. destruct e; simpl; auto; discriminate. Qed.

Lemma forallb_quiet_no_reset (x : nat) (l : list event) :
  forallb (quiet x) l = true -> existsb (ghost_reset_on x) l = false.
Proof.
  induction l as [|e l IH]; [reflexivity|]; simpl; intro H.
  apply andb_true_iff in H as [He Hl]; rewrite (IH Hl), orb_false_r.
  unfold quiet in He; destruct e; simpl in *; try reflexivity;
    apply negb_true_iff in He; exact He.
Qed.

Lemma reset_free_no_reset (x : nat) (l : list event) :
  forallb (fun e => negb (zeroing_event e) && negb (ghost_reset_on x e)) l = true ->
  existsb (ghost_reset_on x) l = false /\ existsb zeroing_event l = false.
Proof.
  induction l as [|e l IH]; [split; reflexivity|]; simpl; intro H.
  apply andb_true_iff in H as [He Hl]; destruct (IH Hl) as [H1 H2]; rewrite H1, H2.
  destruct (zeroing_event e), (ghost_reset_on x e); simpl in *; try discriminate.
  split; reflexivity.
Qed.

Lemma forallb_negb_existsb {A : Type} (f : A -> bool) (l : list A) :
  forallb (fun e => negb (f e)) l = true -> existsb f l = false.
Proof.
  induction l as [|a l IH]; [reflexivity|]; simpl; intro H.
  apply andb_true_iff in H as [Ha Hl]; apply negb_true_iff in Ha; rewrite Ha, (IH Hl); reflexivity.
Qed.

Lemma no_ghost_no_reset (x : nat) (l : list event) :
  forallb (fun e => negb (ghost_event_on x e)) l = true -> existsb (ghost_reset_on x) l = false.
Proof.
  induction l as [|e l IH]; [reflexivity|]; simpl; intro H.
  apply andb_true_iff in H as [He Hl]; rewrite (IH Hl), orb_false_r.
  destruct e; simpl in *; try reflexivity; apply negb_true_iff in He; exact He.
Qed.

Lemma reset_reaches_congr (ex ex' : VectorDataExchange) (vec : DistVector) :
  vector_face_access ex = vector_face_access ex' -> matrix_free ex = matrix_free ex' ->
  reset_reaches ex vec = reset_reaches ex' vec.
Proof.
  intros H1 H2; unfold reset_reaches, partitioner_is_main, get_partitioner.
  rewrite H1, H2; reflexivity.
Qed.

(** Claim C9: in [MatrixFree::loop] (and [cell_loop], which is [loop] with the
    access modes [none]), when source and destination are the same vector
    object, the run makes no ghost-value call on the source (no update
    started or finished, no reset) and zeroes nothing, even when
    [zero_dst_vector] is true; for distinct vectors, the destination is zeroed
    exactly when [zero_dst_vector] is true (and there is a cell range), the
    ghost entries of the source are zeroed after the loop exactly when the
    source had no ghost elements on entry (and the exchanger's partitioner has
    ghost entries to zero), and the destination's ghosts are never reset. *)
Theorem mfworker_src_dst_frame (mf : MatrixFreeInfo) (st : Store) (s d : nat) (zero_dst : bool)
  (src_access dst_access : DataAccessOnFaces) (ranges : list nat) (w : MFWorker)
  (log : list event) :
  loop mf st ranges d s zero_dst dst_access src_access = Ok (w, log) ->
  (s = d ->
     forallb (fun e => negb (ghost_event_on s e)) log = true /\
     existsb zeroing_event log = false) /\
  (s <> d ->
     (existsb zeroing_event log = true <-> zero_dst = true /\ ranges <> []) /\
     (existsb (ghost_reset_on s) log = true <->
        has_ghost_elements (st s) = false /\
        reset_reaches (make_exchanger mf src_access) (st s) = true) /\
     existsb (ghost_reset_on d) log = false).
Proof.
  intro H; unfold loop in H.
  set (w0 := make_worker mf st s d zero_dst src_access dst_access) in *.
  apply loop_log in H as (ex & gs & cs & Eg & Ec & ->).
  assert (Hsame : src_and_dst_are_same w0 = Nat.eqb s d) by reflexivity.
  assert (Hst : store w0 = st) by reflexivity.
  assert (Hsrc : src w0 = s) by reflexivity.
  assert (Hdst : dst w0 = d) by reflexivity.
  assert (Hsex : src_data_exchanger w0 = make_exchanger mf src_access) by reflexivity.
  assert (Hz : zero_dst_vector_setting w0 = zero_dst && negb (Nat.eqb s d)) by reflexivity.
  rewrite Hsame, Hst, Hsrc, Hdst, Hsex in *.
  pose proof (compress_start_spec _ _ _ s _ Ec) as Cs.
  pose proof (compress_start_spec _ _ _ d _ Ec) as Cd.
  pose proof (compress_finish_spec (dst_data_exchanger w0) st d s) as Fs.
  pose proof (compress_finish_spec (dst_data_exchanger w0) st d d) as Fd.
  destruct (ranges_events_spec w0 ranges s) as [R1 R2].
  destruct (ranges_events_spec w0 ranges d) as [R3 _].
  rewrite Hz in R2.
  split.
  - intro Heq; rewrite <- Heq in *; rewrite Nat.eqb_refl in *; cbn [negb] in *.
    injection Eg as <- <-.
    apply forallb_quiet_split in Cs as [Cs1 Cs2]; apply forallb_quiet_split in Fs as [Fs1 Fs2].
    rewrite !app_nil_l, app_nil_r, !forallb_app, !existsb_app, R1, R2, Cs1, Cs2, Fs1, Fs2,
      andb_false_r; split; reflexivity.
  - intro Hne; apply Nat.eqb_neq in Hne as Hne'; rewrite Hne' in *; cbn [negb] in *.
    pose proof (update_start_spec (make_exchanger mf src_access) st s s) as Us.
    pose proof (update_start_spec (make_exchanger mf src_access) st s d) as Ud.
    rewrite Eg in Us, Ud; destruct Us as (Us1 & U2 & U3 & U4); destruct Ud as (Ud1 & _).
    apply reset_free_no_reset in Us1 as [Gs1 Gs2]; apply reset_free_no_reset in Ud1 as [Gd1 _].
    destruct (reset_free_no_reset s _ (update_finish_spec ex st s s)) as [Hf1 Hf2].
    destruct (reset_free_no_reset d _ (update_finish_spec ex st s d)) as [Hf3 _].
    destruct (reset_spec ex st s s) as [Z1 Z2]; destruct (reset_spec ex st s d) as [_ Z3].
    apply forallb_negb_existsb in Z1.
    pose proof (forallb_quiet_no_reset s _ Cs) as Cs3; pose proof (forallb_quiet_no_reset d _ Cd) as Cd3.
    pose proof (forallb_quiet_no_reset s _ Fs) as Fs3; pose proof (forallb_quiet_no_reset d _ Fd) as Fd3.
    apply forallb_quiet_split in Cs as [_ Cs2]; apply forallb_quiet_split in Fs as [_ Fs2].
    pose proof (no_ghost_no_reset s _ R1) as R4; pose proof (no_ghost_no_reset d _ R3) as R5.
    rewrite (reset_reaches_congr ex (make_exchanger mf src_access)) in Z2 by assumption.
    rewrite U2 in Z2; cbn [ghosts_were_set make_exchanger orb] in Z2.
    rewrite Nat.eqb_refl, andb_true_l in Z2; rewrite Hne', !andb_false_l in Z3.
    rewrite !existsb_app, Gs1, Gs2, Gd1, Hf1, Hf2, Hf3, R2, R4, R5, Cs2, Cs3, Cd3, Fs2, Fs3, Fd3,
      Z1, Z2, Z3, andb_true_r; cbn [orb].
    split; [|split; [|reflexivity]].
    + destruct zero_dst; [|split; [discriminate | intros [H _]; discriminate]].
      destruct ranges; cbn; split; [discriminate | intros [_ H]; congruence | auto | auto].
      intro; split; [reflexivity | discriminate].
    + destruct (has_ghost_elements (st s)), (reset_reaches _ _); cbn; split;
        try discriminate; try (intros [H1 H2]; discriminate); auto.
Qed.


(** Witness of claim C9: [src] and [dst] distinct, no ghosts on entry; the
    source's face-partition ghosts are zeroed after the loop. *)
Lemma mfworker_src_dst_frame_witness :
  exists w log,
    loop Examples.mf_faces Examples.unghosted_store [0; 1] 1 0 true values values = Ok (w, log) /\
    In (ZeroGhostSubset 0) log /\
    (existsb (ghost_reset_on 0) log = true <->
       has_ghost_elements (Examples.unghosted_store 0) = false /\
       reset_reaches (make_exchanger Examples.mf_faces values) (Examples.unghosted_store 0) = true).
Proof.
  destruct (loop Examples.mf_faces Examples.unghosted_store [0; 1] 1 0 true values values)
    as [[w log]|e] eqn:E.
  - exists w, log; split; [reflexivity|]; split.
    + vm_compute in E; injection E as _ <-; simpl; tauto.
    + exact (proj1 (proj2 (proj2 (mfworker_src_dst_frame _ _ _ _ _ _ _ _ _ _ E)
                                  ltac:(discriminate)))).
  - vm_compute in E; discriminate.
Defined.

End MFLoopProofs.

Module VectorFacts.

Lemma length_set_at {A : Type} (v : list A) (k : nat) (x : A) :
  length (set_at v k x) = length v.
Proof.
  revert k; induction v as [|y r IH]; intro k; [reflexivity|].
  destruct k; simpl; [reflexivity | rewrite IH; reflexivity].
Qed.

Lemma nth_set_at {A : Type} (v : list A) (k : nat) (x : A) (d : nat) (dflt : A) :
  nth d (set_at v k x) dflt = if Nat.eqb d k && Nat.ltb k (length v) then x else nth d v dflt.
Proof.
  revert k d; induction v as [|y r IH]; intros k d.
  - simpl; rewrite andb_false_r; destruct d; reflexivity.
  - destruct k as [|k]; destruct d as [|d]; try reflexivity.
    simpl set_at; change (nth (S d) (y :: set_at r k x) dflt) with (nth d (set_at r k x) dflt).
    rewrite IH; reflexivity.
Qed.

Lemma fill_n_full {A : Type} (v : list A) (x : A) : fill_n v (length v) x = repeat x (length v).
Proof. induction v as [|y r IH]; simpl; [reflexivity | rewrite IH; reflexivity]. Qed.

Lemma nth_repeat_lt {A : Type} (x dflt : A) (n d : nat) : d < n -> nth d (repeat x n) dflt = x.
Proof.
  revert d; induction n as [|n IH]; intros d Hd; [lia|].
  destruct d; simpl; [reflexivity | apply IH; lia].
Qed.

(** A loop is a fold of [step] over the writes its iterations make. *)
Lemma fold_flat {S B A : Type} (xs : list B) (F : B -> list A) (step : S -> A -> S)
  (body : S -> B -> S) (s : S) :
  (forall st x, body st x = fold_left step (F x) st) ->
  fold_left body xs s = fold_left step (flat_map F xs) s.
Proof.
  intro Hb; revert s; induction xs as [|x xs IH]; intro s; simpl; [reflexivity|].
  rewrite fold_left_app, <- IH, Hb; reflexivity.
Qed.

Lemma for_range_flat {S A : Type} (n : nat) (F : nat -> list A) (step : S -> A -> S)
  (body : nat -> S -> S) (s : S) :
  (forall i st, body i st = fold_left step (F i) st) ->
  for_range n body s = fold_left step (flat_map F (seq 0 n)) s.
Proof. intro Hb; unfold for_range; apply fold_flat; intros; apply Hb. Qed.

Definition set_true (s : list bool) (k : nat) : list bool := set_at s k true.

Lemma length_fold_set_true (ws : list nat) (v : list bool) :
  length (fold_left set_true ws v) = length v.
Proof.
  revert v; induction ws as [|k ws IH]; intro v; simpl; [reflexivity|].
  rewrite IH; apply length_set_at.
Qed.

Lemma fold_set_true (ws : list nat) (v : list bool) (d : nat) :
  d < length v ->
  (nth d (fold_left set_true ws v) false = true <-> nth d v false = true \/ In d ws).
Proof.
  revert v; induction ws as [|k ws IH]; intros v Hd; simpl.
  - tauto.
  - rewrite IH by (unfold set_true; rewrite length_set_at; exact Hd).
    unfold set_true; rewrite nth_set_at; simpl In.
    destruct (Nat.eqb d k) eqn:E; simpl.
    + apply Nat.eqb_eq in E; subst k.
      replace (Nat.ltb d (length v)) with true by (symmetry; apply Nat.ltb_lt; exact Hd).
      split; [intros _; right; left; reflexivity | intros _; left; reflexivity].
    + apply Nat.eqb_neq in E.
      split; [intros [H|H]; auto | intros [H|[H|H]]; auto; congruence].
Qed.

(** The writes of a conditional assignment loop. *)
Definition cond_writes (n : nat) (P : nat -> bool) (g : nat -> nat) : list nat :=
  flat_map (fun i => if P i then [g i] else []) (seq 0 n).

Lemma for_range_cond (n : nat) (P : nat -> bool) (g : nat -> nat) (s : list bool) :
  for_range n (fun i s1 => if P i then set_at s1 (g i) true else s1) s =
  fold_left set_true (cond_writes n P g) s.
Proof.
  apply for_range_flat; intros i st; destruct (P i); reflexivity.
Qed.

Lemma in_cond_writes (n : nat) (P : nat -> bool) (g : nat -> nat) (d : nat) :
  In d (cond_writes n P g) <-> exists i, i < n /\ P i = true /\ g i = d.
Proof.
  unfold cond_writes; rewrite in_flat_map; split.
  - intros (i & Hi & Hin); apply in_seq in Hi.
    destruct (P i) eqn:E; [|destruct Hin].
    destruct Hin as [<-|[]]; exists i; repeat split; auto; lia.
  - intros (i & Hi & HP & <-); exists i; split; [apply in_seq; lia|].
    rewrite HP; left; reflexivity.
Qed.

Lemma to_nat_eq_iff (x : N) (d : nat) : N.to_nat x = d <-> x = N.of_nat d.
Proof. split; intro H; [subst d; symmetry; apply N2Nat.id | subst x; apply Nat2N.id]. Qed.

End VectorFacts.

Module ExtractProofs.
Import Extract VectorFacts.

Lemma select_on_cells_spec (f : FiniteElement) (cells : list nat) (dof_index : nat -> nat -> N)
  (local_select selected : list bool) :
  length (select_on_cells f cells dof_index local_select selected) = length selected /\
  forall d, d < length selected ->
    (nth d (select_on_cells f cells dof_index local_select selected) false = true <->
     nth d selected false = true \/ selected_on_cells f cells dof_index local_select d).
Proof.
  assert (E : select_on_cells f cells dof_index local_select selected =
              fold_left set_true
                (flat_map (fun c => cond_writes (dofs_per_cell f)
                   (fun i => nth (system_to_component f i) local_select false)
                   (fun i => N.to_nat (dof_index c i))) cells) selected).
  { unfold select_on_cells; apply fold_flat; intros st c; apply for_range_cond. }
  rewrite E; split; [apply length_fold_set_true|].
  intros d Hd; rewrite fold_set_true by exact Hd.
  apply or_iff_compat_l; rewrite in_flat_map; unfold selected_on_cells; split.
  - intros (c & Hc & Hin); apply in_cond_writes in Hin.
    destruct Hin as (i & Hi & Hs & Heq); apply to_nat_eq_iff in Heq; eauto 6.
  - intros (c & i & Hc & Hi & Hs & Heq); exists c; split; [exact Hc|].
    apply in_cond_writes; exists i; repeat split; auto; apply to_nat_eq_iff; exact Heq.
Qed.

Lemma select_from_cleared (f : FiniteElement) (cells : list nat) (dof_index : nat -> nat -> N)
  (local_select : list bool) (n : nat) :
  let sel := select_on_cells f cells dof_index local_select (repeat false n) in
  length sel = n /\
  forall d, d < n -> (nth d sel false = true <-> selected_on_cells f cells dof_index local_select d).
Proof.
  destruct (select_on_cells_spec f cells dof_index local_select (repeat false n)) as [L H].
  rewrite repeat_length in L; split; [exact L|].
  intros d Hd; rewrite H by (rewrite repeat_length; exact Hd).
  rewrite nth_repeat_lt by exact Hd; split; [intros [H1|H1]; [discriminate|exact H1] | auto].
Qed.

Lemma cleared_selection (f : FiniteElement) (cells : list nat) (dof_index : nat -> nat -> N)
  (local_select selected_dofs : list bool) (n : N) :
  N.of_nat (length selected_dofs) = n ->
  let sel := select_on_cells f cells dof_index local_select (fill_n selected_dofs (N.to_nat n) false) in
  length sel = length selected_dofs /\
  forall d, d < length selected_dofs ->
    (nth d sel false = true <-> selected_on_cells f cells dof_index local_select d).
Proof.
  intros Hn; subst n; rewrite Nat2N.id, fill_n_full; apply select_from_cleared.
Qed.

(** The selection written by the boundary face loop. *)
Definition boundary_writes (h : FaceDoFHandler) (component_select : list bool) : list nat :=
  flat_map (fun c =>
    flat_map (fun face =>
      if cell_at_boundary h c face
      then cond_writes (dofs_per_face (fe (fdof h)))
             (fun i => nth (face_system_to_component h i) component_select false)
             (fun i => N.to_nat (face_dof_index h c face i))
      else [])
      (seq 0 (faces_per_cell (fdim h))))
    (active_cells (fdof h)).

Lemma in_boundary_writes (h : FaceDoFHandler) (component_select : list bool) (d : nat) :
  In d (boundary_writes h component_select) <-> on_boundary_face h component_select d.
Proof.
  unfold boundary_writes, on_boundary_face; rewrite in_flat_map; split.
  - intros (c & Hc & Hin); rewrite in_flat_map in Hin.
    destruct Hin as (face & Hface & Hin); apply in_seq in Hface.
    destruct (cell_at_boundary h c face) eqn:Eb; [|destruct Hin].
    apply in_cond_writes in Hin; destruct Hin as (i & Hi & Hs & Heq).
    apply to_nat_eq_iff in Heq.
    exists c, face, i; repeat split; auto; lia.
  - intros (c & face & i & Hc & Hface & Hb & Hi & Hs & Heq).
    exists c; split; [exact Hc|]; apply in_flat_map; exists face.
    split; [apply in_seq; lia|]; rewrite Hb; apply in_cond_writes.
    exists i; repeat split; auto; apply to_nat_eq_iff; exact Heq.
Qed.

(** The selection written by the loop over the coarse cells in 1D. *)
Definition vertex_writes (h : LineDoFHandler) (component_select : list bool) (c v : nat) : list nat :=
  if neighbor_is_end h c v
  then cond_writes (dofs_per_face (fe (ldof h)))
         (fun i => nth (face_system_to_component1 h i) component_select false)
         (fun i => N.to_nat (vertex_dof_index1 h c v i))
  else [].

Lemma check_vertex_writes (h : LineDoFHandler) (component_select : list bool) (c v : nat)
  (s : list bool) :
  check_vertex h component_select c v s = fold_left set_true (vertex_writes h component_select c v) s.
Proof.
  unfold check_vertex, vertex_writes; destruct (neighbor_is_end h c v); [apply for_range_cond | reflexivity].
Qed.

Lemma in_vertex_writes (h : LineDoFHandler) (component_select : list bool) (d : nat) :
  In d (flat_map (fun c => vertex_writes h component_select c 0 ++ vertex_writes h component_select c 1)
                 (coarse_cells1 h)) <->
  on_outer_vertex h component_select d.
Proof.
  unfold on_outer_vertex; rewrite in_flat_map.
  assert (Hv : forall c v, In d (vertex_writes h component_select c v) <->
             neighbor_is_end h c v = true /\
             exists i, i < dofs_per_face (fe (ldof h)) /\
               nth (face_system_to_component1 h i) component_select false = true /\
               vertex_dof_index1 h c v i = N.of_nat d).
  { intros c v; unfold vertex_writes; destruct (neighbor_is_end h c v).
    - rewrite in_cond_writes; split.
      + intros (i & Hi & Hs & Heq); apply to_nat_eq_iff in Heq; split; eauto.
      + intros (_ & i & Hi & Hs & Heq); apply to_nat_eq_iff in Heq; eauto.
    - simpl; split; [tauto | intros [H _]; discriminate]. }
  split.
  - intros (c & Hc & Hin); apply in_app_iff in Hin.
    destruct Hin as [Hin|Hin]; apply Hv in Hin; destruct Hin as (Hn & i & Hi & Hs & Heq).
    + exists c, 0, i; repeat split; auto.
    + exists c, 1, i; repeat split; auto.
  - intros (c & v & i & Hc & Hv2 & Hn & Hi & Hs & Heq).
    exists c; split; [exact Hc|]; apply in_app_iff.
    destruct v as [|[|v]]; [left | right | lia]; apply Hv; split; eauto.
Qed.

(** Extra X1: [extract_dofs] fails with [ExcDimensionMismatch] when
    [local_select] does not have one entry per component or [selected_dofs]
    one entry per DoF; otherwise it returns a vector of the same size whose
    entry [d] is true exactly when [d] is the global index of a local DoF of a
    selected component on some active cell, whatever [selected_dofs] held. *)
Theorem extract_dofs_spec (dof : DoFHandler) (local_select selected_dofs : list bool) :
  (length local_select <> n_components (fe dof) ->
     extract_dofs dof local_select selected_dofs =
     Err (ExcDimensionMismatch (N.of_nat (length local_select)) (N.of_nat (n_components (fe dof))))) /\
  (length local_select = n_components (fe dof) -> N.of_nat (length selected_dofs) <> n_dofs dof ->
     extract_dofs dof local_select selected_dofs =
     Err (ExcDimensionMismatch (N.of_nat (length selected_dofs)) (n_dofs dof))) /\
  (length local_select = n_components (fe dof) -> N.of_nat (length selected_dofs) = n_dofs dof ->
     exists sel, extract_dofs dof local_select selected_dofs = Ok sel /\
       length sel = length selected_dofs /\
       forall d, d < length selected_dofs ->
         (nth d sel false = true <->
          selected_on_cells (fe dof) (active_cells dof) (dof_on dof) local_select d)).
Proof.
  unfold extract_dofs; split; [|split].
  - intro Hne; apply Nat.eqb_neq in Hne; rewrite Hne; reflexivity.
  - intros Heq Hne; apply Nat.eqb_eq in Heq; apply N.eqb_neq in Hne; rewrite Heq, Hne; reflexivity.
  - intros Heq Hn; rewrite (proj2 (Nat.eqb_eq _ _) Heq), (proj2 (N.eqb_eq _ _) Hn).
    eexists; split; [reflexivity|]; apply cleared_selection; exact Hn.
Qed.

(** Extra X2: [extract_level_dofs] behaves as [extract_dofs] on the cells of
    the given level and their level DoF indices: it fails with
    [ExcDimensionMismatch] on a wrong [local_select] or [selected_dofs] size,
    and otherwise selects exactly the level DoFs of a selected component on
    some cell of the level. *)
Theorem extract_level_dofs_spec (level : nat) (dof : MGDoFHandler)
  (local_select selected_dofs : list bool) :
  (length local_select <> n_components (mg_fe dof) ->
     extract_level_dofs level dof local_select selected_dofs =
     Err (ExcDimensionMismatch (N.of_nat (length local_select)) (N.of_nat (n_components (mg_fe dof))))) /\
  (length local_select = n_components (mg_fe dof) ->
     N.of_nat (length selected_dofs) <> mg_n_dofs dof level ->
     extract_level_dofs level dof local_select selected_dofs =
     Err (ExcDimensionMismatch (N.of_nat (length selected_dofs)) (mg_n_dofs dof level))) /\
  (length local_select = n_components (mg_fe dof) ->
     N.of_nat (length selected_dofs) = mg_n_dofs dof level ->
     exists sel, extract_level_dofs level dof local_select selected_dofs = Ok sel /\
       length sel = length selected_dofs /\
       forall d, d < length selected_dofs ->
         (nth d sel false = true <->
          selected_on_cells (mg_fe dof) (level_cells dof level) (mg_dof_index dof level)
                            local_select d)).
Proof.
  unfold extract_level_dofs; split; [|split].
  - intro Hne; apply Nat.eqb_neq in Hne; rewrite Hne; reflexivity.
  - intros Heq Hne; apply Nat.eqb_eq in Heq; apply N.eqb_neq in Hne; rewrite Heq, Hne; reflexivity.
  - intros Heq Hn; rewrite (proj2 (Nat.eqb_eq _ _) Heq), (proj2 (N.eqb_eq _ _) Hn).
    eexists; split; [reflexivity|]; apply cleared_selection; exact Hn.
Qed.

(** Extra X3: [extract_boundary_dofs] (2D and 3D) fails with [ExcWrongSize]
    when [component_select] does not have one entry per component; otherwise
    it returns a vector with one entry per DoF, whatever [selected_dofs] held
    before, whose entry [d] is true exactly when [d] is a DoF of a selected
    component on a boundary face of an active cell. *)
Theorem extract_boundary_dofs_spec (h : FaceDoFHandler) (component_select selected_dofs : list bool) :
  (length component_select <> n_components (fe (fdof h)) ->
     extract_boundary_dofs h component_select selected_dofs =
     Err (ExcWrongSize (N.of_nat (length component_select)) (N.of_nat (n_components (fe (fdof h)))))) /\
  (length component_select = n_components (fe (fdof h)) ->
     exists sel, extract_boundary_dofs h component_select selected_dofs = Ok sel /\
       length sel = N.to_nat (n_dofs (fdof h)) /\
       forall d, d < N.to_nat (n_dofs (fdof h)) ->
         (nth d sel false = true <-> on_boundary_face h component_select d)).
Proof.
  unfold extract_boundary_dofs; split.
  - intro Hne; apply Nat.eqb_neq in Hne; rewrite Hne; reflexivity.
  - intro Heq; rewrite (proj2 (Nat.eqb_eq _ _) Heq).
    eexists; split; [reflexivity|].
    set (n := N.to_nat (n_dofs (fdof h))).
    rewrite (fold_flat _ (fun c =>
               flat_map (fun face =>
                 if cell_at_boundary h c face
                 then cond_writes (dofs_per_face (fe (fdof h)))
                        (fun i => nth (face_system_to_component h i) component_select false)
                        (fun i => N.to_nat (face_dof_index h c face i))
                 else []) (seq 0 (faces_per_cell (fdim h)))) set_true).
    + fold (boundary_writes h component_select).
      split; [rewrite length_fold_set_true, repeat_length; reflexivity|].
      intros d Hd; rewrite fold_set_true by (rewrite repeat_length; exact Hd).
      rewrite nth_repeat_lt by exact Hd; rewrite in_boundary_writes.
      split; [intros [H|H]; [discriminate | exact H] | auto].
    + intros st c; apply for_range_flat; intros face st1.
      destruct (cell_at_boundary h c face); [apply for_range_cond | reflexivity].
Qed.

(** Extra X4: the 1D [extract_boundary_dofs] fails with [ExcWrongSize] on a
    wrong [component_select] size and with [ExcInternalError] when
    [dofs_per_face != dofs_per_vertex]; otherwise it selects exactly the DoFs
    of a selected component on the left vertex of a coarse cell without left
    neighbor or on the right vertex of a coarse cell without right neighbor. *)
Theorem extract_boundary_dofs_1d_spec (h : LineDoFHandler) (component_select selected_dofs : list bool) :
  (length component_select <> n_components (fe (ldof h)) ->
     extract_boundary_dofs_1d h component_select selected_dofs =
     Err (ExcWrongSize (N.of_nat (length component_select)) (N.of_nat (n_components (fe (ldof h)))))) /\
  (length component_select = n_components (fe (ldof h)) ->
     dofs_per_face (fe (ldof h)) <> dofs_per_vertex1 h ->
     extract_boundary_dofs_1d h component_select selected_dofs = Err ExcInternalError) /\
  (length component_select = n_components (fe (ldof h)) ->
     dofs_per_face (fe (ldof h)) = dofs_per_vertex1 h ->
     exists sel, extract_boundary_dofs_1d h component_select selected_dofs = Ok sel /\
       length sel = N.to_nat (n_dofs (ldof h)) /\
       forall d, d < N.to_nat (n_dofs (ldof h)) ->
         (nth d sel false = true <-> on_outer_vertex h component_select d)).
Proof.
  unfold extract_boundary_dofs_1d; split; [|split].
  - intro Hne; apply Nat.eqb_neq in Hne; rewrite Hne; reflexivity.
  - intros Heq Hne; apply Nat.eqb_neq in Hne; rewrite (proj2 (Nat.eqb_eq _ _) Heq), Hne; reflexivity.
  - intros Heq Hd; rewrite (proj2 (Nat.eqb_eq _ _) Heq), (proj2 (Nat.eqb_eq _ _) Hd).
    eexists; split; [reflexivity|].
    rewrite (fold_flat _ (fun c => vertex_writes h component_select c 0 ++
                                   vertex_writes h component_select c 1) set_true).
    + split; [rewrite length_fold_set_true, repeat_length; reflexivity|].
      intros d Hdn; rewrite fold_set_true by (rewrite repeat_length; exact Hdn).
      rewrite nth_repeat_lt by exact Hdn; rewrite in_vertex_writes.
      split; [intros [H|H]; [discriminate | exact H] | auto].
    + intros st c; rewrite fold_left_app, <- !check_vertex_writes; reflexivity.
Qed.

End ExtractProofs.

Module DistributeProofs.
Import Distribute VectorFacts.

(** One addition [dof_data(k) += v; ++touch_count[k]]. *)
Definition add_step (st : list Q * list nat) (w : nat * Q) : list Q * list nat :=
  let '(dd, tc) := st in
  let '(k, v) := w in
  (set_at dd k (nth k dd 0 + v)%Q, set_at tc k ((nth k tc 0 + 1) mod 256)).

Definition cell_summands (dof : DoFHandler) (cell_data : list Q) (component : nat)
  (pc_cell : nat * nat) : list (nat * Q) :=
  let f := fe dof in
  let consider_components := negb (Nat.eqb (n_components f) 1) in
  let '(present_cell, cell) := pc_cell in
  flat_map (fun i =>
    if negb consider_components || Nat.eqb (system_to_component f i) component
    then [(N.to_nat (dof_on dof cell i), nth present_cell cell_data 0%Q)] else [])
    (seq 0 (dofs_per_cell f)).

Lemma summands_cells (dof : DoFHandler) (cell_data : list Q) (component : nat) :
  summands dof cell_data component =
  flat_map (cell_summands dof cell_data component)
    (combine (seq 0 (length (active_cells dof))) (active_cells dof)).
Proof.
  unfold summands; apply flat_map_ext; intros [pc c]; reflexivity.
Qed.

Lemma cell_step_adds (dof : DoFHandler) (cell_data : list Q) (component : nat)
  (dd : list Q) (tc : list nat) (p c : nat) :
  cell_step dof cell_data component (negb (Nat.eqb (n_components (fe dof)) 1)) (dd, tc, p) c =
  (fst (fold_left add_step (cell_summands dof cell_data component (p, c)) (dd, tc)),
   snd (fold_left add_step (cell_summands dof cell_data component (p, c)) (dd, tc)), S p).
Proof.
  unfold cell_step, cell_summands, for_range.
  rewrite (fold_flat _ (fun i =>
    if negb (negb (Nat.eqb (n_components (fe dof)) 1)) ||
       Nat.eqb (system_to_component (fe dof) i) component
    then [(N.to_nat (dof_on dof c i), nth p cell_data 0%Q)] else []) add_step).
  - destruct (fold_left add_step _ (dd, tc)); reflexivity.
  - intros [dd1 tc1] i; destruct (_ || _); reflexivity.
Qed.

Lemma cells_adds (dof : DoFHandler) (cell_data : list Q) (component : nat) (cells : list nat) :
  forall dd tc p,
  fold_left (cell_step dof cell_data component (negb (Nat.eqb (n_components (fe dof)) 1)))
    cells (dd, tc, p) =
  (fst (fold_left add_step
          (flat_map (cell_summands dof cell_data component) (combine (seq p (length cells)) cells))
          (dd, tc)),
   snd (fold_left add_step
          (flat_map (cell_summands dof cell_data component) (combine (seq p (length cells)) cells))
          (dd, tc)),
   p + length cells).
Proof.
  induction cells as [|c cells IH]; intros dd tc p.
  - simpl; f_equal; lia.
  - cbn [fold_left length seq combine flat_map]; rewrite cell_step_adds, IH, fold_left_app.
    destruct (fold_left add_step (cell_summands dof cell_data component (p, c)) (dd, tc)) as [dd1 tc1].
    simpl; f_equal; lia.
Qed.

Lemma add_step_lengths (ws : list (nat * Q)) :
  forall dd tc, length (fst (fold_left add_step ws (dd, tc))) = length dd /\
                length (snd (fold_left add_step ws (dd, tc))) = length tc.
Proof.
  induction ws as [|[k v] ws IH]; intros dd tc; simpl; [auto|].
  rewrite !(proj1 (IH _ _)), !(proj2 (IH _ _)), !length_set_at; auto.
Qed.

(** The sums and the wrapping counts after the additions. *)
Lemma add_step_at (ws : list (nat * Q)) (d : nat) :
  forall dd tc, d < length dd -> d < length tc -> nth d tc 0 < 256 ->
  nth d (fst (fold_left add_step ws (dd, tc))) 0%Q =
    fold_left Qplus (map snd (filter (fun s => Nat.eqb (fst s) d) ws)) (nth d dd 0%Q) /\
  nth d (snd (fold_left add_step ws (dd, tc))) 0 =
    (nth d tc 0 + length (filter (fun s => Nat.eqb (fst s) d) ws)) mod 256.
Proof.
  induction ws as [|[k v] ws IH]; intros dd tc Hd Ht H256.
  - simpl fold_left; simpl filter; simpl map; simpl length.
    rewrite Nat.add_0_r, Nat.mod_small by exact H256; auto.
  - change (fold_left add_step ((k, v) :: ws) (dd, tc)) with
      (fold_left add_step ws (set_at dd k (nth k dd 0 + v)%Q, set_at tc k ((nth k tc 0 + 1) mod 256))).
    change (filter (fun s => Nat.eqb (fst s) d) ((k, v) :: ws)) with
      (if Nat.eqb k d then (k, v) :: filter (fun s => Nat.eqb (fst s) d) ws
       else filter (fun s => Nat.eqb (fst s) d) ws).
    destruct (IH (set_at dd k (nth k dd 0 + v)%Q) (set_at tc k ((nth k tc 0 + 1) mod 256)))
      as [IH1 IH2]; try rewrite length_set_at; auto.
    + rewrite nth_set_at; destruct (Nat.eqb d k && Nat.ltb k (length tc)); auto.
      apply Nat.mod_upper_bound; discriminate.
    + rewrite IH1, IH2, !nth_set_at.
      destruct (Nat.eqb d k) eqn:Edk; cbn [andb].
      * apply Nat.eqb_eq in Edk; subst k.
        rewrite (proj2 (Nat.ltb_lt _ _) Hd), (proj2 (Nat.ltb_lt _ _) Ht).
        rewrite Nat.eqb_refl; cbn [map fold_left length snd]; split; [reflexivity|].
        rewrite Nat.Div0.add_mod_idemp_l; f_equal; lia.
      * rewrite Nat.eqb_sym, Edk; split; reflexivity.
Qed.

Lemma fold_assert_Err {S : Type} (body : nat -> S -> result S) (l : list nat) (e : exc) :
  fold_left (fun acc i => bind acc (body i)) l (Err e) = Err e.
Proof. induction l as [|a l IH]; simpl; auto. Qed.

(** A loop whose body is an assertion followed by an update. *)
Lemma for_assert (ok : nat -> bool) (e : exc) (g : nat -> list Q -> list Q) (l : list nat) :
  forall v,
  fold_left (fun acc i => bind acc (fun x => Assert (ok i, e) ;; Ok (g i x))) l (Ok v) =
  if forallb ok l then Ok (fold_left (fun x i => g i x) l v) else Err e.
Proof.
  induction l as [|a l IH]; intro v; simpl; [reflexivity|].
  destruct (ok a); simpl; [apply IH | apply fold_assert_Err].
Qed.

Lemma divide_loop_length (tc : list nat) (l : list nat) :
  forall v,
  length (fold_left (fun x i => if negb (Nat.eqb (nth i tc 0) 0)
     then set_at x i (nth i x 0%Q / inject_Z (Z.of_nat (nth i tc 0%nat)))%Q else x) l v) = length v.
Proof.
  induction l as [|a l IH]; intro v; simpl; [reflexivity|].
  rewrite IH; destruct (negb _); [apply length_set_at | reflexivity].
Qed.

(** The division loop touches entry [i] only at step [i]. *)
Lemma divide_loop (tc : list nat) (l : list nat) :
  NoDup l ->
  forall v d, d < length v ->
  length (fold_left (fun x i => if negb (Nat.eqb (nth i tc 0) 0)
     then set_at x i (nth i x 0%Q / inject_Z (Z.of_nat (nth i tc 0%nat)))%Q else x) l v) = length v /\
  nth d (fold_left (fun x i => if negb (Nat.eqb (nth i tc 0) 0)
     then set_at x i (nth i x 0%Q / inject_Z (Z.of_nat (nth i tc 0%nat)))%Q else x) l v) 0%Q =
  if negb (Nat.eqb (nth d tc 0) 0) && existsb (Nat.eqb d) l
  then (nth d v 0%Q / inject_Z (Z.of_nat (nth d tc 0%nat)))%Q else nth d v 0%Q.
Proof.
  induction 1 as [|a l Ha Hnd IH]; intros v d Hd; simpl.
  - rewrite andb_false_r; auto.
  - set (v1 := if negb (Nat.eqb (nth a tc 0) 0)
                then set_at v a (nth a v 0%Q / inject_Z (Z.of_nat (nth a tc 0%nat)))%Q else v).
    assert (Hl1 : length v1 = length v)
      by (unfold v1; destruct (negb _); [apply length_set_at | reflexivity]).
    destruct (IH v1 d) as [IHl IHn]; [lia|]; rewrite IHl, IHn; split; [exact Hl1|].
    assert (Hv1 : forall d', d' < length v -> nth d' v1 0%Q =
               if negb (Nat.eqb (nth a tc 0) 0) && Nat.eqb d' a
               then (nth a v 0%Q / inject_Z (Z.of_nat (nth a tc 0%nat)))%Q else nth d' v 0%Q).
    { intros d' Hd'; unfold v1; destruct (negb (Nat.eqb (nth a tc 0) 0)); simpl; [|reflexivity].
      rewrite nth_set_at; destruct (Nat.eqb d' a) eqn:E; simpl; [|reflexivity].
      apply Nat.eqb_eq in E; subst d'; rewrite (proj2 (Nat.ltb_lt _ _) Hd'); reflexivity. }
    destruct (Nat.eqb d a) eqn:Eda.
    + apply Nat.eqb_eq in Eda; subst d.
      assert (Hn : existsb (Nat.eqb a) l = false).
      { apply not_true_iff_false; intro H; apply existsb_exists in H.
        destruct H as (x & Hx & Ex); apply Nat.eqb_eq in Ex; subst x; contradiction. }
      rewrite Hn, andb_false_r, (Hv1 a Hd), !Nat.eqb_refl, ?orb_false_r, ?andb_true_r; simpl.
      destruct (negb (Nat.eqb (nth a tc 0) 0)); reflexivity.
    + rewrite (Hv1 d Hd), Eda, !andb_false_r; simpl; reflexivity.
Qed.

Lemma forallb_false_ex {A : Type} (f : A -> bool) (l : list A) :
  forallb f l = false -> exists x, In x l /\ f x = false.
Proof.
  induction l as [|a l IH]; simpl; [discriminate|].
  destruct (f a) eqn:E; simpl; intro H.
  - destruct (IH H) as (x & Hx & Hf); exists x; auto.
  - exists a; auto.
Qed.

Lemma existsb_seq (d n : nat) : d < n -> existsb (Nat.eqb d) (seq 0 n) = true.
Proof.
  intro H; apply existsb_exists; exists d; split; [apply in_seq; lia | apply Nat.eqb_refl].
Qed.

(** The vectors after the cell loop of [distribute_cell_to_dof_vector]. *)
Lemma cell_loop_result (dof : DoFHandler) (cell_data dof_data : list Q) (component : nat) :
  length dof_data = N.to_nat (n_dofs dof) ->
  let '(dd, tc, _) :=
    fold_left (cell_step dof cell_data component (negb (Nat.eqb (n_components (fe dof)) 1)))
      (active_cells dof) (dof_data, repeat 0 (N.to_nat (n_dofs dof)), 0) in
  length dd = N.to_nat (n_dofs dof) /\ length tc = N.to_nat (n_dofs dof) /\
  forall d, d < N.to_nat (n_dofs dof) ->
    nth d dd 0%Q = fold_left Qplus (contributions dof cell_data component d) (nth d dof_data 0%Q) /\
    nth d tc 0 = length (contributions dof cell_data component d) mod 256.
Proof.
  intro Hlen; rewrite cells_adds; simpl.
  rewrite <- summands_cells.
  destruct (add_step_lengths (summands dof cell_data component) dof_data
              (repeat 0 (N.to_nat (n_dofs dof)))) as [L1 L2].
  split; [lia|]; split; [rewrite L2, repeat_length; reflexivity|].
  intros d Hd; unfold contributions; rewrite length_map.
  destruct (add_step_at (summands dof cell_data component) d dof_data
              (repeat 0 (N.to_nat (n_dofs dof)))) as [A1 A2];
    try rewrite repeat_length; try lia.
  - rewrite nth_repeat_lt by exact Hd; lia.
  - rewrite A1, A2, nth_repeat_lt by exact Hd; auto.
Qed.

(** Extra X5: with sizes and component valid,
    [distribute_cell_to_dof_vector] succeeds (for a
    scalar element, when every DoF is counted a number of times that is not a
    multiple of 256) and sets [dof_data(d)] to the incoming [dof_data(d)]
    plus the values of the cells that contributed to [d], divided by their
    number taken modulo 256 (the [unsigned char] counter), left undivided
    when that number is 0. Arithmetic is exact (rationals). *)
Theorem distribute_cell_to_dof_vector_mean (dof : DoFHandler) (cell_data dof_data : list Q)
  (component : nat) :
  length cell_data = length (active_cells dof) ->
  length dof_data = N.to_nat (n_dofs dof) ->
  component < n_components (fe dof) ->
  (n_components (fe dof) <> 1 \/
   forall d, d < N.to_nat (n_dofs dof) ->
     length (contributions dof cell_data component d) mod 256 <> 0) ->
  exists out, distribute_cell_to_dof_vector dof cell_data dof_data component = Ok out /\
    length out = N.to_nat (n_dofs dof) /\
    forall d, d < N.to_nat (n_dofs dof) ->
      nth d out 0%Q =
      let s := fold_left Qplus (contributions dof cell_data component d) (nth d dof_data 0%Q) in
      let k := length (contributions dof cell_data component d) mod 256 in
      if Nat.eqb k 0 then s else (s / inject_Z (Z.of_nat k))%Q.
Proof.
  intros Hc Hd Hcomp Hcount.
  unfold distribute_cell_to_dof_vector.
  rewrite (proj2 (Nat.eqb_eq _ _) Hc), (proj2 (Nat.eqb_eq _ _) Hd), (proj2 (Nat.ltb_lt _ _) Hcomp).
  cbv zeta.
  pose proof (cell_loop_result dof cell_data dof_data component Hd) as Hloop.
  destruct (fold_left _ (active_cells dof) _) as [[dd tc] p].
  destruct Hloop as (Ldd & Ltc & Hat).
  unfold for_range_r; rewrite for_assert.
  replace (forallb _ (seq 0 (N.to_nat (n_dofs dof)))) with true.
  - eexists; split; [reflexivity|].
    split; [rewrite divide_loop_length; exact Ldd|].
    intros d Hdn.
    rewrite (proj2 (divide_loop tc _ (seq_NoDup _ 0) dd d ltac:(lia))).
    rewrite existsb_seq by exact Hdn; rewrite andb_true_r.
    destruct (Hat d Hdn) as [Hs Ht]; rewrite Hs, Ht.
    destruct (Nat.eqb _ 0); reflexivity.
  - symmetry; apply forallb_forall; intros i Hi; apply in_seq in Hi.
    destruct Hcount as [Hnc|Hall].
    + apply Nat.eqb_neq in Hnc; rewrite Hnc; reflexivity.
    + destruct (Hat i ltac:(lia)) as [_ Ht]; rewrite Ht.
      apply orb_true_iff; right; apply negb_true_iff, Nat.eqb_neq, Hall; lia.
Qed.

(** Extra X6: [distribute_cell_to_dof_vector] checks, in this order, that
    [cell_data] has one entry per active cell and [dof_data] one per DoF
    ([ExcWrongSize]) and that [component] is a component of the element
    ([ExcInvalidComponent]); for a scalar element it then fails with
    [ExcInternalError] exactly when some DoF received a number of
    contributions that is a multiple of 256 (none at all, or a wrapped
    [unsigned char] counter). *)
Theorem distribute_cell_to_dof_vector_errors (dof : DoFHandler) (cell_data dof_data : list Q)
  (component : nat) :
  (length cell_data <> length (active_cells dof) ->
     distribute_cell_to_dof_vector dof cell_data dof_data component =
     Err (ExcWrongSize (N.of_nat (length cell_data)) (N.of_nat (length (active_cells dof))))) /\
  (length cell_data = length (active_cells dof) -> length dof_data <> N.to_nat (n_dofs dof) ->
     distribute_cell_to_dof_vector dof cell_data dof_data component =
     Err (ExcWrongSize (N.of_nat (length dof_data)) (n_dofs dof))) /\
  (length cell_data = length (active_cells dof) -> length dof_data = N.to_nat (n_dofs dof) ->
     n_components (fe dof) <= component ->
     distribute_cell_to_dof_vector dof cell_data dof_data component =
     Err (ExcInvalidComponent (N.of_nat component) (N.of_nat (n_components (fe dof))))) /\
  (length cell_data = length (active_cells dof) -> length dof_data = N.to_nat (n_dofs dof) ->
     n_components (fe dof) = 1 -> component = 0 ->
     (distribute_cell_to_dof_vector dof cell_data dof_data component = Err ExcInternalError <->
      exists d, d < N.to_nat (n_dofs dof) /\
        length (contributions dof cell_data component d) mod 256 = 0)).
Proof.
  unfold distribute_cell_to_dof_vector; split; [|split; [|split]].
  - intro Hne; apply Nat.eqb_neq in Hne; rewrite Hne; reflexivity.
  - intros Hc Hne; apply Nat.eqb_neq in Hne; rewrite (proj2 (Nat.eqb_eq _ _) Hc), Hne; reflexivity.
  - intros Hc Hd Hcomp; rewrite (proj2 (Nat.eqb_eq _ _) Hc), (proj2 (Nat.eqb_eq _ _) Hd).
    replace (Nat.ltb component (n_components (fe dof))) with false
      by (symmetry; apply Nat.ltb_ge; exact Hcomp); reflexivity.
  - intros Hc Hd Hnc Hcomp.
    rewrite (proj2 (Nat.eqb_eq _ _) Hc), (proj2 (Nat.eqb_eq _ _) Hd).
    rewrite (proj2 (Nat.ltb_lt component (n_components (fe dof))) ltac:(lia)).
    cbv zeta.
    pose proof (cell_loop_result dof cell_data dof_data component Hd) as Hloop.
    destruct (fold_left _ (active_cells dof) _) as [[dd tc] p].
    destruct Hloop as (Ldd & Ltc & Hat).
    unfold for_range_r; rewrite for_assert.
    rewrite Hnc; simpl negb; cbn [orb].
    destruct (forallb _ (seq 0 (N.to_nat (n_dofs dof)))) eqn:Hall.
    + split; [discriminate|].
      intros (d & Hdn & H0); rewrite forallb_forall in Hall.
      specialize (Hall d ltac:(apply in_seq; lia)).
      destruct (Hat d Hdn) as [_ Ht]; rewrite Ht, H0 in Hall; discriminate.
    + split; [intros _|reflexivity].
      apply forallb_false_ex in Hall; destruct Hall as (d & Hin & Hd'); exists d.
      apply in_seq in Hin; split; [lia|].
      destruct (Hat d ltac:(lia)) as [_ Ht]; rewrite <- Ht.
      apply negb_false_iff, Nat.eqb_eq in Hd'; exact Hd'.
Qed.

Lemma distribute_cell_to_dof_vector_mean_witness :
  exists out,
    distribute_cell_to_dof_vector Examples.two_cells_dof [1; 3]%Q (repeat 0%Q 6) 0 = Ok out /\
    length out = 6 /\
    forall d, d < 6 ->
      nth d out 0%Q =
      let s := fold_left Qplus (contributions Examples.two_cells_dof [1; 3]%Q 0 d)
                 (nth d (repeat 0%Q 6) 0%Q) in
      let k := length (contributions Examples.two_cells_dof [1; 3]%Q 0 d) mod 256 in
      if Nat.eqb k 0 then s else (s / inject_Z (Z.of_nat k))%Q.
Proof.
  apply (distribute_cell_to_dof_vector_mean Examples.two_cells_dof [1; 3]%Q (repeat 0%Q 6) 0).
  - reflexivity.
  - reflexivity.
  - vm_compute; lia.
  - right; intros d Hd H; vm_compute in Hd.
    do 6 (destruct d as [|d]; [vm_compute in H; discriminate|]); lia.
Defined.

End DistributeProofs.

Module IntergridSetupProofs.
Import IntergridSetup VectorFacts.

(** The fine DoFs visited by both loops, in order. *)
Definition parameter_writes (fine_grid : DoFHandler) (fine_component : nat) : list nat :=
  flat_map (fun cell =>
    cond_writes (dofs_per_cell (fe fine_grid))
      (fun i => Nat.eqb (system_to_component (fe fine_grid) i) fine_component)
      (fun i => N.to_nat (dof_on fine_grid cell i)))
    (active_cells fine_grid).

Lemma in_parameter_writes (fine_grid : DoFHandler) (fine_component d : nat) :
  In d (parameter_writes fine_grid fine_component) <-> parameter_dof fine_grid fine_component d.
Proof.
  unfold parameter_writes, parameter_dof; rewrite in_flat_map; split.
  - intros (c & Hc & Hin); apply in_cond_writes in Hin.
    destruct Hin as (i & Hi & Hs & Heq); apply Nat.eqb_eq in Hs; apply to_nat_eq_iff in Heq.
    exists c, i; auto.
  - intros (c & i & Hc & Hi & Hs & Heq); exists c; split; [exact Hc|].
    apply in_cond_writes; exists i; split; [exact Hi|]; split;
      [apply Nat.eqb_eq; exact Hs | apply to_nat_eq_iff; exact Heq].
Qed.

Lemma dof_is_interesting_writes (fine_grid : DoFHandler) (fine_component : nat) :
  dof_is_interesting fine_grid fine_component =
  fold_left set_true (parameter_writes fine_grid fine_component)
    (repeat false (N.to_nat (n_dofs fine_grid))).
Proof.
  unfold dof_is_interesting, parameter_writes; apply fold_flat; intros st c.
  apply for_range_cond.
Qed.

(** The numbering step for one visited DoF [k]. *)
Definition number_step (st : list Z * nat) (k : nat) : list Z * nat :=
  let '(weight_mapping, next_free_index) := st in
  if Z.eqb (nth k weight_mapping (-1)%Z) (-1)%Z
  then (set_at weight_mapping k (Z.of_nat next_free_index), S next_free_index)
  else (weight_mapping, next_free_index).

Lemma number_parameters_writes (fine_grid : DoFHandler) (fine_component : nat) :
  number_parameters fine_grid fine_component =
  fold_left number_step (parameter_writes fine_grid fine_component)
    (repeat (-1)%Z (N.to_nat (n_dofs fine_grid)), 0).
Proof.
  unfold number_parameters, parameter_writes; apply fold_flat; intros st c.
  unfold cond_writes; apply for_range_flat; intros i [wm nfi].
  destruct (Nat.eqb (system_to_component (fe fine_grid) i) fine_component); reflexivity.
Qed.

Definition assigned (wm : list Z) (d : nat) : bool := negb (Z.eqb (nth d wm (-1)%Z) (-1)%Z).

(** [weight_mapping] numbers the DoFs it has seen bijectively onto
    [0 .. next_free_index - 1]. *)
Definition numbering_inv (n : nat) (wm : list Z) (nfi : nat) : Prop :=
  length wm = n /\
  (forall d, d < n -> assigned wm d = true -> (0 <= nth d wm (-1) < Z.of_nat nfi)%Z) /\
  (forall d1 d2, d1 < n -> d2 < n -> assigned wm d1 = true ->
     nth d1 wm (-1)%Z = nth d2 wm (-1)%Z -> d1 = d2) /\
  (forall j, j < nfi -> exists d, d < n /\ nth d wm (-1)%Z = Z.of_nat j) /\
  nfi = length (filter (assigned wm) (seq 0 n)).

Lemma filter_update (f g : nat -> bool) (l : list nat) (k : nat) :
  NoDup l -> In k l -> f k = false -> g k = true ->
  (forall d, In d l -> d <> k -> f d = g d) ->
  length (filter g l) = S (length (filter f l)).
Proof.
  induction 1 as [|a l Ha Hnd IH]; intros Hk Hf Hg Hfg; [destruct Hk|].
  simpl; destruct Hk as [<-|Hk].
  - rewrite Hf, Hg; simpl; f_equal.
    rewrite (filter_ext_in g f); [reflexivity|].
    intros d Hd; symmetry; apply Hfg; [right; exact Hd | intros ->; contradiction].
  - assert (Hak : a <> k) by (intros ->; contradiction).
    rewrite (Hfg a (or_introl eq_refl) Hak).
    assert (Hrest : forall d, In d l -> d <> k -> f d = g d)
      by (intros d Hd Hdk; apply Hfg; [right; exact Hd | exact Hdk]).
    destruct (g a); simpl; rewrite (IH Hk Hf Hg Hrest); reflexivity.
Qed.

Lemma assigned_set (wm : list Z) (k d nfi : nat) :
  k < length wm ->
  nth d (set_at wm k (Z.of_nat nfi)) (-1)%Z = if Nat.eqb d k then Z.of_nat nfi else nth d wm (-1)%Z.
Proof.
  intro Hk; rewrite nth_set_at, (proj2 (Nat.ltb_lt _ _) Hk), andb_true_r; reflexivity.
Qed.

Lemma number_step_inv (n : nat) (wm : list Z) (nfi k : nat) :
  numbering_inv n wm nfi -> k < n ->
  numbering_inv n (fst (number_step (wm, nfi) k)) (snd (number_step (wm, nfi) k)) /\
  forall d, d < n ->
    (assigned (fst (number_step (wm, nfi) k)) d = true <-> assigned wm d = true \/ d = k).
Proof.
  intros (Hl & Hr & Hi & Hs & Hc) Hk; unfold number_step.
  destruct (Z.eqb (nth k wm (-1)%Z) (-1)%Z) eqn:Ek; simpl.
  - apply Z.eqb_eq in Ek.
    assert (Hn : forall d, nth d (set_at wm k (Z.of_nat nfi)) (-1)%Z =
                   if Nat.eqb d k then Z.of_nat nfi else nth d wm (-1)%Z)
      by (intro d; apply assigned_set; lia).
    assert (Ha : forall d, assigned (set_at wm k (Z.of_nat nfi)) d =
                   if Nat.eqb d k then true else assigned wm d).
    { intro d; unfold assigned; rewrite Hn; destruct (Nat.eqb d k); [|reflexivity].
      apply negb_true_iff, Z.eqb_neq; lia. }
    assert (Hk' : assigned wm k = false) by (unfold assigned; rewrite Ek; reflexivity).
    split; [split; [|split; [|split; [|split]]]|].
    + rewrite length_set_at; exact Hl.
    + intros d Hd Had; rewrite Hn; rewrite Ha in Had.
      destruct (Nat.eqb d k); [lia|]; specialize (Hr d Hd Had); lia.
    + intros d1 d2 Hd1 Hd2 Had; rewrite !Hn; rewrite Ha in Had.
      destruct (Nat.eqb d1 k) eqn:E1, (Nat.eqb d2 k) eqn:E2;
        try (apply Nat.eqb_eq in E1); try (apply Nat.eqb_eq in E2).
      * congruence.
      * intro Heq; exfalso.
        assert (Ha2 : assigned wm d2 = true)
          by (unfold assigned; rewrite <- Heq; apply negb_true_iff, Z.eqb_neq; lia).
        specialize (Hr d2 Hd2 Ha2); lia.
      * intro Heq; exfalso; specialize (Hr d1 Hd1 Had); lia.
      * apply Hi; auto.
    + intros j Hj.
      destruct (Nat.eq_dec j nfi) as [->|Hne].
      * exists k; split; [exact Hk|]; rewrite Hn, Nat.eqb_refl; reflexivity.
      * destruct (Hs j ltac:(lia)) as (d & Hd & Hdj); exists d; split; [exact Hd|].
        rewrite Hn; destruct (Nat.eqb d k) eqn:E; [|exact Hdj].
        apply Nat.eqb_eq in E; subst d; lia.
    + transitivity (S (length (filter (assigned wm) (seq 0 n)))); [f_equal; exact Hc|].
      symmetry; apply filter_update with (k := k).
      * apply seq_NoDup.
      * apply in_seq; lia.
      * exact Hk'.
      * rewrite Ha, Nat.eqb_refl; reflexivity.
      * intros d _ Hdk; rewrite Ha; apply Nat.eqb_neq in Hdk; rewrite Hdk; reflexivity.
    + intros d Hd; rewrite Ha; destruct (Nat.eqb d k) eqn:E.
      * apply Nat.eqb_eq in E; tauto.
      * apply Nat.eqb_neq in E; tauto.
  - split; [exact (conj Hl (conj Hr (conj Hi (conj Hs Hc))))|].
    intros d Hd; split; [tauto|]; intros [H| ->]; [exact H|].
    unfold assigned; rewrite Ek; reflexivity.
Qed.

Lemma number_fold_inv (n : nat) (ws : list nat) :
  (forall k, In k ws -> k < n) ->
  forall wm nfi, numbering_inv n wm nfi ->
  numbering_inv n (fst (fold_left number_step ws (wm, nfi)))
                  (snd (fold_left number_step ws (wm, nfi))) /\
  forall d, d < n ->
    (assigned (fst (fold_left number_step ws (wm, nfi))) d = true <->
     assigned wm d = true \/ In d ws).
Proof.
  induction ws as [|k ws IH]; intros Hws wm nfi Hinv; cbn [fold_left fst snd In].
  - split; [exact Hinv | tauto].
  - destruct (number_step_inv n wm nfi k Hinv (Hws k (or_introl eq_refl))) as [Hinv1 Ha1].
    destruct (number_step (wm, nfi) k) as [wm1 nfi1] eqn:E; simpl in *.
    destruct (IH (fun k' Hk' => Hws k' (or_intror Hk')) wm1 nfi1 Hinv1) as [Hinv2 Ha2].
    split; [exact Hinv2|]; intros d Hd; rewrite Ha2, Ha1 by exact Hd; split.
    + intros [[H|H]|H]; [left; exact H | right; left; symmetry; exact H | right; right; exact H].
    + intros [H|[H|H]]; [left; left; exact H | left; right; symmetry; exact H | right; exact H].
Qed.

Lemma filter_none {A : Type} (f : A -> bool) (l : list A) :
  (forall x, In x l -> f x = false) -> filter f l = [].
Proof.
  induction l as [|a l IH]; intro H; simpl; [reflexivity|].
  rewrite (H a (or_introl eq_refl)); apply IH; intros x Hx; apply H; right; exact Hx.
Qed.

Lemma numbering_inv_init (n : nat) : numbering_inv n (repeat (-1)%Z n) 0.
Proof.
  assert (Hna : forall d, d < n -> assigned (repeat (-1)%Z n) d = false)
    by (intros d Hd; unfold assigned; rewrite nth_repeat_lt by exact Hd; reflexivity).
  split; [apply repeat_length|]; split; [|split; [|split]].
  - intros d Hd Ha; rewrite Hna in Ha by exact Hd; discriminate.
  - intros d1 d2 Hd1 _ Ha; rewrite Hna in Ha by exact Hd1; discriminate.
  - intros j Hj; lia.
  - rewrite filter_none; [reflexivity|]; intros d Hd; apply in_seq in Hd; apply Hna; lia.
Qed.

Lemma count_true_seq (v : list bool) :
  count_true v = length (filter (fun d => nth d v false) (seq 0 (length v))).
Proof.
  unfold count_true.
  assert (H : forall a, length (filter (fun b => b) v) =
                length (filter (fun d => nth (d - a) v false) (seq a (length v)))).
  { induction v as [|b v IH]; intro a; [reflexivity|].
    cbn [length seq filter]; rewrite Nat.sub_diag; cbn [nth].
    rewrite (filter_ext_in (fun d => nth (d - a) (b :: v) false)
                           (fun d => nth (d - S a) v false)).
    - destruct b; cbn [length]; rewrite (IH (S a)); reflexivity.
    - intros d Hd; apply in_seq in Hd.
      replace (d - a) with (S (d - S a)) by lia; reflexivity. }
  rewrite (H 0); f_equal; apply filter_ext; intro d; rewrite Nat.sub_0_r; reflexivity.
Qed.

(** Extra X7: when every DoF index of an active fine cell is below [n_dofs],
    the numbering of the fine parameter DoFs in
    [compute_intergrid_constraints] passes its check: [weight_mapping] has one
    entry per fine DoF, an entry is not [-1] exactly for the DoFs of
    [fine_component] on active cells, and these DoFs are numbered bijectively
    onto [0 .. n_parameters_on_fine_grid - 1]. *)
Theorem compute_weight_mapping_bijective (fine_grid : DoFHandler) (fine_component : nat) :
  (forall c i, In c (active_cells fine_grid) -> i < dofs_per_cell (fe fine_grid) ->
     (dof_on fine_grid c i < n_dofs fine_grid)%N) ->
  let n := N.to_nat (n_dofs fine_grid) in
  exists n_parameters_on_fine_grid weight_mapping,
    compute_weight_mapping fine_grid fine_component =
      Ok (n_parameters_on_fine_grid, weight_mapping) /\
    length weight_mapping = n /\
    (forall d, d < n ->
       (nth d weight_mapping (-1)%Z <> (-1)%Z <-> parameter_dof fine_grid fine_component d)) /\
    (forall d, d < n -> parameter_dof fine_grid fine_component d ->
       (0 <= nth d weight_mapping (-1) < Z.of_nat n_parameters_on_fine_grid)%Z) /\
    (forall d1 d2, d1 < n -> d2 < n -> parameter_dof fine_grid fine_component d1 ->
       nth d1 weight_mapping (-1)%Z = nth d2 weight_mapping (-1)%Z -> d1 = d2) /\
    (forall j, j < n_parameters_on_fine_grid ->
       exists d, d < n /\ nth d weight_mapping (-1)%Z = Z.of_nat j).
Proof.
  intros Hidx; cbv zeta.
  assert (Hws : forall k, In k (parameter_writes fine_grid fine_component) -> k < N.to_nat (n_dofs fine_grid)).
  { intros k Hk; apply in_parameter_writes in Hk.
    destruct Hk as (c & i & Hc & Hi & _ & Heq).
    specialize (Hidx c i Hc Hi); rewrite Heq in Hidx; lia. }
  destruct (number_fold_inv (N.to_nat (n_dofs fine_grid)) _ Hws _ _ (numbering_inv_init (N.to_nat (n_dofs fine_grid)))) as [Hinv Hass].
  assert (Hpar : forall d, d < N.to_nat (n_dofs fine_grid) -> (assigned (fst (number_parameters fine_grid fine_component)) d = true
                                     <-> parameter_dof fine_grid fine_component d)).
  { intros d Hd; rewrite number_parameters_writes, Hass, <- in_parameter_writes by exact Hd.
    unfold assigned; rewrite nth_repeat_lt by exact Hd; simpl; split; [intros [H|H]; [discriminate|exact H] | auto]. }
  rewrite <- number_parameters_writes in Hinv.
  unfold compute_weight_mapping.
  destruct (number_parameters fine_grid fine_component) as [wm nfi]; simpl in Hinv, Hpar.
  destruct Hinv as (Hl & Hr & Hi & Hs & Hc).
  assert (Hcount : count_true (dof_is_interesting fine_grid fine_component) = nfi).
  { rewrite count_true_seq, dof_is_interesting_writes, length_fold_set_true, repeat_length, Hc.
    f_equal; apply filter_ext_in; intros d Hd; apply in_seq in Hd.
    rewrite <- dof_is_interesting_writes.
    destruct (nth d (dof_is_interesting fine_grid fine_component) false) eqn:E1,
             (assigned wm d) eqn:E2; auto.
    - exfalso; rewrite dof_is_interesting_writes, fold_set_true in E1
        by (rewrite repeat_length; lia).
      rewrite nth_repeat_lt in E1 by lia.
      destruct E1 as [E1|E1]; [discriminate|].
      apply in_parameter_writes, Hpar in E1; [congruence | lia].
    - exfalso; apply Hpar in E2; [|lia].
      apply in_parameter_writes in E2.
      assert (H : nth d (dof_is_interesting fine_grid fine_component) false = true).
      { rewrite dof_is_interesting_writes, fold_set_true by (rewrite repeat_length; lia); auto. }
      congruence. }
  rewrite Hcount, Nat.eqb_refl.
  exists nfi, wm; split; [reflexivity|]; split; [exact Hl|].
  assert (Hne : forall d, d < N.to_nat (n_dofs fine_grid) -> (nth d wm (-1)%Z <> (-1)%Z <-> assigned wm d = true)).
  { intros d _; unfold assigned; rewrite negb_true_iff, Z.eqb_neq; tauto. }
  split; [|split; [|split]].
  - intros d Hd; rewrite Hne, Hpar by exact Hd; tauto.
  - intros d Hd Hp; apply Hr; [exact Hd | apply Hpar; assumption].
  - intros d1 d2 Hd1 Hd2 Hp; apply Hi; auto; apply Hpar; assumption.
  - exact Hs.
Qed.

Lemma compute_weight_mapping_bijective_witness :
  let n := N.to_nat (n_dofs Examples.two_cells_dof) in
  exists n_parameters_on_fine_grid weight_mapping,
    compute_weight_mapping Examples.two_cells_dof 0 =
      Ok (n_parameters_on_fine_grid, weight_mapping) /\
    length weight_mapping = n /\
    (forall d, d < n ->
       (nth d weight_mapping (-1)%Z <> (-1)%Z <-> parameter_dof Examples.two_cells_dof 0 d)) /\
    (forall d, d < n -> parameter_dof Examples.two_cells_dof 0 d ->
       (0 <= nth d weight_mapping (-1) < Z.of_nat n_parameters_on_fine_grid)%Z) /\
    (forall d1 d2, d1 < n -> d2 < n -> parameter_dof Examples.two_cells_dof 0 d1 ->
       nth d1 weight_mapping (-1)%Z = nth d2 weight_mapping (-1)%Z -> d1 = d2) /\
    (forall j, j < n_parameters_on_fine_grid ->
       exists d, d < n /\ nth d weight_mapping (-1)%Z = Z.of_nat j).
Proof.
  apply (compute_weight_mapping_bijective Examples.two_cells_dof 0).
  intros c i Hc Hi; vm_compute in Hi.
  destruct Hc as [<-|[<-|[]]];
    (do 4 (destruct i as [|i]; [vm_compute; reflexivity|])); lia.
Defined.

End IntergridSetupProofs.

Module FaceCategoryProofs.
Import FaceCategory.

Lemma fold_max_bounds (g : N -> N) (l : list N) :
  forall r0,
  (r0 <= fold_left (fun r c => N.max r (g c)) l r0)%N /\
  (forall c, In c l -> (g c <= fold_left (fun r c => N.max r (g c)) l r0)%N) /\
  (fold_left (fun r c => N.max r (g c)) l r0 = r0 \/
   exists c, In c l /\ fold_left (fun r c => N.max r (g c)) l r0 = g c).
Proof.
  induction l as [|a l IH]; intro r0; simpl.
  - split; [lia|]; split; [intros c []|left; reflexivity].
  - destruct (IH (N.max r0 (g a))) as (H1 & H2 & H3).
    split; [lia|]; split.
    + intros c [<-|Hc]; [lia | apply H2; exact Hc].
    + destruct H3 as [H3|(c & Hc & H3)].
      * rewrite H3; destruct (N.max_spec r0 (g a)) as [[_ E]|[_ E]]; rewrite E;
          [right; exists a; split; [left; reflexivity | reflexivity] | left; reflexivity].
      * right; exists c; split; [right; exact Hc | exact H3].
Qed.

Lemma fold_max_last (first : N) (g : N -> N) (l : list N) :
  forall r0,
  fold_left (fun r c => N.max first (g c)) l r0 =
  match l with [] => r0 | _ => N.max first (g (last l 0%N)) end.
Proof.
  induction l as [|a l IH]; intro r0; [reflexivity|].
  simpl; rewrite IH; destruct l; reflexivity.
Qed.

(** Extra X8: [get_face_category] fails with [ExcIndexRange] for a face batch
    index out of range and returns [(0, 0)] when there are no active FE
    indices. Otherwise [first] is the largest FE index over the interior
    cells of the batch (0 when there are none), and [second] is
    [invalid_unsigned_int] when the first exterior lane is invalid; else it is
    [max(first, fe_index)] of the LAST valid exterior cell only, since each
    exterior lane overwrites [result.second]. *)
Theorem get_face_category_spec (faces : list FaceToCells) (cell_active_fe_index : list N)
  (n_array_elements macro_face : nat) :
  let fe_index (c : N) := nth (N.to_nat c) cell_active_fe_index 0%N in
  let f := nth macro_face faces {| cells_interior := []; cells_exterior := [] |} in
  (length faces <= macro_face ->
     get_face_category faces cell_active_fe_index n_array_elements macro_face =
     Err (ExcIndexRange (N.of_nat macro_face) 0 (N.of_nat (length faces)))) /\
  (macro_face < length faces -> cell_active_fe_index = [] ->
     get_face_category faces cell_active_fe_index n_array_elements macro_face = Ok (0%N, 0%N)) /\
  (macro_face < length faces -> cell_active_fe_index <> [] ->
     exists first second,
       get_face_category faces cell_active_fe_index n_array_elements macro_face =
         Ok (first, second) /\
       (forall c, In c (valid_lanes n_array_elements (cells_interior f)) ->
          (fe_index c <= first)%N) /\
       (first = 0%N \/ exists c, In c (valid_lanes n_array_elements (cells_interior f)) /\
                                 first = fe_index c) /\
       (nth 0 (cells_exterior f) invalid_unsigned_int = invalid_unsigned_int ->
          second = invalid_unsigned_int) /\
       (nth 0 (cells_exterior f) invalid_unsigned_int <> invalid_unsigned_int ->
          0 < n_array_elements ->
          second = N.max first (fe_index (last (valid_lanes n_array_elements (cells_exterior f)) 0%N)))).
Proof.
  intros fe_index f; subst fe_index f; unfold get_face_category; split; [|split].
  - intro H; replace (Nat.ltb macro_face (length faces)) with false
      by (symmetry; apply Nat.ltb_ge; exact H); reflexivity.
  - intros H ->; rewrite (proj2 (Nat.ltb_lt _ _) H); reflexivity.
  - intros H Hne; rewrite (proj2 (Nat.ltb_lt _ _) H).
    destruct cell_active_fe_index as [|x xs]; [contradiction|].
    destruct (fold_max_bounds (fun c => nth (N.to_nat c) (x :: xs) 0%N) (valid_lanes n_array_elements
       (cells_interior (nth macro_face faces {| cells_interior := []; cells_exterior := [] |}))) 0%N)
      as (_ & Hub & Hatt).
    eexists; eexists; split; [reflexivity|].
    split; [exact Hub|]; split; [exact Hatt|]; split.
    + intro Hinv; rewrite Hinv, N.eqb_refl; reflexivity.
    + intros Hval Hn; apply N.eqb_neq in Hval; rewrite Hval; simpl negb; cbv iota.
      rewrite fold_max_last.
      destruct (cells_exterior _) as [|e0 es] eqn:Ee; [discriminate|].
      destruct n_array_elements as [|nae]; [lia|].
      simpl in Hval |- *; rewrite Hval; reflexivity.
Qed.

End FaceCategoryProofs.

Module ChannelsProofs.
Import Channels.

Lemma fold_left_ext_in_all {St A : Type} (f g : St -> A -> St) (l : list A) :
  (forall s x, In x l -> f s x = g s x) -> forall s, fold_left f l s = fold_left g l s.
Proof.
  induction l as [|a l IH]; intros H s; simpl; [reflexivity|].
  rewrite H by (left; reflexivity); apply IH; intros s' x Hx; apply H; right; exact Hx.
Qed.

(** A loop over [comp < vec.size()] that reads [vec[comp]] is a loop over [vec]. *)
Lemma for_range_nth {St A : Type} (f : St -> A -> St) (l : list A) (dflt : A) (s : St) :
  for_range (length l) (fun i acc => f acc (nth i l dflt)) s = fold_left f l s.
Proof.
  unfold for_range.
  assert (H : forall a s, fold_left (fun acc i => f acc (nth (i - a) l dflt)) (seq a (length l)) s =
                          fold_left f l s).
  { clear s; induction l as [|x l IH]; intros a s; [reflexivity|].
    cbn [length seq fold_left]; rewrite Nat.sub_diag; cbn [nth].
    rewrite <- (IH (S a)); apply fold_left_ext_in_all; intros s' i Hi; apply in_seq in Hi.
    replace (i - a) with (S (i - S a)) by lia; reflexivity. }
  rewrite <- (H 0 s); apply fold_left_ext_in_all; intros s' i _; rewrite Nat.sub_0_r; reflexivity.
Qed.

Lemma fold_count (l : list nat) (a : nat) :
  fold_left (fun acc (_ : nat) => acc + 1) l a = a + length l.
Proof. revert a; induction l as [|x l IH]; intro a; simpl; [lia | rewrite IH; lia]. Qed.

Lemma n_components_vs_leaves (vs : VectorStruct) : n_components_vs vs = length (leaves vs).
Proof.
  destruct vs as [v|bs]; [reflexivity|]; simpl; unfold for_range.
  rewrite fold_count, length_seq; reflexivity.
Qed.

Lemma n_components_vec_leaves (vec : list VectorStruct) :
  n_components_vec vec = length (flat_map leaves vec).
Proof.
  unfold n_components_vec.
  rewrite (for_range_nth (fun c x => c + n_components_vs x)).
  assert (H : forall a, fold_left (fun c x => c + n_components_vs x) vec a =
                        a + length (flat_map leaves vec)).
  { induction vec as [|x vec IH]; intro a; simpl; [lia|].
    rewrite IH, length_app, n_components_vs_leaves; lia. }
  apply H.
Qed.

Lemma fold_append {A : Type} (g : nat -> A) (l : list nat) (acc : list A) :
  fold_left (fun calls i => calls ++ [g i]) l acc = acc ++ map g l.
Proof.
  revert acc; induction l as [|i l IH]; intro acc; simpl; [symmetry; apply app_nil_r|].
  rewrite IH, <- app_assoc; reflexivity.
Qed.

Lemma map_seq_nth {A : Type} (op : nat -> nat -> A) (bs : list nat) :
  forall channel,
  map (fun i => op (channel + i) (nth i bs 0)) (seq 0 (length bs)) =
  map (fun p => op (fst p) (snd p)) (combine (seq channel (length bs)) bs).
Proof.
  induction bs as [|b bs IH]; intro channel; [reflexivity|].
  cbn [length seq map combine]; rewrite Nat.add_0_r; cbn [fst snd nth]; f_equal.
  rewrite <- (IH (S channel)), <- seq_shift, map_map; apply map_ext; intro i.
  rewrite Nat.add_succ_comm; reflexivity.
Qed.

Lemma on_struct_channels {A : Type} (op : nat -> nat -> A) (vs : VectorStruct) (channel : nat) :
  on_struct op vs channel =
  map (fun p => op (fst p) (snd p)) (combine (seq channel (length (leaves vs))) (leaves vs)).
Proof.
  destruct vs as [v|bs]; [reflexivity|]; simpl; unfold for_range.
  rewrite (fold_append (fun i => op (channel + i) (nth i bs 0))); apply map_seq_nth.
Qed.

Lemma combine_app {A B : Type} (l1 l2 : list A) (m1 m2 : list B) :
  length l1 = length m1 -> combine (l1 ++ l2) (m1 ++ m2) = combine l1 m1 ++ combine l2 m2.
Proof.
  revert m1; induction l1 as [|a l1 IH]; intros [|b m1] H; simpl in *; try discriminate; auto.
  rewrite IH by lia; reflexivity.
Qed.

(** Extra X9: the collection versions of [update_ghost_values_start],
    [update_ghost_values_finish], [compress_start] and [compress_finish]
    call the exchanger once per vector, block vectors block by block, in
    order, on the channels [0, 1, ..., n_components(vec) - 1]: the channel of
    the [k]-th vector is [k], so no two vectors share a channel. *)
Theorem on_vector_channels {A : Type} (op : nat -> nat -> A) (vec : list VectorStruct) :
  length (flat_map leaves vec) = n_components_vec vec /\
  on_vector op vec =
  map (fun p => op (fst p) (snd p)) (combine (seq 0 (n_components_vec vec)) (flat_map leaves vec)).
Proof.
  rewrite n_components_vec_leaves; split; [reflexivity|].
  unfold on_vector.
  rewrite (for_range_nth (fun st x =>
             let '(calls, component_index) := st in
             (calls ++ on_struct op x component_index, component_index + n_components_vs x))).
  assert (H : forall calls ci,
    fold_left (fun st x =>
      let '(calls, component_index) := st in
      (calls ++ on_struct op x component_index, component_index + n_components_vs x)) vec (calls, ci) =
    (calls ++ map (fun p => op (fst p) (snd p))
                  (combine (seq ci (length (flat_map leaves vec))) (flat_map leaves vec)),
     ci + length (flat_map leaves vec))).
  { induction vec as [|x vec IH]; intros calls ci; simpl.
    - rewrite app_nil_r, Nat.add_0_r; reflexivity.
    - rewrite IH, on_struct_channels, n_components_vs_leaves, <- app_assoc, length_app,
              seq_app, combine_app, map_app by apply length_seq.
      f_equal; lia. }
  rewrite H; reflexivity.
Qed.

End ChannelsProofs.

Module ExchangeProofs.
Import MFLoop.

(** The call that completes a started exchange. *)
Definition finishing (e : event) : event :=
  match e with
  | VecUpdateGhostsStart v => VecUpdateGhostsFinish v
  | ExportToGhostedStart v => ExportToGhostedFinish v
  | VecCompressStart v => VecCompressFinish v
  | ImportFromGhostedStart v => ImportFromGhostedFinish v
  | e => e
  end.

(** Extra X10: the [finish] calls of [VectorDataExchange] complete exactly what
    the matching [start] calls began on an unchanged vector: the finish of a
    ghost update takes the same route (vector call, face partitioner export,
    or nothing) as its start, although the start may record
    [ghosts_were_set]; [compress_start] refuses a vector with ghost elements
    ([ExcNotImplemented]), and otherwise [compress_finish] takes the same
    route as [compress_start]. *)
Theorem exchange_start_finish_match (ex : VectorDataExchange) (st : Store) (v : nat) :
  (let '(ex', evs) := update_ghost_values_start ex st v in
   update_ghost_values_finish ex' st v = map finishing evs) /\
  (has_ghost_elements (st v) = true -> compress_start ex st v = Err ExcNotImplemented) /\
  (has_ghost_elements (st v) = false ->
   exists evs, compress_start ex st v = Ok evs /\ compress_finish ex st v = map finishing evs).
Proof.
  split; [|split].
  - destruct (update_ghost_values_start ex st v) as [ex' evs] eqn:E.
    pose proof (MFLoopProofs.update_start_spec ex st v 0) as Hs; rewrite E in Hs.
    destruct Hs as (_ & _ & Ha & Hm).
    unfold update_ghost_values_finish, partitioner_is_main, get_partitioner; rewrite Ha, Hm.
    unfold update_ghost_values_start, partitioner_is_main, get_partitioner in E.
    destruct ex as [mf a g]; simpl in *.
    destruct (has_ghost_elements (st v)); simpl in E;
      destruct (is_unspecified a), (Nat.eqb (vsize (st v)) 0),
        (face_variant_is_main mf (variant_of a)), (no_exchange (face_variant mf (variant_of a)));
      simpl in E; injection E as _ <-; reflexivity.
  - intro H; unfold compress_start; rewrite H; reflexivity.
  - intro H; unfold compress_start, compress_finish; rewrite H; cbn [negb].
    destruct (is_unspecified (vector_face_access ex) || Nat.eqb (vsize (st v)) 0);
      [eexists; split; reflexivity|].
    destruct (partitioner_is_main ex); [eexists; split; reflexivity|].
    destruct (no_exchange (get_partitioner ex)); eexists; split; reflexivity.
Qed.

End ExchangeProofs.

Module ScratchPoolProofs.
Import Scratch.

(** The number of scratch buffers in use. *)
Definition n_in_use (p : Pool) : nat := length (filter fst (scratch_pad p)).

Lemma acquire_in_none (l : list (bool * nat)) :
  acquire_in l = None -> forallb fst l = true.
Proof.
  induction l as [|[b a] r IH]; simpl; [reflexivity|].
  destruct b; simpl; [|discriminate].
  destruct (acquire_in r) as [[x r']|]; [discriminate|]; intros _; apply IH; reflexivity.
Qed.

Lemma acquire_in_split (l l' : list (bool * nat)) (a : nat) :
  acquire_in l = Some (a, l') ->
  exists pre post, l = pre ++ (false, a) :: post /\ forallb fst pre = true /\
                   l' = pre ++ (true, a) :: post.
Proof.
  revert l'; induction l as [|[b c] r IH]; intros l' H; simpl in H; [discriminate|].
  destruct b; simpl in H.
  - destruct (acquire_in r) as [[x r']|] eqn:E; [|discriminate].
    injection H as <- <-.
    destruct (IH r' eq_refl) as (pre & post & H1 & H2 & H3).
    exists ((true, c) :: pre), post; subst; simpl; auto.
  - injection H as <- <-; exists [], r; auto.
Qed.

Lemma release_in_split (s : nat) (l l' : list (bool * nat)) :
  release_in s l = Ok l' ->
  exists pre post, l = pre ++ (true, s) :: post /\ l' = pre ++ (false, s) :: post.
Proof.
  revert l'; induction l as [|[b a] r IH]; intros l' H; simpl in H; [discriminate|].
  destruct (Nat.eqb a s) eqn:E.
  - apply Nat.eqb_eq in E; subst a; destruct b; [|discriminate].
    injection H as <-; exists [], r; auto.
  - destruct (release_in s r) as [r'|e] eqn:Er; [|discriminate]; cbn [bind] in H.
    injection H as <-; destruct (IH r' eq_refl) as (pre & post & H1 & H2).
    exists ((b, a) :: pre), post; subst; auto.
Qed.

Lemma release_in_free (s : nat) (l : list (bool * nat)) :
  NoDup (map snd l) -> In (false, s) l -> release_in s l = Err ExcInternalError.
Proof.
  induction l as [|[b a] r IH]; simpl; intros Hnd Hin; [contradiction|].
  inversion Hnd as [|? ? Hnin Hnd']; subst.
  destruct (Nat.eqb a s) eqn:E.
  - apply Nat.eqb_eq in E; subst a.
    destruct Hin as [Hin|Hin]; [injection Hin as -> ; reflexivity|].
    apply (in_map snd) in Hin; contradiction.
  - destruct Hin as [Hin|Hin]; [injection Hin as _ ->; rewrite Nat.eqb_refl in E; discriminate|].
    rewrite IH by assumption; reflexivity.
Qed.

Lemma filter_fst_app (pre post : list (bool * nat)) (b : bool) (a : nat) :
  length (filter fst (pre ++ (b, a) :: post)) =
  length (filter fst pre) + (if b then 1 else 0) + length (filter fst post).
Proof. rewrite filter_app, length_app; destruct b; simpl; lia. Qed.

(** Extra X11: [acquire_scratch_data] (and its [_non_threadsafe] twin) reuses the
    first free buffer of the list in list order and adds a new buffer at the
    front only when every buffer is in use; either way one more buffer is in
    use. A successful [release_scratch_data] keeps the number of buffers and
    frees one; releasing a buffer of the list that is already free fails with
    [ExcInternalError]. *)
Theorem scratch_pool_counts (p : Pool) :
  (let (a, p1) := acquire_scratch_data p in
   length (scratch_pad p1) =
     length (scratch_pad p) + (if forallb fst (scratch_pad p) then 1 else 0) /\
   n_in_use p1 = S (n_in_use p) /\
   (forallb fst (scratch_pad p) = false ->
      exists pre post, scratch_pad p = pre ++ (false, a) :: post /\ forallb fst pre = true /\
                       scratch_pad p1 = pre ++ (true, a) :: post) /\
   (forallb fst (scratch_pad p) = true ->
      scratch_pad p1 = (true, a) :: scratch_pad p)) /\
  (forall a p2, release_scratch_data a p = Ok p2 ->
     length (scratch_pad p2) = length (scratch_pad p) /\ S (n_in_use p2) = n_in_use p) /\
  (forall a, NoDup (map snd (scratch_pad p)) -> In (false, a) (scratch_pad p) ->
     release_scratch_data a p = Err ExcInternalError).
Proof.
  split; [|split].
  - unfold acquire_scratch_data, n_in_use.
    destruct (acquire_in (scratch_pad p)) as [[a l']|] eqn:E; simpl.
    + destruct (acquire_in_split _ _ _ E) as (pre & post & H1 & H2 & H3).
      assert (Hf : forallb fst (scratch_pad p) = false).
      { rewrite H1, forallb_app; simpl; rewrite andb_false_r; reflexivity. }
      rewrite Hf; split; [|split; [|split]].
      * rewrite H1, H3, !length_app; simpl; lia.
      * rewrite H1, H3, !filter_fst_app; lia.
      * intros _; exists pre, post; auto.
      * discriminate.
    + rewrite (acquire_in_none _ E); split; [lia|]; split; [reflexivity|].
      split; [discriminate | reflexivity].
  - intros a p2; unfold release_scratch_data, n_in_use.
    destruct (release_in a (scratch_pad p)) as [l'|e] eqn:E; cbn [bind]; [|discriminate].
    intro H; injection H as <-; simpl.
    destruct (release_in_split _ _ _ E) as (pre & post & H1 & H2); rewrite H1, H2.
    rewrite !length_app, !filter_fst_app; simpl; lia.
  - intros a Hnd Hin; unfold release_scratch_data; rewrite release_in_free by assumption; reflexivity.
Qed.

End ScratchPoolProofs.

Module MaskedSparsityProofs.
Import Sparsity.

Lemma nth_map_seq {A : Type} (h : nat -> A) (n b : nat) (dflt : A) :
  b < n -> nth b (map h (seq 0 n)) dflt = h b.
Proof.
  intro Hb; rewrite (nth_indep _ dflt (h 0)) by (rewrite length_map, length_seq; exact Hb).
  rewrite map_nth, seq_nth by exact Hb; reflexivity.
Qed.

Lemma nth_map_seq_overflow {A : Type} (h : nat -> A) (n b : nat) (dflt : A) :
  n <= b -> nth b (map h (seq 0 n)) dflt = dflt.
Proof. intro Hb; apply nth_overflow; rewrite length_map, length_seq; exact Hb. Qed.

Lemma dof_mask_at (f : FiniteElement) (mask : list (list bool)) (i j : nat) :
  i < dofs_per_cell f -> j < dofs_per_cell f ->
  mask_at (dof_mask f mask) i j = mask_at mask (system_to_component f i) (system_to_component f j).
Proof.
  intros Hi Hj; unfold mask_at at 1, dof_mask.
  rewrite nth_map_seq by exact Hi; rewrite nth_map_seq by exact Hj; reflexivity.
Qed.

Lemma for_range_ext_lt {St : Type} (n : nat) (b1 b2 : nat -> St -> St) :
  (forall i s, i < n -> b1 i s = b2 i s) -> forall s, for_range n b1 s = for_range n b2 s.
Proof.
  intros H s; unfold for_range.
  assert (G : forall l s, (forall i, In i l -> i < n) ->
            fold_left (fun acc i => b1 i acc) l s = fold_left (fun acc i => b2 i acc) l s).
  { induction l as [|a l IH]; intros s' Hl; simpl; [reflexivity|].
    rewrite H by (apply Hl; left; reflexivity); apply IH; intros i Hi; apply Hl; right; exact Hi. }
  apply G; intros i Hi; apply in_seq in Hi; lia.
Qed.

Lemma for_range_skip {St : Type} (n : nat) (s : St) : for_range n (fun _ s1 => s1) s = s.
Proof. unfold for_range; induction (seq 0 n) as [|a l IH]; simpl; auto. Qed.

(** The pattern of the masked loop, whatever the mask. *)
Lemma masked_fold_adds (dof : DoFHandler) (dm : list (list bool)) :
  adds_only (fun sp => fold_left (fun acc cell => masked_cell_block dof dm cell acc)
                                 (active_cells dof) sp)
            (fun p => exists cell, In cell (active_cells dof) /\
               exists i j, i < dofs_per_cell (fe dof) /\ j < dofs_per_cell (fe dof) /\
                 mask_at dm i j = true /\ p = (dof_on dof cell i, dof_on dof cell j)).
Proof. apply adds_only_fold; intro; apply SparsityProofs.masked_cell_block_adds. Qed.

Lemma masked_cell_block_full (dof : DoFHandler) (dm : list (list bool)) (cell : nat)
  (sp : SparsityPattern) :
  (forall i j, i < dofs_per_cell (fe dof) -> j < dofs_per_cell (fe dof) -> mask_at dm i j = true) ->
  masked_cell_block dof dm cell sp = cell_block dof cell sp.
Proof.
  intro H; unfold masked_cell_block, cell_block.
  apply for_range_ext_lt; intros i s1 Hi; apply for_range_ext_lt; intros j s2 Hj.
  rewrite H by assumption; reflexivity.
Qed.

Lemma masked_cell_block_empty (dof : DoFHandler) (dm : list (list bool)) (cell : nat)
  (sp : SparsityPattern) :
  (forall i j, mask_at dm i j = false) -> masked_cell_block dof dm cell sp = sp.
Proof.
  intro H; unfold masked_cell_block.
  rewrite (for_range_ext_lt _ _ (fun _ s1 => s1)); [apply for_range_skip|].
  intros i s1 _; rewrite (for_range_ext_lt _ _ (fun _ s2 => s2)); [apply for_range_skip|].
  intros j s2 _; rewrite H; reflexivity.
Qed.

Lemma mask_at_repeat (b : bool) (nc x y : nat) :
  mask_at (repeat (repeat b nc) nc) x y = if Nat.ltb x nc && Nat.ltb y nc then b else false.
Proof.
  unfold mask_at; destruct (Nat.ltb x nc) eqn:Ex; simpl.
  - apply Nat.ltb_lt in Ex; rewrite VectorFacts.nth_repeat_lt by exact Ex.
    destruct (Nat.ltb y nc) eqn:Ey.
    + apply Nat.ltb_lt in Ey; apply VectorFacts.nth_repeat_lt; exact Ey.
    + apply Nat.ltb_ge in Ey; apply nth_overflow; rewrite repeat_length; exact Ey.
  - apply Nat.ltb_ge in Ex.
    assert (E : nth x (repeat (repeat b nc) nc) [] = [])
      by (apply nth_overflow; rewrite repeat_length; exact Ex).
    rewrite E.
    destruct y; reflexivity.
Qed.

Lemma repeat_rows (b : bool) (nc : nat) :
  Forall (fun row => length row = nc) (repeat (repeat b nc) nc).
Proof.
  apply Forall_forall; intros row Hrow; apply repeat_spec in Hrow; subst row; apply repeat_length.
Qed.

(** Extra X12: with a pattern of the right size and a square component mask of
    side [n_components], the masked [make_sparsity_pattern] succeeds and
    inserts exactly the pairs [(dof c i, dof c j)] of local DoFs [i], [j] of an
    active cell [c] whose components are coupled in the mask; when the mask
    is symmetric, so is the set of inserted pairs. *)
Theorem masked_sparsity_pattern_couplings (dof : DoFHandler) (mask : list (list bool))
  (sp : SparsityPattern) :
  n_rows sp = n_dofs dof -> n_cols sp = n_dofs dof ->
  length mask = n_components (fe dof) ->
  Forall (fun row => length row = n_components (fe dof)) mask ->
  exists sp1 inserted,
    make_sparsity_pattern_masked dof mask sp = Ok sp1 /\
    entries sp1 = inserted ++ entries sp /\
    n_rows sp1 = n_rows sp /\ n_cols sp1 = n_cols sp /\
    (forall p, In p inserted <->
       exists cell i j, In cell (active_cells dof) /\
         i < dofs_per_cell (fe dof) /\ j < dofs_per_cell (fe dof) /\
         mask_at mask (system_to_component (fe dof) i) (system_to_component (fe dof) j) = true /\
         p = (dof_on dof cell i, dof_on dof cell j)) /\
    ((forall a b, mask_at mask a b = mask_at mask b a) ->
     forall x y, In (x, y) inserted <-> In (y, x) inserted).
Proof.
  intros Hr Hc Hl Hrows.
  unfold make_sparsity_pattern_masked, bind.
  rewrite (proj2 (N.eqb_eq _ _) Hr), (proj2 (N.eqb_eq _ _) Hc), (proj2 (Nat.eqb_eq _ _) Hl),
          (SparsityProofs.check_mask_rows_ok _ _ Hrows).
  destruct (masked_fold_adds dof (dof_mask (fe dof) mask) sp) as (R & C & ins & E & M).
  eexists; exists ins; split; [reflexivity|]; split; [exact E|]; split; [exact R|]; split; [exact C|].
  assert (Hchar : forall p, In p ins <->
       exists cell i j, In cell (active_cells dof) /\
         i < dofs_per_cell (fe dof) /\ j < dofs_per_cell (fe dof) /\
         mask_at mask (system_to_component (fe dof) i) (system_to_component (fe dof) j) = true /\
         p = (dof_on dof cell i, dof_on dof cell j)).
  { intro p; rewrite M; split.
    - intros (cell & Hcell & i & j & Hi & Hj & Hm & ->).
      rewrite dof_mask_at in Hm by assumption; exists cell, i, j; auto.
    - intros (cell & i & j & Hcell & Hi & Hj & Hm & ->).
      exists cell; split; [exact Hcell|]; exists i, j; repeat split; auto.
      rewrite dof_mask_at by assumption; exact Hm. }
  split; [exact Hchar|].
  intros Hsym x y; rewrite !Hchar; split;
    intros (cell & i & j & Hcell & Hi & Hj & Hm & Hp); injection Hp as -> ->;
    exists cell, j, i; rewrite Hsym; auto.
Qed.

Lemma masked_sparsity_pattern_couplings_witness :
  exists sp1 inserted,
    make_sparsity_pattern_masked Examples.two_comp_dof [[true; false]; [false; true]]
      (Examples.empty_pattern 4) = Ok sp1 /\
    entries sp1 = inserted ++ entries (Examples.empty_pattern 4) /\
    n_rows sp1 = n_rows (Examples.empty_pattern 4) /\ n_cols sp1 = n_cols (Examples.empty_pattern 4) /\
    (forall p, In p inserted <->
       exists cell i j, In cell (active_cells Examples.two_comp_dof) /\
         i < dofs_per_cell (fe Examples.two_comp_dof) /\ j < dofs_per_cell (fe Examples.two_comp_dof) /\
         mask_at [[true; false]; [false; true]]
           (system_to_component (fe Examples.two_comp_dof) i)
           (system_to_component (fe Examples.two_comp_dof) j) = true /\
         p = (dof_on Examples.two_comp_dof cell i, dof_on Examples.two_comp_dof cell j)) /\
    ((forall a b, mask_at [[true; false]; [false; true]] a b =
                  mask_at [[true; false]; [false; true]] b a) ->
     forall x y, In (x, y) inserted <-> In (y, x) inserted).
Proof.
  apply (masked_sparsity_pattern_couplings Examples.two_comp_dof [[true; false]; [false; true]]
           (Examples.empty_pattern 4));
    [reflexivity | reflexivity | reflexivity | repeat constructor].
Defined.

(** Extra X13: the masked [make_sparsity_pattern] with the mask that couples
    every pair of components gives exactly the plain [make_sparsity_pattern]
    (same result, same errors) when every local DoF has a component below
    [n_components]; with the mask that couples nothing it leaves a pattern of
    the right size unchanged. *)
Theorem masked_sparsity_full_and_empty (dof : DoFHandler) (sp : SparsityPattern) :
  let nc := n_components (fe dof) in
  ((forall i, i < dofs_per_cell (fe dof) -> system_to_component (fe dof) i < nc) ->
   make_sparsity_pattern_masked dof (repeat (repeat true nc) nc) sp =
   make_sparsity_pattern dof sp) /\
  (n_rows sp = n_dofs dof -> n_cols sp = n_dofs dof ->
   make_sparsity_pattern_masked dof (repeat (repeat false nc) nc) sp = Ok sp).
Proof.
  cbv zeta; split.
  - intro Hcomp; unfold make_sparsity_pattern_masked, make_sparsity_pattern; cbv beta zeta.
    destruct (N.eqb (n_rows sp) (n_dofs dof)); [|reflexivity].
    destruct (N.eqb (n_cols sp) (n_dofs dof)); [|reflexivity].
    rewrite repeat_length, Nat.eqb_refl, (SparsityProofs.check_mask_rows_ok _ _ (repeat_rows true (n_components (fe dof)))).
    cbn [bind]; f_equal.
    assert (G : forall l s, fold_left (fun acc cell => masked_cell_block dof
                   (dof_mask (fe dof) (repeat (repeat true (n_components (fe dof))) (n_components (fe dof)))) cell acc) l s =
                 fold_left (fun acc cell => cell_block dof cell acc) l s).
    { induction l as [|c l IH]; intro s; simpl; [reflexivity|].
      rewrite masked_cell_block_full; [apply IH|].
      intros i j Hi Hj; rewrite dof_mask_at, mask_at_repeat by assumption.
      rewrite (proj2 (Nat.ltb_lt _ _) (Hcomp i Hi)), (proj2 (Nat.ltb_lt _ _) (Hcomp j Hj)).
      reflexivity. }
    apply G.
  - intros Hr Hc; unfold make_sparsity_pattern_masked; cbv beta zeta.
    rewrite Hr, Hc, N.eqb_refl, repeat_length, Nat.eqb_refl,
            (SparsityProofs.check_mask_rows_ok _ _ (repeat_rows false (n_components (fe dof)))); cbn [bind].
    f_equal.
    assert (Hz : forall i j, mask_at (dof_mask (fe dof)
               (repeat (repeat false (n_components (fe dof))) (n_components (fe dof)))) i j = false).
    { intros i j; unfold mask_at at 1, dof_mask.
      destruct (Nat.ltb i (dofs_per_cell (fe dof))) eqn:Ei.
      - apply Nat.ltb_lt in Ei; rewrite nth_map_seq by exact Ei.
        destruct (Nat.ltb j (dofs_per_cell (fe dof))) eqn:Ej.
        + apply Nat.ltb_lt in Ej; rewrite nth_map_seq by exact Ej.
          rewrite mask_at_repeat; destruct (_ && _); reflexivity.
        + apply Nat.ltb_ge in Ej; rewrite nth_map_seq_overflow by exact Ej; reflexivity.
      - apply Nat.ltb_ge in Ei; rewrite nth_map_seq_overflow by exact Ei; destruct j; reflexivity. }
    assert (G : forall l s, fold_left (fun acc cell => masked_cell_block dof
                  (dof_mask (fe dof) (repeat (repeat false (n_components (fe dof))) (n_components (fe dof))))
                  cell acc) l s = s).
    { induction l as [|c l IH]; intro s; simpl; [reflexivity|].
      rewrite masked_cell_block_empty by exact Hz; apply IH. }
    apply G.
Qed.

End MaskedSparsityProofs.

Module ActiveEntriesProofs.
Import FaceCategory ActiveEntries.

Lemma shrink_while_spec (cond : nat -> bool) (n : nat) :
  1 <= n ->
  exists k, shrink_while cond n = k /\ 1 <= k <= n /\
    (forall m, k < m <= n -> cond m = true) /\ (k = 1 \/ cond k = false).
Proof.
  induction n as [|n IH]; intros Hn; [lia|].
  destruct n as [|n0].
  - exists 1; split; [reflexivity|]; split; [lia|]; split; [intros; lia|left; reflexivity].
  - change (shrink_while cond (S (S n0)))
      with (if cond (S (S n0)) then shrink_while cond (S n0) else S (S n0)).
    destruct (cond (S (S n0))) eqn:E.
    + destruct (IH ltac:(lia)) as [k [Ek [H1 [H2 H3]]]].
      exists k; split; [exact Ek|]; split; [lia|]; split; [|exact H3].
      intros m Hm; destruct (Nat.eq_dec m (S (S n0))) as [->|Hne]; [exact E|apply H2; lia].
    + exists (S (S n0)); split; [reflexivity|]; split; [lia|]; split; [intros; lia|right; exact E].
Qed.

Lemma minus_one_uint_lt (k n : nat) : 1 <= k <= n -> (minus_one_uint k < N.of_nat n)%N.
Proof.
  intros H; unfold minus_one_uint.
  replace (N.of_nat k + 4294967295)%N with (N.of_nat (k - 1) + 1 * 4294967296)%N by lia.
  rewrite N.Div0.mod_add.
  pose proof (N.Div0.mod_le (N.of_nat (k - 1)) 4294967296); lia.
Qed.

Lemma pair_eqb_eq (a b : nat * nat) : pair_eqb a b = true <-> a = b.
Proof.
  destruct a as [a1 a2], b as [b1 b2]; unfold pair_eqb; cbn [fst snd].
  rewrite andb_true_iff, !Nat.eqb_eq; split; [intros [-> ->]; reflexivity|].
  intros H; injection H as -> ->; split; reflexivity.
Qed.

(** Extra X14: [n_active_entries_per_face_batch] fails with [ExcIndexRange]
    for a face batch index out of range, and also when [n_array_elements] is
    0 (the [unsigned int] [n_components - 1] wraps around). Otherwise it
    returns the number [k] of lanes up to the last lane whose interior cell is
    valid (at least 1, at most [n_array_elements]): every lane from [k] on is
    [invalid_unsigned_int], and lane [k - 1] is valid unless [k = 1]. *)
Theorem n_active_entries_per_face_batch_spec (n_array_elements : nat)
  (faces : list FaceToCells) (face_batch_number : nat) :
  let lanes := cells_interior (nth face_batch_number faces
                 {| cells_interior := []; cells_exterior := [] |}) in
  (length faces <= face_batch_number ->
     n_active_entries_per_face_batch n_array_elements faces face_batch_number =
     Err (ExcIndexRange (N.of_nat face_batch_number) 0 (N.of_nat (length faces)))) /\
  (face_batch_number < length faces -> n_array_elements = 0 ->
     n_active_entries_per_face_batch n_array_elements faces face_batch_number =
     Err (ExcIndexRange 4294967295 0 0)) /\
  (face_batch_number < length faces -> 0 < n_array_elements ->
     exists k, n_active_entries_per_face_batch n_array_elements faces face_batch_number = Ok k /\
       1 <= k <= n_array_elements /\
       (forall j, k <= j < n_array_elements ->
          nth j lanes invalid_unsigned_int = invalid_unsigned_int) /\
       (k = 1 \/ nth (k - 1) lanes invalid_unsigned_int <> invalid_unsigned_int)).
Proof.
  cbv zeta; split; [|split].
  - intros Hb; unfold n_active_entries_per_face_batch.
    rewrite (proj2 (Nat.ltb_ge _ _) Hb); reflexivity.
  - intros Hb Hn; subst n_array_elements; unfold n_active_entries_per_face_batch.
    rewrite (proj2 (Nat.ltb_lt _ _) Hb); reflexivity.
  - intros Hb Hn; unfold n_active_entries_per_face_batch.
    rewrite (proj2 (Nat.ltb_lt _ _) Hb); cbv zeta.
    match goal with |- context [shrink_while ?c n_array_elements] =>
      destruct (shrink_while_spec c n_array_elements Hn) as [k [Ek [Hk [Hmore Hlast]]]] end.
    rewrite Ek, (proj2 (N.ltb_lt _ _) (minus_one_uint_lt k n_array_elements Hk)); cbn [bind].
    exists k; split; [reflexivity|]; split; [exact Hk|]; split.
    + intros j Hj; specialize (Hmore (S j) ltac:(lia)).
      apply N.eqb_eq in Hmore; rewrite Nat.sub_succ, Nat.sub_0_r in Hmore; exact Hmore.
    + destruct Hlast as [H1|H1]; [left; exact H1|right].
      intros He; apply N.eqb_eq in He; rewrite He in H1; discriminate.
Qed.

(** Extra X15: [n_active_entries_per_cell_batch] fails with [ExcIndexRange]
    for a cell batch index out of range, and also when [n_array_elements] is
    0 (the [unsigned int] [n_components - 1] wraps around). Otherwise, with [n_array_elements]
    positive, it returns a [k] with [1 <= k <= n_array_elements] such that the
    lanes [k ..] of the batch in [cell_level_index] repeat the cell of lane
    [k - 1] (the padding of a partly filled batch), while lane [k - 1] differs
    from lane [k - 2] unless [k = 1]. *)
Theorem n_active_entries_per_cell_batch_spec (n_array_elements cell_partition_back : nat)
  (cell_level_index : list (nat * nat)) (cell_batch_number : nat) :
  let lane j := nth (cell_batch_number * n_array_elements + j) cell_level_index (0, 0) in
  (cell_partition_back <= cell_batch_number ->
     n_active_entries_per_cell_batch n_array_elements cell_partition_back cell_level_index
       cell_batch_number =
     Err (ExcIndexRange (N.of_nat cell_batch_number) 0 (N.of_nat cell_partition_back))) /\
  (cell_batch_number < cell_partition_back -> n_array_elements = 0 ->
     n_active_entries_per_cell_batch n_array_elements cell_partition_back cell_level_index
       cell_batch_number = Err (ExcIndexRange 4294967295 0 0)) /\
  (cell_batch_number < cell_partition_back -> 0 < n_array_elements ->
     exists k, n_active_entries_per_cell_batch n_array_elements cell_partition_back
                 cell_level_index cell_batch_number = Ok k /\
       1 <= k <= n_array_elements /\
       (forall j, k <= j < n_array_elements -> lane j = lane (k - 1)) /\
       (k = 1 \/ lane (k - 1) <> lane (k - 2))).
Proof.
  cbv zeta; split; [|split].
  - intros Hb; unfold n_active_entries_per_cell_batch.
    rewrite (proj2 (Nat.ltb_ge _ _) Hb); reflexivity.
  - intros Hb Hn; subst n_array_elements; unfold n_active_entries_per_cell_batch.
    rewrite (proj2 (Nat.ltb_lt _ _) Hb); reflexivity.
  - intros Hb Hn; unfold n_active_entries_per_cell_batch.
    rewrite (proj2 (Nat.ltb_lt _ _) Hb); cbv zeta.
    match goal with |- context [shrink_while ?c n_array_elements] =>
      destruct (shrink_while_spec c n_array_elements Hn) as [k [Ek [Hk [Hmore Hlast]]]] end.
    rewrite Ek, (proj2 (N.ltb_lt _ _) (minus_one_uint_lt k n_array_elements Hk)); cbn [bind].
    set (base := cell_batch_number * n_array_elements) in *.
    exists k; split; [reflexivity|]; split; [exact Hk|]; split.
    + assert (Hd : forall d, k + d < n_array_elements ->
                nth (base + (k + d)) cell_level_index (0, 0) =
                nth (base + (k - 1)) cell_level_index (0, 0)).
      { induction d as [|d IH]; intros Hd.
        - specialize (Hmore (S k) ltac:(lia)); apply pair_eqb_eq in Hmore.
          replace (base + S k - 1) with (base + (k + 0)) in Hmore by lia.
          replace (base + S k - 2) with (base + (k - 1)) in Hmore by lia.
          exact Hmore.
        - specialize (Hmore (S (k + S d)) ltac:(lia)); apply pair_eqb_eq in Hmore.
          replace (base + S (k + S d) - 1) with (base + (k + S d)) in Hmore by lia.
          replace (base + S (k + S d) - 2) with (base + (k + d)) in Hmore by lia.
          rewrite Hmore; apply IH; lia. }
      intros j Hj; replace j with (k + (j - k)) by lia; apply Hd; lia.
    + destruct (Nat.eq_dec k 1) as [H1|Hk1]; [left; exact H1|right].
      destruct Hlast as [H1|H1]; [contradiction|].
      intros He; apply pair_eqb_eq in He.
      replace (base + (k - 1)) with (base + k - 1) in He by lia.
      replace (base + (k - 2)) with (base + k - 2) in He by lia.
      rewrite He in H1; discriminate.
Qed.

End ActiveEntriesProofs.
